(** * The content loader of unicorn-utterances: a shallow embedding

    The loader module reads the author, tag and license tables, scans
    [content/collections] and [content/blog], builds one record per
    [index*.md] file, sorts the records by publication date, marks the posts
    that carry a banner and finally attaches to every collection its posts.

    Conventions of the embedding:
    - a JavaScript string is a [string]; its characters are the code units
      0..255, which is enough for the paths, handles and separators the
      loader inspects;
    - [undefined] is [None];
    - the collaborators the loader calls without defining them (the [junk]
      filter, [gray-matter], [dayjs], [new Date], [new URL], the image
      measurer, [path.join], the file system) are variables of the sections
      below;
    - the runtime's own [String] and [Array] methods are written out. *)

From Stdlib Require Import ZArith Lia Ascii String List Sorted Permutation.
From stdpp Require Import base option list gmap strings.

Import ListNotations.
Local Open Scope string_scope.
Local Open Scope list_scope.

(** ** Strings as the runtime sees them *)

Module JS.

Definition chars (s : string) : list ascii := list_ascii_of_string s.
Definition str (l : list ascii) : string := string_of_list_ascii l.

(** The line feed, which a string literal cannot hold. *)
Definition newline : string := String (ascii_of_nat 10) "".

(** [\s] of a regular expression and the characters [trim] removes:
    TAB, LF, VT, FF, CR, SPACE and NBSP. *)
Definition isWhiteSpace (c : ascii) : bool :=
  let n := nat_of_ascii c in
  ((9 <=? n)%nat && (n <=? 13)%nat) || (n =? 32)%nat || (n =? 160)%nat.

(** The characters the pattern [.] refuses: LF and CR. *)
Definition isLineTerminator (c : ascii) : bool :=
  let n := nat_of_ascii c in (n =? 10)%nat || (n =? 13)%nat.

Fixpoint trimStartL (s : list ascii) : list ascii :=
  match s with
  | c :: s' => if isWhiteSpace c then trimStartL s' else s
  | [] => []
  end.

Definition trimEndL (s : list ascii) : list ascii := rev (trimStartL (rev s)).

Definition trimL (s : list ascii) : list ascii := trimEndL (trimStartL s).

(** [String.prototype.trim] *)
Definition trim (s : string) : string := str (trimL (chars s)).

Fixpoint startsWithL (p s : list ascii) : bool :=
  match p, s with
  | [], _ => true
  | a :: p', b :: s' => Ascii.eqb a b && startsWithL p' s'
  | _ :: _, [] => false
  end.

(** [String.prototype.startsWith] and [endsWith] *)
Definition startsWith (s p : string) : bool := startsWithL (chars p) (chars s).
Definition endsWith (s p : string) : bool :=
  startsWithL (rev (chars p)) (rev (chars s)).

(** [String.prototype.includes] for a one-character needle *)
Definition includesChar (s : string) (c : ascii) : bool :=
  existsb (Ascii.eqb c) (chars s).

(** Puts a character in front of the first piece of a split. *)
Definition cons_head (c : ascii) (ps : list (list ascii)) : list (list ascii) :=
  match ps with
  | p :: ps' => (c :: p) :: ps'
  | [] => [[c]]
  end.

(** [String.prototype.split] with a one-character separator: every
    occurrence separates, empty pieces are kept, the empty string gives one
    empty piece. *)
Fixpoint splitCharL (sep : ascii) (s : list ascii) : list (list ascii) :=
  match s with
  | [] => [[]]
  | c :: s' =>
      if Ascii.eqb c sep then [] :: splitCharL sep s'
      else cons_head c (splitCharL sep s')
  end.

Definition splitChar (s : string) (sep : ascii) : list string :=
  map str (splitCharL sep (chars s)).

(** [String.prototype.split(/\s+/)]: the splitter walks the text; where the
    pattern matches it closes the current piece and resumes after the whole
    whitespace run; at the end it pushes the rest, which is empty when the
    text ends in whitespace. [inRun] tells that the previous character
    belonged to the run just matched. *)
Fixpoint splitWsL (inRun : bool) (s : list ascii) : list (list ascii) :=
  match s with
  | [] => [[]]
  | c :: s' =>
      if isWhiteSpace c then
        if inRun then splitWsL true s' else [] :: splitWsL true s'
      else cons_head c (splitWsL false s')
  end.

Definition splitWhitespace (s : string) : list string :=
  map str (splitWsL false (chars s)).

(** [Array.prototype.at]: a negative index counts from the end, an index
    out of range gives [undefined]. *)
Definition at_ {A} (l : list A) (k : Z) : option A :=
  let i := if (k <? 0)%Z then (Z.of_nat (length l) + k)%Z else k in
  if (i <? 0)%Z then None else l !! Z.to_nat i.

(** *** The pattern [/^.*[/@](?!$)/]

    [^] pins the match to the start of the text. [.*] is greedy: it first
    runs as far as it can, that is up to the first line terminator, and then
    gives characters back one at a time until [[/@]] matches the next
    character and the look-ahead [(?!$)] finds at least one more character
    behind it. *)
Definition isSeparator (c : ascii) : bool :=
  Ascii.eqb c "/"%char || Ascii.eqb c "@"%char.

(** How far [.*] can run from the start. *)
Fixpoint dotStarMax (s : list ascii) : nat :=
  match s with
  | c :: s' => if isLineTerminator c then 0 else S (dotStarMax s')
  | [] => 0
  end.

(** Does [[/@](?!$)] match at offset [k] ? *)
Definition separatorAt (s : list ascii) (k : nat) : bool :=
  match s !! k, s !! S k with
  | Some c, Some _ => isSeparator c
  | _, _ => false
  end.

(** Backtracking: [.*] holds [k] characters; the result is the end of the
    match. *)
Fixpoint matchUrlPrefix (s : list ascii) (k : nat) : option nat :=
  if separatorAt s k then Some (S k)
  else match k with
       | O => None
       | S k' => matchUrlPrefix s k'
       end.

(** [s.replace(/^.*[/@](?!$)/, "")] *)
Definition stripUrlPrefixL (s : list ascii) : list ascii :=
  match matchUrlPrefix s (dotStarMax s) with
  | Some e => drop e s
  | None => s
  end.

Definition stripUrlPrefix (s : string) : string := str (stripUrlPrefixL (chars s)).

End JS.

(** ** Author enrichment: social handles *)

(** [normalizeUsername]: [username?.trim()?.replace(/^.*[/@](?!$)/, "")] *)
Definition normalizeUsername (username : option string) : option string :=
  match username with
  | None => None
  | Some u => Some (JS.stripUrlPrefix (JS.trim u))
  end.

(** The word counter of [getPosts]: [fileContents.split(/\s+/).length] *)
Definition wordCount (fileContents : string) : nat :=
  length (JS.splitWhitespace fileContents).

(** ** The runtime's array sort

    [Array.prototype.sort] with a comparison function, as a stable
    insertion sort. Like the insertion and merge steps of the engine under
    Node, it asks only whether [comparefn incoming resident] is negative:
    then the incoming element goes in front of the resident one; on every
    other answer, [0] or positive, the two keep their order of arrival.
    This is the array the engine returns where the negative answers order
    the elements, as those of the two comparison functions of the loader
    do when every published string is a date. Where they do not, with an
    [Invalid Date] among the dates, the order the engine leaves depends on
    the comparisons it happens to make and is not described here: the
    statements below that fix an order assume the dates. *)

Section ArraySort.
Context {A : Type} (comparefn : A -> A -> Z).

Fixpoint insertSorted (x : A) (l : list A) : list A :=
  match l with
  | [] => [x]
  | y :: l' =>
      if (comparefn x y <? 0)%Z then x :: y :: l' else y :: insertSorted x l'
  end.

Definition Array_sort (l : list A) : list A :=
  fold_left (fun acc x => insertSorted x acc) l [].

End ArraySort.

(** ** Data model *)

Definition Languages := string.

(** A [Date] object: its time value in milliseconds, [None] for the
    [Invalid Date] whose time value is [NaN]. *)
Definition JSDate := option Z.

(** [date1 > date2]: both operands are converted to their time values and a
    comparison with [NaN] is false. *)
Definition Date_gt (date1 date2 : JSDate) : bool :=
  match date1, date2 with
  | Some t1, Some t2 => (t2 <? t1)%Z
  | _, _ => false
  end.

(** A string in a condition: the empty string is falsy. *)
Definition truthy (s : string) : bool := negb (String.eqb s "").

(** A possibly undefined string inside a template literal. *)
Definition interpolate (o : option string) : string := default "undefined" o.

(** A possibly undefined value used as a property key. *)
Definition propertyKey (o : option string) : string := default "undefined" o.

Record ImgMeta := {
  img_height : Z;
  img_width : Z;
  img_relativePath : string;
  img_relativeServerPath : string;
  img_absoluteFSPath : string
}.

(** Modelled from the spec: the declaration of the role, license and tag
    records is not among the sources; the loader only reads their [id]. *)
Record RolesEnum := { role_id : string; role_prettyname : string }.
Record LicenseInfo := { license_id : string; license_displayName : string }.
Record TagInfo := {
  tag_displayName : string;
  tag_explainerHtml : option string;
  tag_explainerType : option string
}.

(** Modelled from the spec: the declaration of the author records is not
    among the sources; these are the fields the loader reads or writes,
    with the identity fields the specification lists. *)
Record Socials := {
  twitter : option string;
  github : option string;
  gitlab : option string;
  linkedIn : option string;
  twitch : option string;
  dribbble : option string;
  threads : option string;
  cohost : option string;
  mastodon : option string;
  youtube : option string
}.

Record RawUnicornInfo := {
  rawu_id : string;
  rawu_name : string;
  rawu_description : string;
  rawu_profileImg : string;
  rawu_roles : list string;
  rawu_achievements : option (list string);
  rawu_socials : Socials
}.

Record UnicornInfo := {
  unicorn_id : string;
  unicorn_name : string;
  unicorn_description : string;
  unicorn_profileImg : string;
  unicorn_roles : list string;
  unicorn_achievements : list string;
  unicorn_socials : Socials;
  unicorn_profileImgMeta : ImgMeta;
  unicorn_rolesMeta : list (option RolesEnum)
}.

(** [RawPostInfo] of [types/PostInfo.ts] *)
Record RawPostInfo := {
  raw_title : string;
  raw_published : string;
  raw_authors : list string;
  raw_tags : list string;
  raw_attached : list string;
  raw_license : string;
  raw_description : option string;
  raw_edited : option string;
  raw_collection : option string;
  raw_order : option Z;
  raw_originalLink : option string;
  raw_noindex : option bool
}.

(** An object of the heap is named by its address. *)
Abbreviation addr := nat (only parsing).

(** [PostInfo] of [types/PostInfo.ts]: the front matter spread into the
    record, with [tags] replaced, and the computed fields. [collectionMeta]
    holds a reference to a collection object, not a copy of it. *)
Record PostInfo := {
  post_title : string;
  post_published : string;
  post_authors : list string;
  post_tags : list string;
  post_attached : list string;
  post_license : string;
  post_description : option string;
  post_edited : option string;
  post_collection : option string;
  post_order : option Z;
  post_originalLink : option string;
  post_noindex : option bool;
  post_slug : string;
  post_locales : list (option Languages);
  post_locale : option Languages;
  post_publishedMeta : string;
  post_editedMeta : option string;
  post_authorsMeta : list (option UnicornInfo);
  post_licenseMeta : option LicenseInfo;
  post_collectionMeta : option addr;
  post_socialImg : string;
  post_bannerImg : option string;
  post_wordCount : nat
}.

(** Modelled from the spec: the declaration of the collection records is
    not among the sources; these are the front matter fields the loader
    reads, with the title and description the specification lists. *)
Record RawCollectionInfo := {
  rawc_title : string;
  rawc_description : string;
  rawc_authors : list string;
  rawc_coverImg : string;
  rawc_published : string
}.

(** A collection object. [coll_posts] is [None] as long as the object has no
    [posts] property. *)
Record CollectionInfo := {
  coll_title : string;
  coll_description : string;
  coll_authors : list string;
  coll_coverImg : string;
  coll_published : string;
  coll_slug : string;
  coll_locales : list (option Languages);
  coll_locale : option Languages;
  coll_coverImgMeta : ImgMeta;
  coll_authorsMeta : list (option UnicornInfo);
  coll_posts : option (list PostInfo)
}.

(** The collection objects alive in the module, by address. *)
Abbreviation Heap := (list CollectionInfo) (only parsing).

(** [post.bannerImg = v] *)
Definition setBannerImg (post : PostInfo) (v : string) : PostInfo :=
  {| post_title := post_title post;
     post_published := post_published post;
     post_authors := post_authors post;
     post_tags := post_tags post;
     post_attached := post_attached post;
     post_license := post_license post;
     post_description := post_description post;
     post_edited := post_edited post;
     post_collection := post_collection post;
     post_order := post_order post;
     post_originalLink := post_originalLink post;
     post_noindex := post_noindex post;
     post_slug := post_slug post;
     post_locales := post_locales post;
     post_locale := post_locale post;
     post_publishedMeta := post_publishedMeta post;
     post_editedMeta := post_editedMeta post;
     post_authorsMeta := post_authorsMeta post;
     post_licenseMeta := post_licenseMeta post;
     post_collectionMeta := post_collectionMeta post;
     post_socialImg := post_socialImg post;
     post_bannerImg := Some v;
     post_wordCount := post_wordCount post |}.

(** [{ ...collection, posts }] *)
Definition withPosts (collection : CollectionInfo) (posts : list PostInfo)
  : CollectionInfo :=
  {| coll_title := coll_title collection;
     coll_description := coll_description collection;
     coll_authors := coll_authors collection;
     coll_coverImg := coll_coverImg collection;
     coll_published := coll_published collection;
     coll_slug := coll_slug collection;
     coll_locales := coll_locales collection;
     coll_locale := coll_locale collection;
     coll_coverImgMeta := coll_coverImgMeta collection;
     coll_authorsMeta := coll_authorsMeta collection;
     coll_posts := Some posts |}.

(** A statement either completes with a value or throws. The one throw
    the module makes itself is that of the [mastodon] check, and [message]
    is the line it writes to the console before it throws; a collaborator
    that fails (see [Env]) ends the evaluation too, and is not described. *)
Inductive Completion (A : Type) : Type :=
  | Normal (a : A)
  | Throws (message : string).
Arguments Normal {A} a.
Arguments Throws {A} message.

#[global] Instance Completion_ret : MRet Completion := fun _ a => Normal a.

#[global] Instance Completion_bind : MBind Completion := fun _ _ k c =>
  match c with
  | Normal a => k a
  | Throws m => Throws m
  end.

(** [Array.prototype.map] with a callback that may throw: the first throw
    ends the whole call. *)
Fixpoint mapC {A B} (f : A -> Completion B) (l : list A) : Completion (list B) :=
  match l with
  | [] => Normal []
  | a :: l' => b ← f a; bs ← mapC f l'; Normal (b :: bs)
  end.

(** ** The loader *)

(** The world the module is evaluated in: the collaborators it calls and
    the data files it imports. The file system and the image measurer are
    taken to answer: a directory that cannot be read or an image that
    cannot be measured ends the evaluation before anything below is at
    stake. *)
Record Env := {
  (** [process.cwd()], [path.join], [fs.readdirSync], [fs.readFileSync] *)
  env_cwd : string;
  env_join : list string -> string;
  env_readdirSync : string -> list string;
  env_readFileSync : string -> string;
  (** [isNotJunk] of the [junk] package *)
  env_isNotJunk : string -> bool;
  (** [getImageSize src dir rootDir]: height and width *)
  env_getImageSize : string -> string -> string -> Z * Z;
  env_getFullRelativePath : string -> string -> string;
  (** [matter(fileContents).data], read as a post or as a collection *)
  env_matterPost : string -> RawPostInfo;
  env_matterCollection : string -> RawCollectionInfo;
  (** [dayjs(d).format("MMMM D, YYYY")] *)
  env_dayjsFormat : string -> string;
  (** [new Date(s)] *)
  env_Date_new : string -> JSDate;
  (** [new URL(s).toString()]; [None] where the constructor throws *)
  env_URL_new : string -> option string;
  (** the data files; [env_tags] is the [tags] map as the loop over
      [tags.json] leaves it, [env_collectionMapping] pairs a slug with the
      front matter fields *)
  env_unicornsRaw : list RawUnicornInfo;
  env_rolesRaw : list RolesEnum;
  env_licensesRaw : list LicenseInfo;
  env_tags : gmap string TagInfo;
  env_collectionMapping : list (string * RawCollectionInfo)
}.

Section Loader.

Variable E : Env.

Local Abbreviation cwd := (env_cwd E).
Local Abbreviation join := (env_join E).
Local Abbreviation readdirSync := (env_readdirSync E).
Local Abbreviation readFileSync := (env_readFileSync E).
Local Abbreviation isNotJunk := (env_isNotJunk E).
Local Abbreviation getImageSize := (env_getImageSize E).
Local Abbreviation getFullRelativePath := (env_getFullRelativePath E).
Local Abbreviation matterPost := (env_matterPost E).
Local Abbreviation matterCollection := (env_matterCollection E).
Local Abbreviation dayjsFormat := (env_dayjsFormat E).
Local Abbreviation Date_new := (env_Date_new E).
Local Abbreviation URL_new := (env_URL_new E).
Local Abbreviation unicornsRaw := (env_unicornsRaw E).
Local Abbreviation rolesRaw := (env_rolesRaw E).
Local Abbreviation licensesRaw := (env_licensesRaw E).
Local Abbreviation tags := (env_tags E).
Local Abbreviation collectionMapping := (env_collectionMapping E).

Definition postsDirectory : string := join [cwd; "content/blog"].
Definition collectionsDirectory : string := join [cwd; "content/collections"].
Definition dataDirectory : string := join [cwd; "content/data"].

(** *** Author enrichment *)

(** The [mastodon] step of [fullUnicorns]. The exception carries the line
    the handler writes to [console.error] before it throws again. *)
Definition checkMastodon (id : string) (value : option string)
  : Completion (option string) :=
  match value with
  | Some m =>
      if truthy m then
        match URL_new m with
        | Some href => Normal (Some href)
        | None =>
            Throws ("'" +:+ id +:+ "' socials.mastodon is not a valid URL: '"
                        +:+ m +:+ "'")
        end
      else Normal (Some m)
  | None => Normal None
  end.

(** The [youtube] step of [fullUnicorns] *)
Definition canonicalYoutube (value : option string) : option string :=
  match value with
  | Some y =>
      if truthy y then
        let username := normalizeUsername (Some y) in
        Some (if JS.includesChar y "@"
              then "https://www.youtube.com/@" +:+ interpolate username
              else "https://www.youtube.com/channel/" +:+ interpolate username)
      else Some y
  | None => None
  end.

(** The callback of [unicornsRaw.map] *)
Definition enrichUnicorn (unicorn : RawUnicornInfo) : Completion UnicornInfo :=
  let absoluteFSPath := join [dataDirectory; rawu_profileImg unicorn] in
  let relativeServerPath :=
    getFullRelativePath "/content/data/" (rawu_profileImg unicorn) in
  let profileImgSize :=
    getImageSize (rawu_profileImg unicorn) dataDirectory dataDirectory in
  let profileImgMeta :=
    {| img_height := fst profileImgSize;
       img_width := snd profileImgSize;
       img_relativePath := rawu_profileImg unicorn;
       img_relativeServerPath := relativeServerPath;
       img_absoluteFSPath := absoluteFSPath |} in
  let rolesMeta :=
    map (fun role => find (fun rRole => String.eqb (role_id rRole) role) rolesRaw)
        (rawu_roles unicorn) in
  let achievements := default [] (rawu_achievements unicorn) in
  let socials := rawu_socials unicorn in
  mastodon' ← checkMastodon (rawu_id unicorn) (mastodon socials);
  Normal
    {| unicorn_id := rawu_id unicorn;
       unicorn_name := rawu_name unicorn;
       unicorn_description := rawu_description unicorn;
       unicorn_profileImg := rawu_profileImg unicorn;
       unicorn_roles := rawu_roles unicorn;
       unicorn_achievements := achievements;
       unicorn_socials :=
         {| twitter := normalizeUsername (twitter socials);
            github := normalizeUsername (github socials);
            gitlab := normalizeUsername (gitlab socials);
            linkedIn := normalizeUsername (linkedIn socials);
            twitch := normalizeUsername (twitch socials);
            dribbble := normalizeUsername (dribbble socials);
            threads := normalizeUsername (threads socials);
            cohost := normalizeUsername (cohost socials);
            mastodon := mastodon';
            youtube := canonicalYoutube (youtube socials) |};
       unicorn_profileImgMeta := profileImgMeta;
       unicorn_rolesMeta := rolesMeta |}.

Definition fullUnicorns : Completion (list UnicornInfo) :=
  mapC enrichUnicorn unicornsRaw.

(** *** Index files and their locales *)

Definition isIndexFile (name : string) : bool :=
  JS.startsWith name "index." && JS.endsWith name ".md".

(** [readdirSync(dir).filter(isNotJunk).filter(...)] *)
Definition indexFiles (dir : string) : list string :=
  List.filter isIndexFile (List.filter isNotJunk (readdirSync dir)).

(** [files.map(name => name.split(".").at(-2))
         .map(lang => lang === "index" ? "en" : lang)] *)
Definition localesOf (files : list string) : list (option Languages) :=
  map (fun lang : option string =>
         match lang with
         | Some l => if String.eqb l "index" then Some "en" else Some l
         | None => None
         end)
      (map (fun name => JS.at_ (JS.splitChar name "."%char) (-2)) files).

(** [locales[i]] *)
Definition localeAt (locales : list (option Languages)) (i : nat)
  : option Languages :=
  mjoin (locales !! i).

Definition findUnicorn (unicorns : list UnicornInfo) (authorId : string)
  : option UnicornInfo :=
  find (fun u => String.eqb (unicorn_id u) authorId) unicorns.

(** *** The collection aggregator *)

(** The callback of [files.map] in [getCollections] *)
Definition collectionOfFile (unicorns : list UnicornInfo) (slug : string)
    (locales : list (option Languages)) (i : nat) (file : string)
  : CollectionInfo :=
  let fileContents := readFileSync (join [collectionsDirectory; slug; file]) in
  let frontmatter := matterCollection fileContents in
  let coverImgSize :=
    getImageSize (rawc_coverImg frontmatter) (join [collectionsDirectory; slug])
                 (join [collectionsDirectory; slug]) in
  let coverImgMeta :=
    {| img_height := fst coverImgSize;
       img_width := snd coverImgSize;
       img_relativePath := rawc_coverImg frontmatter;
       img_relativeServerPath :=
         getFullRelativePath ("/content/collections/" +:+ slug)
                             (rawc_coverImg frontmatter);
       img_absoluteFSPath :=
         join [collectionsDirectory; slug; rawc_coverImg frontmatter] |} in
  let authorsMeta := map (findUnicorn unicorns) (rawc_authors frontmatter) in
  {| coll_title := rawc_title frontmatter;
     coll_description := rawc_description frontmatter;
     coll_authors := rawc_authors frontmatter;
     coll_coverImg := rawc_coverImg frontmatter;
     coll_published := rawc_published frontmatter;
     coll_slug := slug;
     coll_locales := locales;
     coll_locale := localeAt locales i;
     coll_coverImgMeta := coverImgMeta;
     coll_authorsMeta := authorsMeta;
     coll_posts := None |}.

(** The callback of [slugs.flatMap] in [getCollections] *)
Definition collectionsOfSlug (unicorns : list UnicornInfo) (slug : string)
  : list CollectionInfo :=
  let files := indexFiles (join [collectionsDirectory; slug]) in
  let locales := localesOf files in
  imap (collectionOfFile unicorns slug locales) files.

(** The callback of [collectionMapping.map] *)
Definition collectionOfMapping (unicorns : list UnicornInfo)
    (collection : string * RawCollectionInfo) : CollectionInfo :=
  let '(slug, frontmatter) := collection in
  let coverImgSize :=
    getImageSize (rawc_coverImg frontmatter) (join [cwd; "public"])
                 (join [cwd; "public"]) in
  let coverImgMeta :=
    {| img_height := fst coverImgSize;
       img_width := snd coverImgSize;
       img_relativePath := rawc_coverImg frontmatter;
       img_relativeServerPath := rawc_coverImg frontmatter;
       img_absoluteFSPath := join [cwd; "public"; rawc_coverImg frontmatter] |} in
  let authorsMeta := map (findUnicorn unicorns) (rawc_authors frontmatter) in
  {| coll_title := rawc_title frontmatter;
     coll_description := rawc_description frontmatter;
     coll_authors := rawc_authors frontmatter;
     coll_coverImg := rawc_coverImg frontmatter;
     coll_published := rawc_published frontmatter;
     coll_slug := slug;
     coll_locales := [Some "en"];
     coll_locale := Some "en";
     coll_coverImgMeta := coverImgMeta;
     coll_authorsMeta := authorsMeta;
     coll_posts := None |}.

(** The comparison function of [allCollections.sort] *)
Definition compareCollections (collection1 collection2 : CollectionInfo) : Z :=
  let date1 := Date_new (coll_published collection1) in
  let date2 := Date_new (coll_published collection2) in
  if Date_gt date1 date2 then (-1)%Z else 1%Z.

(** The collections before they are sorted *)
Definition allCollections (unicorns : list UnicornInfo) : list CollectionInfo :=
  let slugs := List.filter isNotJunk (readdirSync collectionsDirectory) in
  let collections := flat_map (collectionsOfSlug unicorns) slugs in
  let collectionMappingFilled :=
    map (collectionOfMapping unicorns) collectionMapping in
  collections ++ collectionMappingFilled.

Definition getCollections (unicorns : list UnicornInfo) : list CollectionInfo :=
  Array_sort compareCollections (allCollections unicorns).

(** *** The post aggregator *)

(** [tags.has(tag)] *)
Definition tagsHas (tag : string) : bool :=
  match tags !! tag with
  | Some _ => true
  | None => false
  end.

(** The line [console.warn] writes for a tag that is dropped *)
Definition tagWarning (slug tag : string) : string :=
  slug +:+ ": Tag '" +:+ tag
       +:+ "' is not specified in content/data/tags.json! Filtering...".

(** [[...frontmatter.tags].filter(...)]: the tags kept and, in the order
    they were written, the lines the callback sent to the console. *)
Fixpoint filterTags (slug : string) (frontmatterTags : list string)
  : list string * list string :=
  match frontmatterTags with
  | [] => ([], [])
  | tag :: rest =>
      let '(kept, console) := filterTags slug rest in
      if tagsHas tag then (tag :: kept, console)
      else (kept, tagWarning slug tag :: console)
  end.

(** [collections.find(c => c.slug === slug)] over the array of references *)
Definition findCollection (heap : Heap) (collections : list addr) (slug : string)
  : option addr :=
  find (fun c => match heap !! c with
                 | Some collection => String.eqb (coll_slug collection) slug
                 | None => false
                 end)
       collections.

(** The callback of [files.map] in [getPosts]: the record and the console
    lines of its construction. A falsy operand of [&&] is rendered [None],
    [""] where the field is a string. *)
Definition postOfFile (unicorns : list UnicornInfo) (heap : Heap)
    (collections : list addr) (slug : string)
    (locales : list (option Languages)) (i : nat) (file : string)
  : PostInfo * list string :=
  let fileContents := readFileSync (join [postsDirectory; slug; file]) in
  let frontmatter := matterPost fileContents in
  let wordCount := wordCount fileContents in
  let '(frontmatterTags, console) := filterTags slug (raw_tags frontmatter) in
  ({| post_title := raw_title frontmatter;
      post_published := raw_published frontmatter;
      post_authors := raw_authors frontmatter;
      post_tags := frontmatterTags;
      post_attached := raw_attached frontmatter;
      post_license := raw_license frontmatter;
      post_description := raw_description frontmatter;
      post_edited := raw_edited frontmatter;
      post_collection := raw_collection frontmatter;
      post_order := raw_order frontmatter;
      post_originalLink := raw_originalLink frontmatter;
      post_noindex := raw_noindex frontmatter;
      post_slug := slug;
      post_locales := locales;
      post_locale := localeAt locales i;
      post_publishedMeta :=
        if truthy (raw_published frontmatter)
        then dayjsFormat (raw_published frontmatter) else "";
      post_editedMeta :=
        match raw_edited frontmatter with
        | Some e => Some (if truthy e then dayjsFormat e else "")
        | None => None
        end;
      post_authorsMeta := map (findUnicorn unicorns) (raw_authors frontmatter);
      post_licenseMeta :=
        if truthy (raw_license frontmatter)
        then find (fun l => String.eqb (license_id l) (raw_license frontmatter))
                  licensesRaw
        else None;
      post_collectionMeta :=
        match raw_collection frontmatter with
        | Some c => if truthy c then findCollection heap collections c else None
        | None => None
        end;
      post_socialImg := "/generated/" +:+ slug +:+ ".twitter-preview.jpg";
      post_bannerImg := None;
      post_wordCount := wordCount |},
   console).

(** The callback of [slugs.flatMap] in [getPosts] *)
Definition postsOfSlug (unicorns : list UnicornInfo) (heap : Heap)
    (collections : list addr) (slug : string) : list (PostInfo * list string) :=
  let files := indexFiles (join [postsDirectory; slug]) in
  let locales := localesOf files in
  imap (postOfFile unicorns heap collections slug locales) files.

(** The records of [getPosts] before they are sorted, each with its console
    lines, in the order the files are visited. *)
Definition builtPosts (unicorns : list UnicornInfo) (heap : Heap)
    (collections : list addr) : list (PostInfo * list string) :=
  let slugs := List.filter isNotJunk (readdirSync postsDirectory) in
  flat_map (postsOfSlug unicorns heap collections) slugs.

(** The comparison function of [posts.sort] *)
Definition comparePosts (post1 post2 : PostInfo) : Z :=
  let date1 := Date_new (post_published post1) in
  let date2 := Date_new (post_published post2) in
  if Date_gt date1 date2 then (-1)%Z else 1%Z.

(** The names under which the object literal [{}] answers without having
    been given anything: the properties of [Object.prototype]. *)
Definition inheritedKeys : list string :=
  ["constructor"; "__defineGetter__"; "__defineSetter__"; "hasOwnProperty";
   "__lookupGetter__"; "__lookupSetter__"; "isPrototypeOf";
   "propertyIsEnumerable"; "toString"; "valueOf"; "__proto__";
   "toLocaleString"].

Definition isInherited (key : string) : bool :=
  existsb (String.eqb key) inheritedKeys.

(** [paginationCount[post.locale] + 1 || 0], with [None] for a value that
    is no number. Under an inherited name the object answers a function,
    under [__proto__] the prototype, and [+ 1] makes a string of it, which
    is truthy; the loop stores the string (under [__proto__] the store is
    ignored), so that every later reading gives a string again. Under any
    other key the object holds the number the loop stored, and a missing
    counter gives [NaN], which is falsy like [0]. [paginationCount] holds
    the numbers. *)
Definition nextCount (paginationCount : gmap string Z) (key : string)
  : option Z :=
  if isInherited key then None
  else match paginationCount !! key with
       | Some c => Some (if (c + 1 =? 0)%Z then 0%Z else (c + 1)%Z)
       | None => Some 0%Z
       end.

(** The loop [for (const post of posts)]: the posts as the loop leaves them.
    [paginationCount] is the object of the counters, keyed by locale. Where
    [count] is a string, [count % 8] is [NaN], neither [0] nor [4], and the
    post is left as it is. *)
Fixpoint bannerLoop (paginationCount : gmap string Z) (posts : list PostInfo)
  : list PostInfo :=
  match posts with
  | [] => []
  | post :: rest =>
      let key := propertyKey (post_locale post) in
      match nextCount paginationCount key with
      | Some count =>
          let index := Z.rem count 8 in
          let post' :=
            if (index =? 0)%Z || (index =? 4)%Z
            then setBannerImg post
                   ("/generated/" +:+ post_slug post +:+ ".banner.jpg")
            else post in
          post' :: bannerLoop (<[key := count]> paginationCount) rest
      | None => post :: bannerLoop paginationCount rest
      end
  end.

(** [getPosts]: the posts and what the console received *)
Definition getPosts (unicorns : list UnicornInfo) (heap : Heap)
    (collections : list addr) : list PostInfo * list string :=
  let built := builtPosts unicorns heap collections in
  let posts := Array_sort comparePosts (map fst built) in
  (bannerLoop ∅ posts, concat (map snd built)).

(** *** The module: collections, posts, cross-linking *)

(** Fresh objects are placed behind the ones alive; the result is the heap
    and the array of the references to the new objects. *)
Definition allocate (heap : Heap) (objects : list CollectionInfo)
  : Heap * list addr :=
  (heap ++ objects, seq (length heap) (length objects)).

(** The objects an array of references points to *)
Definition deref (heap : Heap) (refs : list addr) : list CollectionInfo :=
  omap (fun c => heap !! c) refs.

(** [post.collection === collection.slug] *)
Definition inCollection (collection : CollectionInfo) (post : PostInfo) : bool :=
  match post_collection post with
  | Some c => String.eqb c (coll_slug collection)
  | None => false
  end.

(** [collections.map(collection => ({ ...collection, posts: ... }))]: every
    call of the callback creates an object. *)
Definition linkCollections (heap : Heap) (collections : list addr)
    (posts : list PostInfo) : Heap * list addr :=
  allocate heap
    (map (fun collection =>
            withPosts collection (List.filter (inCollection collection) posts))
         (deref heap collections)).

Record Exports := {
  exp_unicorns : list UnicornInfo;
  exp_heap : Heap;
  exp_collections : list addr;
  exp_posts : list PostInfo;
  exp_console : list string
}.

(** The state after [let collections = getCollections()] *)
Definition collectionsStage (unicorns : list UnicornInfo) : Heap * list addr :=
  allocate [] (getCollections unicorns).

(** The state after [const posts = getPosts()] *)
Definition postsStage (unicorns : list UnicornInfo) : list PostInfo * list string :=
  let '(heap, collections) := collectionsStage unicorns in
  getPosts unicorns heap collections.

(** The state after [collections = collections.map(...)] *)
Definition linkStage (unicorns : list UnicornInfo) : Heap * list addr :=
  let '(heap, collections) := collectionsStage unicorns in
  linkCollections heap collections (fst (postsStage unicorns)).

(** The evaluation of the module, from the data files to the exports, with
    collaborators that answer: [Normal] is what a completed evaluation
    exports, [Throws] the evaluation the [mastodon] check ends. *)
Definition loadModule : Completion Exports :=
  unicorns ← fullUnicorns;
  Normal {| exp_unicorns := unicorns;
            exp_heap := fst (linkStage unicorns);
            exp_collections := snd (linkStage unicorns);
            exp_posts := fst (postsStage unicorns);
            exp_console := snd (postsStage unicorns) |}.

End Loader.

(** ** What the specification calls tokens *)

Module Words.

(** Following the specification: the whitespace-separated tokens of a text
    are its maximal runs of characters that are not whitespace. *)
Fixpoint tokensL (s : list ascii) : list (list ascii) :=
  match s with
  | [] => []
  | c :: s' =>
      if JS.isWhiteSpace c then tokensL s'
      else match s' with
           | [] => [[c]]
           | c' :: _ =>
               if JS.isWhiteSpace c' then [c] :: tokensL s'
               else JS.cons_head c (tokensL s')
           end
  end.

Definition tokens (text : string) : list string :=
  map JS.str (tokensL (JS.chars text)).

Definition startsWsL (s : list ascii) : bool :=
  match s with
  | c :: _ => JS.isWhiteSpace c
  | [] => false
  end.

Fixpoint endsWsL (s : list ascii) : bool :=
  match s with
  | [] => false
  | c :: s' =>
      match s' with
      | [] => JS.isWhiteSpace c
      | _ :: _ => endsWsL s'
      end
  end.

Definition startsWithWhitespace (text : string) : bool := startsWsL (JS.chars text).
Definition endsWithWhitespace (text : string) : bool := endsWsL (JS.chars text).

(** The empty piece the splitter pushes at the end of the text: after a
    closed run, or when nothing was read at all. *)
Definition lastPiece (s : list ascii) : list (list ascii) :=
  match s with
  | [] => [[]]
  | _ :: _ => if endsWsL s then [[]] else []
  end.

End Words.

(** ** The properties, in the words of the specification *)

(** A text without [/] and [@], and a text on one line *)
Definition noSeparator (s : string) : bool :=
  forallb (fun c => negb (JS.isSeparator c)) (JS.chars s).

Definition noLineTerminator (s : string) : bool :=
  forallb (fun c => negb (JS.isLineTerminator c)) (JS.chars s).

(** A handle that is already bare: nothing to trim, no [/] and no [@]. *)
Definition isBareHandle (h : string) : bool :=
  String.eqb (JS.trim h) h && noSeparator h.


(** The zero-based rank of the post at position [i] among the posts of its
    locale: how many posts of that locale stand before it. *)
Definition localeRank (posts : list PostInfo) (i : nat) : nat :=
  match posts !! i with
  | Some post =>
      length (List.filter
                (fun q => bool_decide (post_locale q = post_locale post))
                (take i posts))
  | None => 0
  end.

(** The path of the banner of a post *)
Definition bannerPath (post : PostInfo) : string :=
  "/generated/" +:+ post_slug post +:+ ".banner.jpg".

(** How many of the first [i] posts are counted under the key [k]. *)
Definition countedBefore (posts : list PostInfo) (i : nat) (k : string) : nat :=
  length (List.filter (fun q => String.eqb (propertyKey (post_locale q)) k)
                      (take i posts)).

(** What the banner loop makes of a post when its counter holds [count]. *)
Definition marked (count : Z) (post : PostInfo) : PostInfo :=
  if (Z.rem count 8 =? 0)%Z || (Z.rem count 8 =? 4)%Z
  then setBannerImg post (bannerPath post)
  else post.

(** A post without its banner: what the post was before the banner pass. *)
Definition clearBanner (post : PostInfo) : PostInfo :=
  {| post_title := post_title post;
     post_published := post_published post;
     post_authors := post_authors post;
     post_tags := post_tags post;
     post_attached := post_attached post;
     post_license := post_license post;
     post_description := post_description post;
     post_edited := post_edited post;
     post_collection := post_collection post;
     post_order := post_order post;
     post_originalLink := post_originalLink post;
     post_noindex := post_noindex post;
     post_slug := post_slug post;
     post_locales := post_locales post;
     post_locale := post_locale post;
     post_publishedMeta := post_publishedMeta post;
     post_editedMeta := post_editedMeta post;
     post_authorsMeta := post_authorsMeta post;
     post_licenseMeta := post_licenseMeta post;
     post_collectionMeta := post_collectionMeta post;
     post_socialImg := post_socialImg post;
     post_bannerImg := None;
     post_wordCount := post_wordCount post |}.

(** Two published strings, the first not earlier than the second: both are
    dates and the time value of the first is at least that of the second. *)
Definition notEarlier (E : Env) (published1 published2 : string) : Prop :=
  exists t1 t2 : Z,
    env_Date_new E published1 = Some t1
    /\ env_Date_new E published2 = Some t2
    /\ (t2 <= t1)%Z.

(** A key the comparison function agrees with on a list: a negative answer
    exactly where the first key is the larger one. *)
Definition agreesOn {A} (comparefn : A -> A -> Z) (key : A -> Z) (l : list A)
  : Prop :=
  forall x y, x ∈ l -> y ∈ l -> (comparefn x y < 0 <-> key y < key x)%Z.

Definition keyDescending {A} (key : A -> Z) (a b : A) : Prop :=
  (key b <= key a)%Z.

(** Two published strings, the first strictly later than the second. *)
Definition laterThan (E : Env) (published1 published2 : string) : Prop :=
  exists t1 t2 : Z,
    env_Date_new E published1 = Some t1
    /\ env_Date_new E published2 = Some t2
    /\ (t2 < t1)%Z.

(** The comparison rule of the specification: [-1] when the first record
    is strictly later, [1] otherwise, so never [0]; on equal dates the
    answer is [1], the second operand is taken for the later one. *)
Definition comparesByPublished {A} (E : Env) (published : A -> string)
    (comparefn : A -> A -> Z) : Prop :=
  forall x y,
    (comparefn x y = (-1)%Z \/ comparefn x y = 1%Z)
    /\ (comparefn x y = (-1)%Z <-> laterThan E (published x) (published y))
    /\ (env_Date_new E (published x) = env_Date_new E (published y) ->
        comparefn x y = 1%Z).

(** A list in non-increasing order of published date *)
Definition descendingByPublished {A} (E : Env) (published : A -> string)
    (l : list A) : Prop :=
  StronglySorted (fun a b => notEarlier E (published a) (published b)) l.

(** Every record of the list has a published date. *)
Definition allDated {A} (E : Env) (published : A -> string) (l : list A) : Prop :=
  Forall (fun x => is_Some (env_Date_new E (published x))) l.

(** ** A small site

    A content tree with one collection in two languages and ten posts, on
    which the statements below are evaluated. *)

Module Demo.

Definition lookupPath {V} (table : list (string * V)) (default : V) (path : string) : V :=
  match find (fun e => String.eqb (fst e) path) table with
  | Some e => snd e
  | None => default
  end.

Definition nl : string := JS.newline.

Definition directories : list (string * list string) :=
  [ ("/site/content/collections", [".DS_Store"; "my-series"]);
    ("/site/content/collections/my-series", ["cover.png"; "index.es.md"; "index.md"]);
    ("/site/content/blog",
     ["a"; "b"; "c"; "d"; "e"; "f"; "g"; "h"; "i"; ".DS_Store"]);
    ("/site/content/blog/a", ["index.md"; "index.es.md"; "hero.png"]);
    ("/site/content/blog/b", ["index.md"]);
    ("/site/content/blog/c", ["index.md"]);
    ("/site/content/blog/d", ["index.md"]);
    ("/site/content/blog/e", ["index.md"; "notes.txt"]);
    ("/site/content/blog/f", ["index.md"]);
    ("/site/content/blog/g", ["index.md"]);
    ("/site/content/blog/h", ["index.md"]);
    ("/site/content/blog/i", ["index.md"]) ].

(** A file is a line "published collection tag ... tag", with [-] for no
    collection. *)
Definition files : list (string * string) :=
  [ ("/site/content/collections/my-series/index.md", "2021-01-05 My-series" +:+ nl);
    ("/site/content/collections/my-series/index.es.md", "2021-01-05 Mi-serie" +:+ nl);
    ("/site/content/blog/a/index.md", "2021-01-03 my-series valid-tag bogus-tag" +:+ nl);
    ("/site/content/blog/a/index.es.md", "2021-01-03 my-series valid-tag" +:+ nl);
    ("/site/content/blog/b/index.md", "2021-01-09 - valid-tag" +:+ nl);
    ("/site/content/blog/c/index.md", "2021-01-01 my-series" +:+ nl);
    ("/site/content/blog/d/index.md", "2021-01-07 -" +:+ nl);
    ("/site/content/blog/e/index.md", "2021-01-03 other-series" +:+ nl);
    ("/site/content/blog/f/index.md", "2021-01-08 -" +:+ nl);
    ("/site/content/blog/g/index.md", "2021-01-02 my-series other-tag" +:+ nl);
    ("/site/content/blog/h/index.md", "2021-01-06 -" +:+ nl);
    ("/site/content/blog/i/index.md", "2021-01-04 -" +:+ nl) ].

Definition calendar : list (string * JSDate) :=
  [ ("2021-01-01", Some 1609459200000%Z); ("2021-01-02", Some 1609545600000%Z);
    ("2021-01-03", Some 1609632000000%Z); ("2021-01-04", Some 1609718400000%Z);
    ("2021-01-05", Some 1609804800000%Z); ("2021-01-06", Some 1609891200000%Z);
    ("2021-01-07", Some 1609977600000%Z); ("2021-01-08", Some 1610064000000%Z);
    ("2021-01-09", Some 1610150400000%Z); ("2020-06-01", Some 1590969600000%Z) ].

Definition words (contents : string) : list string :=
  List.filter truthy (JS.splitWhitespace contents).

Definition matterPost (contents : string) : RawPostInfo :=
  let ws := words contents in
  {| raw_title := contents;
     raw_published := nth 0 ws "";
     raw_authors := ["crutchcorn"];
     raw_tags := skipn 2 ws;
     raw_attached := [];
     raw_license := "cc-by-4";
     raw_description := None;
     raw_edited := None;
     raw_collection :=
       match nth 1 ws "-" with
       | "-" => None
       | c => Some c
       end;
     raw_order := None;
     raw_originalLink := None;
     raw_noindex := None |}.

Definition matterCollection (contents : string) : RawCollectionInfo :=
  let ws := words contents in
  {| rawc_title := nth 1 ws "";
     rawc_description := "";
     rawc_authors := ["crutchcorn"];
     rawc_coverImg := "./cover.png";
     rawc_published := nth 0 ws "" |}.

Definition noSocials : Socials :=
  {| twitter := None; github := None; gitlab := None; linkedIn := None;
     twitch := None; dribbble := None; threads := None; cohost := None;
     mastodon := None; youtube := None |}.

Definition crutchcorn : RawUnicornInfo :=
  {| rawu_id := "crutchcorn";
     rawu_name := "Corbin Crutchley";
     rawu_description := "";
     rawu_profileImg := "./crutchcorn.png";
     rawu_roles := ["author"];
     rawu_achievements := None;
     rawu_socials :=
       {| twitter := Some "https://twitter.com/crutchcorn";
          github := Some "crutchcorn";
          gitlab := None;
          linkedIn := Some "linkedin.com/in/crutchcorn";
          twitch := Some "@crutchcorn";
          dribbble := None;
          threads := None;
          cohost := Some "";
          mastodon := Some "https://hachyderm.io/@crutchcorn";
          youtube := Some "@crutchcorn" |} |}.

(** An author whose mastodon entry is no URL *)
Definition strayAuthor : RawUnicornInfo :=
  {| rawu_id := "stray";
     rawu_name := "Stray";
     rawu_description := "";
     rawu_profileImg := "./stray.png";
     rawu_roles := [];
     rawu_achievements := Some [];
     rawu_socials :=
       {| twitter := None; github := None; gitlab := None; linkedIn := None;
          twitch := None; dribbble := None; threads := None; cohost := None;
          mastodon := Some "not a url"; youtube := None |} |}.

Definition envOf (authors : list RawUnicornInfo) : Env :=
  {| env_cwd := "/site";
     env_join := String.concat "/";
     env_readdirSync := lookupPath directories [];
     env_readFileSync := lookupPath files "";
     env_isNotJunk := fun name => negb (String.eqb name ".DS_Store");
     env_getImageSize := fun _ _ _ => (630, 1200)%Z;
     env_getFullRelativePath := fun prefix path => prefix +:+ "/" +:+ path;
     env_matterPost := matterPost;
     env_matterCollection := matterCollection;
     env_dayjsFormat := fun d => d;
     env_Date_new := lookupPath calendar None;
     env_URL_new := fun s => if JS.startsWith s "https://" then Some s else None;
     env_unicornsRaw := authors;
     env_rolesRaw := [{| role_id := "author"; role_prettyname := "Author" |}];
     env_licensesRaw :=
       [{| license_id := "cc-by-4"; license_displayName := "CC BY 4.0" |}];
     env_tags :=
       {[ "valid-tag" := {| tag_displayName := "Valid";
                            tag_explainerHtml := None;
                            tag_explainerType := None |} ]};
     env_collectionMapping :=
       [("old-series",
         {| rawc_title := "Old series";
            rawc_description := "";
            rawc_authors := ["crutchcorn"];
            rawc_coverImg := "/covers/old.png";
            rawc_published := "2020-06-01" |})] |}.

Definition env : Env := envOf [crutchcorn].

Definition unicorns : list UnicornInfo :=
  match fullUnicorns env with
  | Normal us => us
  | Throws _ => []
  end.

End Demo.

(** ** Further notions used to state what the loader guarantees *)

(** A text all of whose separators, if any, stand in its last position. *)
Definition separatorsOnlyLast (s : list ascii) : Prop :=
  forall i c, s !! i = Some c -> JS.isSeparator c = true -> S i = length s.

(** What a lookup by id leaves in a [...Meta] field: the entry of the table
    with that id, or [undefined] when the table has none. *)
Definition resolvedBy {A} (id : A -> string) (table : list A) (key : string)
    (meta : option A) : Prop :=
  match meta with
  | Some x => id x = key /\ x ∈ table
  | None => forall x, x ∈ table -> id x <> key
  end.

(** The posts counted under the key [k] by the banner loop *)
Definition underKey (k : string) (post : PostInfo) : bool :=
  String.eqb (propertyKey (post_locale post)) k.

(** The records published at the time [t] *)
Definition publishedAt {A} (E : Env) (published : A -> string) (t : Z) (x : A)
  : bool :=
  bool_decide (env_Date_new E (published x) = Some t).

(** A [mastodon] entry the enrichment lets pass: absent, empty, or a URL *)
Definition mastodonAccepted (E : Env) (unicorn : RawUnicornInfo) : bool :=
  match mastodon (rawu_socials unicorn) with
  | Some m => negb (truthy m) || bool_decide (is_Some (env_URL_new E m))
  | None => true
  end.

(** The world with another [roles.json] *)
Definition withRoles (E : Env) (roles : list RolesEnum) : Env :=
  {| env_cwd := env_cwd E;
     env_join := env_join E;
     env_readdirSync := env_readdirSync E;
     env_readFileSync := env_readFileSync E;
     env_isNotJunk := env_isNotJunk E;
     env_getImageSize := env_getImageSize E;
     env_getFullRelativePath := env_getFullRelativePath E;
     env_matterPost := env_matterPost E;
     env_matterCollection := env_matterCollection E;
     env_dayjsFormat := env_dayjsFormat E;
     env_Date_new := env_Date_new E;
     env_URL_new := env_URL_new E;
     env_unicornsRaw := env_unicornsRaw E;
     env_rolesRaw := roles;
     env_licensesRaw := env_licensesRaw E;
     env_tags := env_tags E;
     env_collectionMapping := env_collectionMapping E |}.

(** The posts of the locale [l] *)
Definition hasLocale (l : Languages) (post : PostInfo) : bool :=
  bool_decide (post_locale post = Some l).

(** ** The tag table

    The loop over the entries of [tags.json] that fills the [tags] map
    before the authors are read. *)

(** [String.prototype.replace] with a string for a pattern: the first
    occurrence of the pattern gives way to the replacement, the text
    around it stays. The replacements of the loader hold no [$]. *)
Fixpoint replaceL (pattern replacement s : list ascii) : list ascii :=
  if JS.startsWithL pattern s then replacement ++ drop (length pattern) s
  else match s with
       | [] => []
       | c :: s' => c :: replaceL pattern replacement s'
       end.

Definition String_replace (s pattern replacement : string) : string :=
  JS.str (replaceL (JS.chars pattern) (JS.chars replacement) (JS.chars s)).

(** The truth value of a string that may be [undefined] *)
Definition truthyO (o : option string) : bool :=
  match o with
  | Some s => truthy s
  | None => false
  end.

(** Modelled from the spec: the declaration of the entries of [tags.json]
    is not among the sources; the loop tests and reads their [image], a
    key an entry may lack, and copies what else they hold, of which the
    specification lists the label. *)
Record RawTagInfo := {
  rawtag_displayName : string;
  rawtag_image : option string
}.

(** The object [tags.set] stores: the two explainer fields and, spread
    after them, the fields of the entry. *)
Record TagEntry := {
  entry_explainerHtml : option string;
  entry_explainerType : option string;
  entry_displayName : string;
  entry_image : option string
}.

(** What the post aggregator sees of a stored tag *)
Definition tagInfoOf (entry : TagEntry) : TagInfo :=
  {| tag_displayName := entry_displayName entry;
     tag_explainerHtml := entry_explainerHtml entry;
     tag_explainerType := entry_explainerType entry |}.

Section TagTable.

(** [fs.promises.readFile(path, "utf-8").catch((_) => undefined)] *)
Variable readFile : string -> option string.
(** [(await tagExplainerParser.process(explainer)).toString()] *)
Variable processExplainer : string -> string.

Definition licensePath (image : string) : string :=
  "public" +:+ String_replace image ".svg" "-LICENSE.md".

Definition attributionPath (image : string) : string :=
  "public" +:+ String_replace image ".svg" "-ATTRIBUTION.md".

(** [explainer] and [explainerType] where the [if] on the image leaves
    them *)
Definition explainerOf (tag : RawTagInfo) : option string * option string :=
  match rawtag_image tag with
  | Some image =>
      if JS.endsWith image ".svg" then
        let license := readFile (licensePath image) in
        let attribution := readFile (attributionPath image) in
        if truthyO license then (license, Some "license")
        else if truthyO attribution then (attribution, Some "attribution")
        else (None, None)
      else (None, None)
  | None => (None, None)
  end.

(** The body of the loop: the object stored under the key *)
Definition tagEntry (tag : RawTagInfo) : TagEntry :=
  let '(explainer, explainerType) := explainerOf tag in
  let explainerHtml :=
    if truthyO explainer then processExplainer <$> explainer else None in
  {| entry_explainerHtml := explainerHtml;
     entry_explainerType := explainerType;
     entry_displayName := rawtag_displayName tag;
     entry_image := rawtag_image tag |}.

(** [for (const [key, tag] of Object.entries(tagsRaw)) { ... tags.set(key, ...) }] *)
Definition loadTags (tagsRaw : list (string * RawTagInfo)) : gmap string TagEntry :=
  fold_left (fun tags entry => <[entry.1 := tagEntry entry.2]> tags) tagsRaw ∅.

End TagTable.

(** A text that holds the pattern nowhere *)
Definition occursNowhere (pattern s : string) : Prop :=
  forall before after, s <> before +:+ pattern +:+ after.

(** Three tags and the files beside their images *)
Module TagDemo.

Definition tagsRaw : list (string * RawTagInfo) :=
  [("angular", {| rawtag_displayName := "Angular";
                  rawtag_image := Some "/stickers/angular.svg" |});
   ("react", {| rawtag_displayName := "React";
                rawtag_image := Some "/stickers/react.svg" |});
   ("valid-tag", {| rawtag_displayName := "Valid"; rawtag_image := None |});
   ("photo", {| rawtag_displayName := "Photo";
                rawtag_image := Some "/stickers/photo.png" |})].

Definition readFile (path : string) : option string :=
  Demo.lookupPath
    [("public/stickers/angular-LICENSE.md", Some "MIT");
     ("public/stickers/angular-ATTRIBUTION.md", Some "by the team");
     ("public/stickers/react-LICENSE.md", Some "");
     ("public/stickers/react-ATTRIBUTION.md", Some "by the authors");
     ("public/stickers/photo-LICENSE.md", Some "CC0")]
    None path.

Definition processExplainer (text : string) : string :=
  "<p>" +:+ text +:+ "</p>".

Definition tags : gmap string TagEntry := loadTags readFile processExplainer tagsRaw.

End TagDemo.

(** ** Facts about the string primitives *)

Section StringFacts.

Lemma str_chars s : JS.str (JS.chars s) = s.
Proof. apply string_of_list_ascii_of_string. Qed.

Lemma chars_str l : JS.chars (JS.str l) = l.
Proof. apply list_ascii_of_string_of_list_ascii. Qed.

Lemma tokensL_nonempty c s :
  JS.isWhiteSpace c = false -> Words.tokensL (c :: s) <> [].
Proof.
  intros Hc. simpl. rewrite Hc.
  destruct s as [|c' s']; [discriminate|].
  destruct (JS.isWhiteSpace c'); [discriminate|].
  destruct (Words.tokensL (c' :: s')); discriminate.
Qed.

Lemma cons_head_app c ps qs :
  ps <> [] -> JS.cons_head c (ps ++ qs) = JS.cons_head c ps ++ qs.
Proof. destruct ps; [congruence | reflexivity]. Qed.

(** The splitter against the tokens: inside a run, and at the start of a
    token. *)
Lemma splitWsL_tokens s :
  JS.splitWsL true s = Words.tokensL s ++ Words.lastPiece s
  /\ (Words.startsWsL s = false -> s <> [] ->
      JS.splitWsL false s = Words.tokensL s ++ Words.lastPiece s).
Proof.
  induction s as [|c s [IHrun IHtok]].
  - split; [reflexivity | congruence].
  - assert (Hlast : s <> [] -> Words.lastPiece (c :: s) = Words.lastPiece s).
    { destruct s; [congruence | reflexivity]. }
    destruct (JS.isWhiteSpace c) eqn:Hc.
    + split.
      * simpl JS.splitWsL. rewrite Hc, IHrun. simpl Words.tokensL. rewrite Hc.
        destruct s as [|c' s']; [simpl; by rewrite Hc | by rewrite Hlast].
      * simpl. congruence.
    + assert (Hgoal : JS.splitWsL false (c :: s)
                      = Words.tokensL (c :: s) ++ Words.lastPiece (c :: s)).
      { simpl JS.splitWsL. rewrite Hc.
        destruct s as [|c' s'].
        - simpl. by rewrite Hc.
        - rewrite Hlast by discriminate.
          destruct (JS.isWhiteSpace c') eqn:Hc'.
          + change (Words.tokensL (c :: c' :: s'))
              with (if JS.isWhiteSpace c then Words.tokensL (c' :: s')
                    else if JS.isWhiteSpace c' then [c] :: Words.tokensL (c' :: s')
                         else JS.cons_head c (Words.tokensL (c' :: s'))).
            rewrite Hc, Hc'.
            simpl JS.splitWsL. rewrite Hc'. simpl JS.cons_head.
            simpl JS.splitWsL in IHrun. rewrite Hc' in IHrun.
            by rewrite IHrun.
          + change (Words.tokensL (c :: c' :: s'))
              with (if JS.isWhiteSpace c then Words.tokensL (c' :: s')
                    else if JS.isWhiteSpace c' then [c] :: Words.tokensL (c' :: s')
                         else JS.cons_head c (Words.tokensL (c' :: s'))).
            rewrite Hc, Hc'.
            rewrite IHtok by (simpl; congruence).
            apply cons_head_app. by apply tokensL_nonempty. }
      split; [|by intros].
      simpl JS.splitWsL at 1. rewrite Hc. simpl JS.splitWsL in Hgoal.
      rewrite Hc in Hgoal. exact Hgoal.
Qed.

(** The pieces of [split(/\s+/)]: an empty piece where the text starts with
    whitespace, the tokens, an empty piece where it ends with whitespace. *)
Lemma splitWsL_shape s :
  s <> [] ->
  JS.splitWsL false s
  = (if Words.startsWsL s then [[]] else [])
      ++ Words.tokensL s ++ (if Words.endsWsL s then [[]] else []).
Proof.
  intros Hs. destruct (Words.startsWsL s) eqn:Hst.
  - destruct s as [|c s]; [congruence|]. simpl in Hst.
    simpl JS.splitWsL. rewrite Hst.
    destruct (splitWsL_tokens s) as [-> _]. simpl Words.tokensL. rewrite Hst.
    simpl. do 2 f_equal.
    destruct s as [|c' s']; [simpl; by rewrite Hst | reflexivity].
  - destruct (splitWsL_tokens s) as [_ ->]; [|done..].
    destruct s; [congruence | reflexivity].
Qed.

End StringFacts.

(** ** Facts about the array sort *)

Section SortFacts.

Context {A : Type} (comparefn : A -> A -> Z).

Lemma insertSorted_Permutation x l :
  Permutation (insertSorted comparefn x l) (x :: l).
Proof.
  induction l as [|y l IH]; simpl; [done|].
  destruct (comparefn x y <? 0)%Z; [done|].
  rewrite IH. apply perm_swap.
Qed.

Lemma fold_insertSorted_Permutation l acc :
  Permutation (fold_left (fun acc x => insertSorted comparefn x acc) l acc)
              (acc ++ l).
Proof.
  revert acc. induction l as [|x l IH]; intros acc; simpl.
  - by rewrite app_nil_r.
  - rewrite IH, insertSorted_Permutation.
    by rewrite <- Permutation_middle.
Qed.

Lemma Array_sort_Permutation l : Permutation (Array_sort comparefn l) l.
Proof. apply (fold_insertSorted_Permutation l []). Qed.

Variable key : A -> Z.

Lemma insertSorted_descending x l :
  (forall y, y ∈ l -> (comparefn x y < 0 <-> key y < key x)%Z) ->
  StronglySorted (keyDescending key) l ->
  StronglySorted (keyDescending key) (insertSorted comparefn x l).
Proof.
  intros Hcmp Hs.
  induction l as [|y l IH]; simpl.
  - repeat constructor.
  - apply StronglySorted_inv in Hs as [Hs Hy].
    pose proof (Hcmp y ltac:(left)) as Hxy.
    destruct (Z.ltb_spec (comparefn x y) 0) as [Hlt|Hge].
    + constructor; [by constructor|].
      constructor; [unfold keyDescending; lia|].
      eapply Forall_impl; [exact Hy|].
      unfold keyDescending. intros z Hz. lia.
    + constructor.
      * apply IH; [|done]. intros z Hz. apply Hcmp. by right.
      * rewrite insertSorted_Permutation.
        constructor; [unfold keyDescending; lia | done].
Qed.

Lemma fold_insertSorted_descending l acc :
  agreesOn comparefn key (acc ++ l) ->
  StronglySorted (keyDescending key) acc ->
  StronglySorted (keyDescending key)
    (fold_left (fun acc x => insertSorted comparefn x acc) l acc).
Proof.
  revert acc. induction l as [|x l IH]; intros acc Hag Hs; simpl; [done|].
  assert (Hin : forall a, a ∈ insertSorted comparefn x acc ++ l -> a ∈ acc ++ x :: l).
  { intros a. rewrite insertSorted_Permutation, !elem_of_app, !elem_of_cons.
    tauto. }
  apply IH.
  - intros a b Ha Hb. apply Hag; by apply Hin.
  - apply insertSorted_descending; [|done].
    intros y Hy. apply Hag; rewrite elem_of_app, elem_of_cons; auto.
Qed.

Lemma Array_sort_descending l :
  agreesOn comparefn key l -> StronglySorted (keyDescending key) (Array_sort comparefn l).
Proof.
  intros Hag. apply fold_insertSorted_descending; [done | constructor].
Qed.

End SortFacts.

Lemma StronglySorted_refine {A} (R R' : A -> A -> Prop) (P : A -> Prop) l :
  (forall a b, P a -> P b -> R a b -> R' a b) ->
  Forall P l -> StronglySorted R l -> StronglySorted R' l.
Proof.
  intros Himp HP Hs. induction Hs as [|a l Hs IH Ha]; [constructor|].
  apply Forall_cons in HP as [Pa HP].
  constructor; [by apply IH|].
  rewrite Forall_forall in *. intros b Hb. apply Himp; auto.
Qed.

Lemma StronglySorted_map {A B} (f : A -> B) (R : B -> B -> Prop) l :
  StronglySorted (fun a b => R (f a) (f b)) l <-> StronglySorted R (map f l).
Proof.
  induction l as [|a l IH]; simpl.
  - split; constructor.
  - split; intros Hs; apply StronglySorted_inv in Hs as [Hs Ha];
      (constructor; [by apply IH|]).
    + apply Forall_forall. intros b Hb.
      apply list_elem_of_In, in_map_iff in Hb as (b' & <- & Hb').
      rewrite Forall_forall in Ha. by apply Ha, list_elem_of_In.
    + apply Forall_forall. intros b Hb.
      rewrite Forall_forall in Ha.
      apply Ha, list_elem_of_In, in_map_iff.
      exists b. by rewrite <- list_elem_of_In.
Qed.

(** ** Facts about file names and locales *)

Lemma startsWithL_app p s :
  JS.startsWithL p s = true -> exists rest, s = p ++ rest.
Proof.
  revert s. induction p as [|a p IH]; intros s H; simpl in H.
  - by exists s.
  - destruct s as [|b s]; [discriminate|].
    apply andb_prop in H as [Hab H].
    apply Ascii.eqb_eq in Hab as ->.
    destruct (IH _ H) as [rest ->]. by exists rest.
Qed.

Lemma splitCharL_length sep s :
  length (JS.splitCharL sep s) = S (count_occ ascii_dec s sep).
Proof.
  induction s as [|c s IH]; simpl; [done|].
  destruct (Ascii.eqb_spec c sep) as [->|Hne].
  - destruct (ascii_dec sep sep); [|congruence]. simpl. by rewrite IH.
  - destruct (ascii_dec c sep); [congruence|].
    destruct (JS.splitCharL sep s); simpl in *; lia.
Qed.

(** A piece that holds no separator comes out of the split whole. *)
Lemma splitCharL_piece sep piece rest :
  Forall (fun c => c <> sep) piece ->
  JS.splitCharL sep (piece ++ sep :: rest) = piece :: JS.splitCharL sep rest.
Proof.
  induction 1 as [|c piece Hc _ IH]; simpl.
  - by rewrite Ascii.eqb_refl.
  - destruct (Ascii.eqb_spec c sep); [congruence|]. by rewrite IH.
Qed.

Lemma splitCharL_last sep piece :
  Forall (fun c => c <> sep) piece -> JS.splitCharL sep piece = [piece].
Proof.
  induction 1 as [|c piece Hc _ IH]; simpl; [done|].
  destruct (Ascii.eqb_spec c sep); [congruence|]. by rewrite IH.
Qed.

Lemma chars_append s1 s2 : JS.chars (s1 +:+ s2) = JS.chars s1 ++ JS.chars s2.
Proof. induction s1 as [|c s1 IH]; simpl; [done | by f_equal]. Qed.

(** The name of an index file has a last-but-one piece. *)
Lemma isIndexFile_at name :
  isIndexFile name = true ->
  is_Some (JS.at_ (JS.splitChar name "."%char) (-2)).
Proof.
  intros H. apply andb_prop in H as [Hstart _].
  apply startsWithL_app in Hstart as [rest Hname].
  assert (Hcount : (1 <= count_occ ascii_dec (JS.chars name) "."%char)%nat).
  { rewrite Hname.
    change (JS.chars "index.") with (JS.chars "index" ++ ["."%char]).
    rewrite <- app_assoc, count_occ_app. simpl app.
    rewrite count_occ_cons_eq by done. lia. }
  unfold JS.at_, JS.splitChar. rewrite length_map, splitCharL_length.
  replace (-2 <? 0)%Z with true by done.
  destruct (Z.ltb_spec (Z.of_nat (S (count_occ ascii_dec (JS.chars name) "."%char)) + -2) 0);
    [lia|].
  apply lookup_lt_is_Some. rewrite length_map, splitCharL_length. lia.
Qed.

(** The locale the loader reads off one file name: the two callbacks of
    [localesOf] composed. *)
Lemma localesOf_lookup files i :
  localesOf files !! i
  = (fun name =>
       match JS.at_ (JS.splitChar name "."%char) (-2) with
       | Some l => if String.eqb l "index" then Some "en" else Some l
       | None => None
       end) <$> files !! i.
Proof.
  unfold localesOf. rewrite map_map.
  revert i. induction files as [|f files IH]; intros [|i]; simpl; auto.
Qed.

Lemma localesOf_length files : length (localesOf files) = length files.
Proof. unfold localesOf. by rewrite !length_map. Qed.

Lemma localesOf_index files i file :
  files !! i = Some file -> isIndexFile file = true ->
  exists l, localesOf files !! i = Some (Some l).
Proof.
  intros Hi Hidx. rewrite localesOf_lookup, Hi. simpl.
  destruct (isIndexFile_at _ Hidx) as [l ->].
  destruct (String.eqb l "index"); eauto.
Qed.


Lemma indexFiles_isIndexFile E dir file :
  file ∈ indexFiles E dir -> isIndexFile file = true.
Proof.
  unfold indexFiles. rewrite list_elem_of_In, filter_In. tauto.
Qed.

(** ** Facts about the banner pass *)

Lemma bannerLoop_clearBanner m ps :
  map clearBanner (bannerLoop m ps) = map clearBanner ps.
Proof.
  revert m. induction ps as [|p ps IH]; intros m; [done|].
  cbn [bannerLoop]. destruct (nextCount m _) as [count|]; cbn [map].
  - f_equal; [|apply IH]. by destruct (_ || _).
  - f_equal. apply IH.
Qed.

Lemma bannerLoop_length m ps : length (bannerLoop m ps) = length ps.
Proof.
  rewrite <- (length_map clearBanner), bannerLoop_clearBanner.
  apply length_map.
Qed.

Lemma nextCount_Some (m : gmap string Z) k c :
  nextCount m k = Some c -> isInherited k = false.
Proof. unfold nextCount. by destruct (isInherited k). Qed.

Lemma nextCount_own (m : gmap string Z) k :
  isInherited k = false ->
  nextCount m k
  = Some (match m !! k with
          | Some c => if (c + 1 =? 0)%Z then 0%Z else (c + 1)%Z
          | None => 0%Z
          end).
Proof. intros H. unfold nextCount. rewrite H. by destruct (m !! k). Qed.

Lemma nextCount_nonneg (m : gmap string Z) k c :
  (forall k' c', m !! k' = Some c' -> (0 <= c')%Z) ->
  nextCount m k = Some c -> (0 <= c)%Z.
Proof.
  intros Hm. unfold nextCount. destruct (isInherited k); [done|].
  destruct (m !! k) as [c'|] eqn:Hk; intros [= <-]; [|done].
  apply Hm in Hk. destruct (Z.eqb_spec (c' + 1) 0); lia.
Qed.

(** The counter a post meets: the counter the loop started with, advanced
    once for every earlier post of the same key; under an inherited name
    there is no counter and the post is left alone. *)
Lemma bannerLoop_lookup (m : gmap string Z) ps i p :
  (forall k c, m !! k = Some c -> (0 <= c)%Z) ->
  ps !! i = Some p ->
  bannerLoop m ps !! i
  = Some (match nextCount m (propertyKey (post_locale p)) with
          | Some c =>
              marked (c + Z.of_nat (countedBefore ps i
                                      (propertyKey (post_locale p))))%Z p
          | None => p
          end).
Proof.
  revert m i. induction ps as [|p0 ps IH]; intros m i Hm Hi; [done|].
  cbn [bannerLoop].
  set (k0 := propertyKey (post_locale p0)) in *.
  destruct i as [|i]; simpl in Hi.
  - injection Hi as ->. fold k0.
    destruct (nextCount m k0) as [c0|]; [|done].
    unfold countedBefore. simpl. by rewrite Z.add_0_r.
  - set (k := propertyKey (post_locale p)).
    assert (Hcount : countedBefore (p0 :: ps) (S i) k
                     = ((if String.eqb k0 k then 1 else 0)
                        + countedBefore ps i k)%nat).
    { unfold countedBefore. simpl take. simpl List.filter. fold k0.
      by destruct (String.eqb k0 k). }
    destruct (nextCount m k0) as [c0|] eqn:Hc0.
    + rewrite lookup_cons_ne_0 by done. simpl pred.
      pose proof (nextCount_nonneg m k0 c0 Hm Hc0) as Hnn.
      rewrite (IH _ i); [|intros k' c'|done].
      * fold k. rewrite Hcount. f_equal.
        destruct (String.eqb_spec k0 k) as [Heq|Hne].
        -- rewrite <- Heq, Hc0.
           rewrite (nextCount_own _ k0) by (by eapply nextCount_Some).
           rewrite lookup_insert_eq.
           destruct (Z.eqb_spec (c0 + 1) 0); [lia|]. f_equal. lia.
        -- unfold nextCount. by rewrite lookup_insert_ne.
      * rewrite lookup_insert. case_decide; [|by apply Hm].
        by intros [= <-].
    + rewrite lookup_cons_ne_0 by done. simpl pred.
      rewrite (IH _ i) by done. fold k. rewrite Hcount. f_equal.
      destruct (String.eqb_spec k0 k) as [Heq|Hne]; [|done].
      by rewrite <- Heq, Hc0.
Qed.

Lemma bannerLoop_empty_lookup ps i p :
  ps !! i = Some p ->
  bannerLoop ∅ ps !! i
  = Some (if isInherited (propertyKey (post_locale p)) then p
          else marked (Z.of_nat (countedBefore ps i (propertyKey (post_locale p))))
                      p).
Proof.
  intros Hi. rewrite (bannerLoop_lookup ∅ ps i p); [| |done].
  - unfold nextCount. destruct (isInherited _); [done|].
    by rewrite lookup_empty.
  - intros k c. by rewrite lookup_empty.
Qed.

Lemma marked_spec (n : nat) p :
  post_bannerImg p = None ->
  ((n mod 8 = 0 \/ n mod 8 = 4)%nat ->
   post_bannerImg (marked (Z.of_nat n) p) = Some (bannerPath (marked (Z.of_nat n) p)))
  /\ ((n mod 8 <> 0)%nat -> (n mod 8 <> 4)%nat ->
      post_bannerImg (marked (Z.of_nat n) p) = None)
  /\ clearBanner (marked (Z.of_nat n) p) = clearBanner p.
Proof.
  intros Hnone. unfold marked.
  rewrite Z.rem_mod_nonneg by lia.
  change 8%Z with (Z.of_nat 8). rewrite <- Nat2Z.inj_mod.
  generalize (n mod 8)%nat. intros r.
  destruct (Z.eqb_spec (Z.of_nat r) 0) as [H0|H0];
    destruct (Z.eqb_spec (Z.of_nat r) 4) as [H4|H4]; simpl;
    (split; [|split]); try done; intros; try lia.
Qed.

(** ** Facts about the aggregators *)

Section AggregatorFacts.

Variable E : Env.

Lemma filterTags_spec slug ts :
  filterTags E slug ts
  = (List.filter (tagsHas E) ts,
     map (tagWarning slug) (List.filter (fun t => negb (tagsHas E t)) ts)).
Proof.
  induction ts as [|t ts IH]; simpl; [done|].
  rewrite IH. by destruct (tagsHas E t).
Qed.

(** Where a record of [builtPosts] comes from: a slug of the posts
    directory and an index file of its directory. *)
Lemma builtPosts_elem unicorns heap collections x :
  x ∈ builtPosts E unicorns heap collections <->
  exists slug i file,
    slug ∈ List.filter (env_isNotJunk E) (env_readdirSync E (postsDirectory E))
    /\ indexFiles E (env_join E [postsDirectory E; slug]) !! i = Some file
    /\ x = postOfFile E unicorns heap collections slug
             (localesOf (indexFiles E (env_join E [postsDirectory E; slug])))
             i file.
Proof.
  unfold builtPosts. rewrite list_elem_of_In, in_flat_map. split.
  - intros (slug & Hslug & Hx). exists slug.
    apply list_elem_of_In, list_elem_of_lookup in Hx as [i Hx].
    unfold postsOfSlug in Hx. rewrite list_lookup_imap in Hx.
    destruct (indexFiles E _ !! i) as [file|] eqn:Hfile; [|done].
    injection Hx as <-. exists i, file. by rewrite list_elem_of_In.
  - intros (slug & i & file & Hslug & Hfile & ->). exists slug.
    split; [by apply list_elem_of_In|].
    apply list_elem_of_In, list_elem_of_lookup. exists i.
    unfold postsOfSlug. by rewrite list_lookup_imap, Hfile.
Qed.

Lemma postOfFile_locale unicorns heap collections slug files i file :
  files !! i = Some file -> isIndexFile file = true ->
  exists l,
    localesOf files !! i = Some (Some l)
    /\ post_locale (postOfFile E unicorns heap collections slug
                               (localesOf files) i file).1 = Some l.
Proof.
  intros Hi Hidx. destruct (localesOf_index files i file Hi Hidx) as [l Hl].
  exists l. split; [done|].
  unfold postOfFile. rewrite filterTags_spec. simpl.
  unfold localeAt. by rewrite Hl.
Qed.

Lemma postOfFile_bannerImg unicorns heap collections slug locales i file :
  post_bannerImg (postOfFile E unicorns heap collections slug locales i file).1
  = None.
Proof. unfold postOfFile. by rewrite filterTags_spec. Qed.

(** Every record of [builtPosts] has a locale and no banner. *)
Lemma builtPosts_fresh unicorns heap collections :
  Forall (fun p => is_Some (post_locale p) /\ post_bannerImg p = None)
         (map fst (builtPosts E unicorns heap collections)).
Proof.
  apply Forall_forall. intros p Hp.
  apply list_elem_of_In, in_map_iff in Hp as (x & <- & Hx).
  apply list_elem_of_In, builtPosts_elem in Hx
    as (slug & i & file & _ & Hfile & ->).
  split; [|apply postOfFile_bannerImg].
  destruct (postOfFile_locale unicorns heap collections slug _ i file Hfile)
    as (l & _ & ->); [|done].
  eapply indexFiles_isIndexFile, list_elem_of_lookup_2, Hfile.
Qed.

(** The list the banner loop goes over *)
Lemma getPosts_unfold unicorns heap collections :
  (getPosts E unicorns heap collections).1
  = bannerLoop ∅ (Array_sort (comparePosts E)
                    (map fst (builtPosts E unicorns heap collections))).
Proof. reflexivity. Qed.

Lemma sortedPosts_fresh unicorns heap collections :
  Forall (fun p => is_Some (post_locale p) /\ post_bannerImg p = None)
         (Array_sort (comparePosts E)
            (map fst (builtPosts E unicorns heap collections))).
Proof.
  rewrite Array_sort_Permutation. apply builtPosts_fresh.
Qed.

(** The banner pass changes nothing but [bannerImg]: without the banners,
    the posts of [getPosts] are the sorted records. *)
Lemma getPosts_clearBanner unicorns heap collections :
  map clearBanner (getPosts E unicorns heap collections).1
  = Array_sort (comparePosts E)
      (map fst (builtPosts E unicorns heap collections)).
Proof.
  rewrite getPosts_unfold, bannerLoop_clearBanner.
  pose proof (sortedPosts_fresh unicorns heap collections) as Hf.
  induction Hf as [|p ps [_ Hp] _ IH]; simpl; [done|].
  rewrite IH. f_equal. destruct p. simpl in *. by subst.
Qed.

End AggregatorFacts.

Lemma countedBefore_clearBanner ps i k :
  countedBefore (map clearBanner ps) i k = countedBefore ps i k.
Proof.
  unfold countedBefore. revert i.
  induction ps as [|p ps IH]; intros [|i]; simpl; try done.
  destruct (String.eqb _ k); simpl; by rewrite IH.
Qed.

Lemma localeRank_counted ps i p :
  Forall (fun q => is_Some (post_locale q)) ps ->
  ps !! i = Some p ->
  localeRank ps i = countedBefore ps i (propertyKey (post_locale p)).
Proof.
  intros Hall Hi. unfold localeRank, countedBefore. rewrite Hi.
  f_equal. apply filter_ext_in. intros q Hq.
  assert (Hq' : is_Some (post_locale q)).
  { rewrite Forall_forall in Hall. apply Hall.
    apply list_elem_of_In in Hq. eapply subseteq_take, Hq. }
  assert (Hp' : is_Some (post_locale p)).
  { rewrite Forall_forall in Hall. eapply Hall, list_elem_of_lookup_2, Hi. }
  destruct Hq' as [a ->], Hp' as [b ->]. simpl.
  destruct (String.eqb_spec a b) as [->|Hne].
  - by rewrite bool_decide_eq_true_2.
  - rewrite bool_decide_eq_false_2; [done | congruence].
Qed.

(** ** The date order *)

Section DateOrder.

Variable E : Env.
Context {A : Type} (published : A -> string) (comparefn : A -> A -> Z).

Hypothesis comparefn_def :
  forall x y,
    comparefn x y
    = if Date_gt (env_Date_new E (published x)) (env_Date_new E (published y))
      then (-1)%Z else 1%Z.

Lemma comparefn_comparesByPublished : comparesByPublished E published comparefn.
Proof.
  intros x y. rewrite comparefn_def. unfold laterThan, Date_gt.
  destruct (env_Date_new E (published x)) as [t1|],
           (env_Date_new E (published y)) as [t2|].
  - destruct (Z.ltb_spec t2 t1).
    + split; [by left|]. split; [|intros [= ->]; lia].
      split; [|done]. intros _. exists t1, t2. auto.
    + split; [by right|]. split; [|done].
      split; [done|]. intros (? & ? & [= <-] & [= <-] & ?). lia.
  - split; [by right|]. split; [|done].
    split; [done | by intros (? & ? & _ & ? & _)].
  - split; [by right|]. split; [|done].
    split; [done | by intros (? & ? & ? & _)].
  - split; [by right|]. split; [|done].
    split; [done | by intros (? & ? & ? & _)].
Qed.

Lemma Array_sort_descendingByPublished l :
  allDated E published l ->
  descendingByPublished E published (Array_sort comparefn l).
Proof.
  intros Hall.
  set (key := fun a => default 0%Z (env_Date_new E (published a))).
  apply (StronglySorted_refine (keyDescending key) _
           (fun a => is_Some (env_Date_new E (published a)))).
  - intros a b [ta Ha] [tb Hb]. unfold keyDescending, key, notEarlier.
    rewrite Ha, Hb. simpl. eauto.
  - unfold allDated in Hall. by rewrite Array_sort_Permutation.
  - apply Array_sort_descending. intros x y Hx Hy.
    unfold allDated in Hall. rewrite Forall_forall in Hall.
    destruct (Hall x Hx) as [tx Htx], (Hall y Hy) as [ty Hty].
    rewrite comparefn_def. unfold key. rewrite Htx, Hty. simpl.
    destruct (Z.ltb_spec ty tx); lia.
Qed.

End DateOrder.

(** C1. In the collection sort and in the post sort alike the comparison
    function answers [-1] exactly where the first record was published
    strictly later and [1] otherwise, never [0]; in particular it
    answers [1] on records of equal date. Where every record has a
    published date, [getCollections] and [getPosts] return their records,
    all of them, in non-increasing order of published date. *)
Theorem sort_by_published_descending (E : Env) :
  comparesByPublished E coll_published (compareCollections E)
  /\ comparesByPublished E post_published (comparePosts E)
  /\ (forall unicorns,
        allDated E coll_published (allCollections E unicorns) ->
        Permutation (getCollections E unicorns) (allCollections E unicorns)
        /\ descendingByPublished E coll_published (getCollections E unicorns))
  /\ (forall unicorns heap collections,
        allDated E post_published
                 (map fst (builtPosts E unicorns heap collections)) ->
        Permutation (map clearBanner (getPosts E unicorns heap collections).1)
                    (map fst (builtPosts E unicorns heap collections))
        /\ descendingByPublished E post_published
             (getPosts E unicorns heap collections).1).
Proof.
  split; [by apply comparefn_comparesByPublished|].
  split; [by apply comparefn_comparesByPublished|].
  split.
  - intros unicorns Hall. split; [apply Array_sort_Permutation|].
    by apply Array_sort_descendingByPublished.
  - intros unicorns heap collections Hall.
    rewrite getPosts_clearBanner. split; [apply Array_sort_Permutation|].
    unfold descendingByPublished.
    apply (StronglySorted_map clearBanner
             (fun a b => notEarlier E (post_published a) (post_published b))).
    rewrite getPosts_clearBanner.
    by apply (Array_sort_descendingByPublished E post_published).
Qed.

Lemma sort_by_published_descending_witness :
  descendingByPublished Demo.env coll_published
    (getCollections Demo.env Demo.unicorns)
  /\ descendingByPublished Demo.env post_published
       (getPosts Demo.env Demo.unicorns
          (collectionsStage Demo.env Demo.unicorns).1
          (collectionsStage Demo.env Demo.unicorns).2).1.
Proof.
  destruct (sort_by_published_descending Demo.env) as (_ & _ & Hc & Hp).
  split.
  - apply Hc. unfold allDated. apply (bool_decide_unpack _). vm_compute. exact I.
  - apply Hp. unfold allDated. apply (bool_decide_unpack _). vm_compute. exact I.
Defined.

(** ** The banner pass over the sorted posts *)

Lemma marked_locale n p : post_locale (marked n p) = post_locale p.
Proof. unfold marked. by destruct (_ || _). Qed.

Lemma countedBefore_same ps i k :
  Forall (fun q => propertyKey (post_locale q) = k) ps ->
  i <= length ps -> countedBefore ps i k = i.
Proof.
  unfold countedBefore. intros Hall. revert i.
  induction Hall as [|p ps Hp _ IH]; intros [|i] Hi; simpl in *; try lia.
  rewrite Hp, String.eqb_refl. simpl. rewrite IH; lia.
Qed.

(** C2. Where every post has a published date, the banner pass goes over
    the posts in their sorted order and changes nothing but [bannerImg].
    A post whose zero-based rank among the posts of its locale is 0 or 4
    modulo 8 gets the banner path of its slug; every other post keeps no
    [bannerImg]. This is so for every locale that is not the name of a
    property all objects inherit; a post with such a name for its locale
    meets no counter and gets no banner. With nine posts of one locale
    the banners fall on the positions 0, 4 and 8. *)
Theorem banner_by_locale_rank (E : Env) unicorns heap collections :
  let posts := (getPosts E unicorns heap collections).1 in
  (allDated E post_published
            (map fst (builtPosts E unicorns heap collections)) ->
   map clearBanner posts
   = Array_sort (comparePosts E)
       (map fst (builtPosts E unicorns heap collections))
   /\ forall i post,
        posts !! i = Some post ->
        let rank := localeRank posts i in
        (isInherited (propertyKey (post_locale post)) = false ->
         ((rank mod 8 = 0 \/ rank mod 8 = 4) ->
          post_bannerImg post
          = Some ("/generated/" +:+ post_slug post +:+ ".banner.jpg"))
         /\ (rank mod 8 <> 0 -> rank mod 8 <> 4 -> post_bannerImg post = None))
        /\ (isInherited (propertyKey (post_locale post)) = true ->
            post_bannerImg post = None))
  /\ (forall (ps : list PostInfo) (locale : option Languages),
        length ps = 9 ->
        isInherited (propertyKey locale) = false ->
        Forall (fun p => post_locale p = locale /\ post_bannerImg p = None) ps ->
        forall i post,
          bannerLoop ∅ ps !! i = Some post ->
          (is_Some (post_bannerImg post) <-> i = 0 \/ i = 4 \/ i = 8)).
Proof.
  intros posts. split.
  - intros _. split; [apply getPosts_clearBanner|].
    intros i post Hi rank.
    pose proof (getPosts_clearBanner E unicorns heap collections) as Hclear.
    pose proof (sortedPosts_fresh E unicorns heap collections) as Hfresh.
    fold posts in Hclear.
    set (sorted := Array_sort _ _) in *.
    assert (Hlocales : Forall (fun q => is_Some (post_locale q)) posts).
    { apply Forall_forall. intros q Hq.
      rewrite Forall_forall in Hfresh.
      destruct (Hfresh (clearBanner q)) as [Hq' _]; [|done].
      rewrite <- Hclear. apply list_elem_of_In, in_map.
      by apply list_elem_of_In. }
    assert (exists p0, sorted !! i = Some p0) as [p0 Hp0].
    { apply lookup_lt_is_Some. rewrite <- Hclear, length_map.
      by eapply lookup_lt_Some. }
    assert (Hpost : post
                    = if isInherited (propertyKey (post_locale p0)) then p0
                      else marked (Z.of_nat (countedBefore sorted i
                                               (propertyKey (post_locale p0))))
                                  p0).
    { unfold posts in Hi. rewrite getPosts_unfold in Hi.
      fold sorted in Hi. rewrite (bannerLoop_empty_lookup _ _ p0 Hp0) in Hi.
      congruence. }
    assert (Hlocale : post_locale post = post_locale p0).
    { rewrite Hpost. destruct (isInherited _); [done | apply marked_locale]. }
    assert (Hrank : rank = countedBefore sorted i (propertyKey (post_locale p0))).
    { unfold rank. rewrite (localeRank_counted posts i post Hlocales Hi).
      rewrite <- countedBefore_clearBanner, Hclear. by rewrite Hlocale. }
    rewrite Forall_forall in Hfresh.
    destruct (Hfresh p0) as [_ Hnone]; [by eapply list_elem_of_lookup_2|].
    rewrite Hlocale. split.
    + intros Hown. rewrite Hown, <- Hrank in Hpost.
      destruct (marked_spec rank p0 Hnone) as (Hyes & Hno & _).
      subst post. split; [exact Hyes | exact Hno].
    + intros Hinherited. rewrite Hinherited in Hpost. by subst post.
  - intros ps locale Hlen Hown Hall i post Hi.
    assert (Hi' : i < 9).
    { rewrite <- Hlen, <- (bannerLoop_length ∅). by eapply lookup_lt_Some. }
    destruct (lookup_lt_is_Some_2 ps i) as [p0 Hp0]; [lia|].
    assert (Hp0l : post_locale p0 = locale).
    { rewrite Forall_forall in Hall.
      by destruct (Hall p0 (list_elem_of_lookup_2 _ _ _ Hp0)). }
    rewrite (bannerLoop_empty_lookup _ _ p0 Hp0), Hp0l, Hown in Hi.
    injection Hi as <-.
    rewrite countedBefore_same; [| |lia].
    + rewrite Forall_forall in Hall.
      destruct (marked_spec i p0) as (Hyes & Hno & _);
        [by eapply Hall, list_elem_of_lookup_2|].
      assert (Hcases : i = 0 \/ i = 1 \/ i = 2 \/ i = 3 \/ i = 4
                       \/ i = 5 \/ i = 6 \/ i = 7 \/ i = 8) by lia.
      clear Hi' Hp0.
      destruct Hcases as [->|[->|[->|[->|[->|[->|[->|[->| ->]]]]]]]];
        first [ rewrite Hyes by (vm_compute; auto);
                split; [intros _; lia | by eexists]
              | rewrite Hno by (vm_compute; lia);
                split; [by intros [? ?] | lia] ].
    + eapply Forall_impl; [exact Hall|].
      intros q [Hq _]. simpl. by rewrite Hq.
Qed.

Lemma banner_by_locale_rank_witness :
  (exists p4 p5,
      (postsStage Demo.env Demo.unicorns).1 !! 4 = Some p4
      /\ (postsStage Demo.env Demo.unicorns).1 !! 5 = Some p5
      /\ post_bannerImg p4 = Some "/generated/i.banner.jpg"
      /\ post_bannerImg p5 = None)
  /\ (exists p8,
        bannerLoop ∅
          (List.filter (fun p => bool_decide (post_locale p = Some "en"))
             (map fst (builtPosts Demo.env Demo.unicorns [] []))) !! 8
        = Some p8
        /\ is_Some (post_bannerImg p8)).
Proof.
  destruct (banner_by_locale_rank Demo.env Demo.unicorns
              (collectionsStage Demo.env Demo.unicorns).1
              (collectionsStage Demo.env Demo.unicorns).2)
    as (Hsorted & Hnine).
  destruct Hsorted as (_ & Hrank).
  { unfold allDated. apply (bool_decide_unpack _). vm_compute. exact I. }
  split.
  - eexists _, _.
    split; [vm_compute; reflexivity|]. split; [vm_compute; reflexivity|].
    split.
    + eapply (proj1 (proj1 (Hrank 4 _ ltac:(vm_compute; reflexivity))
                       ltac:(vm_compute; reflexivity))).
      vm_compute. by right.
    + eapply (proj2 (proj1 (Hrank 5 _ ltac:(vm_compute; reflexivity))
                       ltac:(vm_compute; reflexivity)));
        vm_compute; lia.
  - set (ps := List.filter _ _).
    assert (Hlen : length ps = 9) by (vm_compute; reflexivity).
    assert (Hall : Forall (fun p => post_locale p = Some "en"
                                    /\ post_bannerImg p = None) ps)
      by (apply (bool_decide_unpack _); vm_compute; exact I).
    eexists. split; [vm_compute; reflexivity|].
    eapply (Hnine ps (Some "en") Hlen eq_refl Hall 8);
      [vm_compute; reflexivity | by right; right].
Defined.

(** ** Author enrichment *)

Lemma matchUrlPrefix_bare s k :
  Forall (fun c => JS.isSeparator c = false) s -> JS.matchUrlPrefix s k = None.
Proof.
  intros Hs.
  assert (Hat : forall j, JS.separatorAt s j = false).
  { intros j. unfold JS.separatorAt.
    destruct (s !! j) as [c|] eqn:Hc; [|done].
    rewrite Forall_forall in Hs.
    rewrite (Hs c) by (by eapply list_elem_of_lookup_2).
    by destruct (s !! S j). }
  induction k as [|k IH]; simpl; by rewrite Hat.
Qed.

Lemma noSeparator_Forall s :
  noSeparator s = true -> Forall (fun c => JS.isSeparator c = false) (JS.chars s).
Proof.
  unfold noSeparator. rewrite forallb_forall. intros H.
  apply Forall_forall. intros c Hc.
  apply list_elem_of_In, H in Hc. by destruct (JS.isSeparator c).
Qed.

Lemma noLineTerminator_Forall s :
  noLineTerminator s = true ->
  Forall (fun c => JS.isLineTerminator c = false) (JS.chars s).
Proof.
  unfold noLineTerminator. rewrite forallb_forall. intros H.
  apply Forall_forall. intros c Hc.
  apply list_elem_of_In, H in Hc. by destruct (JS.isLineTerminator c).
Qed.

Lemma normalizeUsername_bare h :
  isBareHandle h = true -> normalizeUsername (Some h) = Some h.
Proof.
  intros H. apply andb_prop in H as [Htrim Hsep].
  apply String.eqb_eq in Htrim. simpl. rewrite Htrim.
  unfold JS.stripUrlPrefix, JS.stripUrlPrefixL.
  rewrite matchUrlPrefix_bare; [by rewrite str_chars|].
  by apply noSeparator_Forall.
Qed.

(** The backtracking stops at the last offset, not beyond [k], where the
    separator pattern matches. *)
Lemma matchUrlPrefix_found s k j :
  j <= k ->
  JS.separatorAt s j = true ->
  (forall i, j < i <= k -> JS.separatorAt s i = false) ->
  JS.matchUrlPrefix s k = Some (S j).
Proof.
  intros Hjk Hj Hafter. induction k as [|k IH].
  - replace j with 0 in Hj by lia. simpl. rewrite Hj. f_equal. lia.
  - simpl. destruct (decide (j = S k)) as [->|Hne].
    + by rewrite Hj.
    + rewrite Hafter by lia. apply IH; [lia|]. intros i Hi. apply Hafter. lia.
Qed.

Lemma dotStarMax_app p rest :
  Forall (fun c => JS.isLineTerminator c = false) p ->
  JS.dotStarMax (p ++ rest) = length p + JS.dotStarMax rest.
Proof. induction 1 as [|c p Hc _ IH]; simpl; [done | by rewrite Hc, IH]. Qed.

Lemma isSeparator_not_LineTerminator c :
  JS.isSeparator c = true -> JS.isLineTerminator c = false.
Proof.
  unfold JS.isSeparator. intros H. apply orb_prop in H as [H|H];
    apply Ascii.eqb_eq in H as ->; reflexivity.
Qed.

(** A text made of a prefix on one line, a separator, a handle without
    separators and at most one more character loses the prefix and the
    separator, and nothing else. *)
Lemma stripUrlPrefixL_url p sep h t :
  Forall (fun c => JS.isLineTerminator c = false) p ->
  JS.isSeparator sep = true ->
  h <> [] ->
  Forall (fun c => JS.isSeparator c = false) h ->
  length t <= 1 ->
  JS.stripUrlPrefixL (p ++ sep :: h ++ t) = h ++ t.
Proof.
  intros Hp Hsep Hh Hbare Ht. unfold JS.stripUrlPrefixL.
  rewrite (matchUrlPrefix_found _ _ (length p)).
  - replace (p ++ sep :: h ++ t) with ((p ++ [sep]) ++ h ++ t)
      by (by rewrite <- app_assoc).
    rewrite drop_app_length'; [done|]. rewrite length_app. simpl. lia.
  - rewrite dotStarMax_app by done. lia.
  - unfold JS.separatorAt. rewrite list_lookup_middle by done.
    rewrite lookup_app_r by lia.
    replace (S (length p) - length p) with 1 by lia. simpl.
    destruct h; [done|]. simpl. done.
  - intros i Hi. unfold JS.separatorAt.
    rewrite !lookup_app_r by lia.
    replace (i - length p) with (S (i - S (length p))) by lia.
    replace (S i - length p) with (S (S (i - S (length p)))) by lia.
    simpl. set (m := i - S (length p)).
    destruct (decide (m < length h)) as [Hm|Hm].
    + rewrite lookup_app_l by done.
      destruct (h !! m) as [c|] eqn:Hc; [|done].
      rewrite Forall_forall in Hbare.
      rewrite (Hbare c) by (by eapply list_elem_of_lookup_2).
      by destruct (_ !! S m).
    + destruct ((h ++ t) !! m) as [c|] eqn:Hc; [|done].
      rewrite (lookup_ge_None_2 (h ++ t) (S m)); [done|].
      rewrite length_app. lia.
Qed.

Lemma chars_nonempty text : text <> "" -> JS.chars text <> [].
Proof.
  intros Hne Hnil. apply Hne. by rewrite <- (str_chars text), Hnil.
Qed.

Lemma chars_length s : length (JS.chars s) = String.length s.
Proof. induction s as [|c s IH]; simpl; [done | by rewrite IH]. Qed.

Lemma normalizeUsername_url prefix sep handle tail :
  let text := prefix +:+ String sep (handle +:+ tail) in
  JS.trim text = text ->
  noLineTerminator prefix = true ->
  JS.isSeparator sep = true ->
  handle <> "" ->
  noSeparator handle = true ->
  String.length tail <= 1 ->
  normalizeUsername (Some text) = Some (handle +:+ tail).
Proof.
  intros text Htrim Hprefix Hsep Hne Hbare Htail. simpl. rewrite Htrim.
  unfold JS.stripUrlPrefix, text. rewrite chars_append.
  change (JS.chars (String sep (handle +:+ tail)))
    with (sep :: JS.chars (handle +:+ tail)).
  rewrite chars_append, stripUrlPrefixL_url.
  - by rewrite <- chars_append, str_chars.
  - by apply noLineTerminator_Forall.
  - done.
  - by apply chars_nonempty.
  - by apply noSeparator_Forall.
  - by rewrite chars_length.
Qed.

(** What [enrichUnicorn] returns when the [mastodon] step completes *)
Lemma enrichUnicorn_Normal E unicorn enriched :
  enrichUnicorn E unicorn = Normal enriched ->
  exists mastodon',
    checkMastodon E (rawu_id unicorn) (mastodon (rawu_socials unicorn))
    = Normal mastodon'
    /\ unicorn_socials enriched
       = {| twitter := normalizeUsername (twitter (rawu_socials unicorn));
            github := normalizeUsername (github (rawu_socials unicorn));
            gitlab := normalizeUsername (gitlab (rawu_socials unicorn));
            linkedIn := normalizeUsername (linkedIn (rawu_socials unicorn));
            twitch := normalizeUsername (twitch (rawu_socials unicorn));
            dribbble := normalizeUsername (dribbble (rawu_socials unicorn));
            threads := normalizeUsername (threads (rawu_socials unicorn));
            cohost := normalizeUsername (cohost (rawu_socials unicorn));
            mastodon := mastodon';
            youtube := canonicalYoutube (youtube (rawu_socials unicorn)) |}.
Proof.
  unfold enrichUnicorn.
  destruct (checkMastodon E _ _) as [mastodon'|msg]; simpl; [|done].
  intros [= <-]. by exists mastodon'.
Qed.




Lemma loadModule_Normal E exports :
  loadModule E = Normal exports ->
  exists unicorns,
    fullUnicorns E = Normal unicorns
    /\ exports = {| exp_unicorns := unicorns;
                    exp_heap := (linkStage E unicorns).1;
                    exp_collections := (linkStage E unicorns).2;
                    exp_posts := (postsStage E unicorns).1;
                    exp_console := (postsStage E unicorns).2 |}.
Proof.
  unfold loadModule. destruct (fullUnicorns E) as [unicorns|msg]; simpl; [|done].
  intros [= <-]. by exists unicorns.
Qed.

(** C3, as the code has it. A handle that is already bare is returned as
    it is; ["https://github.com/torvalds"] and ["@torvalds"] give
    ["torvalds"]; ["github.com/torvalds/"] gives ["torvalds/"], because the
    pattern never takes a separator that ends the text. In general a text
    that needs no trimming and is made of a prefix on one line, a [/] or
    an [@], a handle and at most one more character loses the prefix and
    that separator and keeps the rest. An absent value stays absent and
    the empty string stays empty. The eight handle fields of an enriched
    author are the normalized fields of the raw author. *)
Theorem normalizeUsername_handles (E : Env) :
  (forall h, isBareHandle h = true -> normalizeUsername (Some h) = Some h)
  /\ normalizeUsername (Some "torvalds") = Some "torvalds"
  /\ normalizeUsername (Some "https://github.com/torvalds") = Some "torvalds"
  /\ normalizeUsername (Some "@torvalds") = Some "torvalds"
  /\ normalizeUsername (Some "github.com/torvalds/") = Some "torvalds/"
  /\ (forall prefix sep handle tail,
        let text := prefix +:+ String sep (handle +:+ tail) in
        JS.trim text = text ->
        noLineTerminator prefix = true ->
        JS.isSeparator sep = true ->
        handle <> "" ->
        noSeparator handle = true ->
        String.length tail <= 1 ->
        normalizeUsername (Some text) = Some (handle +:+ tail))
  /\ normalizeUsername None = None
  /\ normalizeUsername (Some "") = Some ""
  /\ (forall unicorn enriched,
        enrichUnicorn E unicorn = Normal enriched ->
        let raw := rawu_socials unicorn in
        let out := unicorn_socials enriched in
        twitter out = normalizeUsername (twitter raw)
        /\ github out = normalizeUsername (github raw)
        /\ gitlab out = normalizeUsername (gitlab raw)
        /\ linkedIn out = normalizeUsername (linkedIn raw)
        /\ twitch out = normalizeUsername (twitch raw)
        /\ dribbble out = normalizeUsername (dribbble raw)
        /\ threads out = normalizeUsername (threads raw)
        /\ cohost out = normalizeUsername (cohost raw)).
Proof.
  split; [exact normalizeUsername_bare|].
  do 4 (split; [reflexivity|]).
  split; [exact normalizeUsername_url|].
  do 2 (split; [reflexivity|]).
  intros unicorn enriched H raw out.
  apply enrichUnicorn_Normal in H as (m & _ & Hs).
  subst out. rewrite Hs. simpl. by repeat split.
Qed.

Lemma normalizeUsername_handles_witness :
  normalizeUsername (Some "crutchcorn") = Some "crutchcorn"
  /\ normalizeUsername (Some "https://twitter.com/crutchcorn/")
     = Some "crutchcorn/"
  /\ (forall enriched,
        enrichUnicorn Demo.env Demo.crutchcorn = Normal enriched ->
        twitter (unicorn_socials enriched) = Some "crutchcorn").
Proof.
  destruct (normalizeUsername_handles Demo.env)
    as (Hbare & _ & _ & _ & _ & Hurl & _ & _ & Hfields).
  split; [|split].
  - apply Hbare. reflexivity.
  - apply (Hurl "https://twitter.com" "/"%char "crutchcorn" "/");
      first [reflexivity | discriminate | simpl; lia].
  - intros enriched H. by destruct (Hfields Demo.crutchcorn enriched H) as [-> _].
Defined.

(** The third example of C3 as the specification has it: the text ends in a
    separator, and the separator stays. *)
Lemma normalizeUsername_trailing_separator :
  normalizeUsername (Some "github.com/torvalds/") <> Some "torvalds".
Proof. vm_compute. discriminate. Qed.





(** ** Posts: tags, locales, word count *)

Lemma tagsHas_spec E tag : tagsHas E tag = true <-> is_Some (env_tags E !! tag).
Proof.
  unfold tagsHas. destruct (env_tags E !! tag); split; intros H;
    first [done | by eexists | by destruct H].
Qed.

(** C6. Every index file of every directory of posts that is not junk has
    its post among the emitted ones, whatever its tags: the post has the
    slug of the directory, its tags are the tags of the front matter that
    the tag map knows, in their order, and every dropped tag has put one
    warning on the console, which starts with the slug of the post and
    quotes the tag. No other post is emitted: without the banners the
    posts of [getPosts] are a rearrangement of the built records, and the
    console holds the warnings of all of them. *)
Theorem tags_filtered_with_warning (E : Env) unicorns heap collections :
  (forall slug i file,
     slug ∈ List.filter (env_isNotJunk E) (env_readdirSync E (postsDirectory E)) ->
     indexFiles E (env_join E [postsDirectory E; slug]) !! i = Some file ->
     let frontmatter :=
       env_matterPost E
         (env_readFileSync E (env_join E [postsDirectory E; slug; file])) in
     exists post,
       post ∈ (getPosts E unicorns heap collections).1
       /\ clearBanner post
          = (postOfFile E unicorns heap collections slug
               (localesOf (indexFiles E (env_join E [postsDirectory E; slug])))
               i file).1
       /\ post_slug post = slug
       /\ post_tags post
          = List.filter (fun tag => bool_decide (is_Some (env_tags E !! tag)))
                        (raw_tags frontmatter)
       /\ forall tag,
            tag ∈ raw_tags frontmatter ->
            env_tags E !! tag = None ->
            slug +:+ ": Tag '" +:+ tag
              +:+ "' is not specified in content/data/tags.json! Filtering..."
            ∈ (getPosts E unicorns heap collections).2)
  /\ (forall slug locales i file,
        let frontmatter :=
          env_matterPost E
            (env_readFileSync E (env_join E [postsDirectory E; slug; file])) in
        let built := postOfFile E unicorns heap collections slug locales i file in
        post_slug built.1 = slug
        /\ post_tags built.1
           = List.filter (fun tag => bool_decide (is_Some (env_tags E !! tag)))
                         (raw_tags frontmatter)
        /\ built.2
           = map (fun tag => slug +:+ ": Tag '" +:+ tag
                    +:+ "' is not specified in content/data/tags.json! Filtering...")
                 (List.filter
                    (fun tag => negb (bool_decide (is_Some (env_tags E !! tag))))
                    (raw_tags frontmatter)))
  /\ Permutation (map clearBanner (getPosts E unicorns heap collections).1)
                 (map fst (builtPosts E unicorns heap collections))
  /\ (getPosts E unicorns heap collections).2
     = concat (map snd (builtPosts E unicorns heap collections))
  /\ (forall slug,
        is_Some (env_tags E !! "valid-tag") ->
        env_tags E !! "bogus-tag" = None ->
        filterTags E slug ["valid-tag"; "bogus-tag"]
        = (["valid-tag"],
           [slug +:+ ": Tag 'bogus-tag' is not specified in content/data/tags.json! Filtering..."])).
Proof.
  assert (Hhas : forall tag,
             tagsHas E tag = bool_decide (is_Some (env_tags E !! tag))).
  { intros tag. unfold tagsHas. destruct (env_tags E !! tag).
    - by rewrite bool_decide_eq_true_2.
    - rewrite bool_decide_eq_false_2; [done | by intros [? ?]]. }
  assert (Hfile : forall slug locales i file,
             let frontmatter :=
               env_matterPost E
                 (env_readFileSync E (env_join E [postsDirectory E; slug; file])) in
             let built :=
               postOfFile E unicorns heap collections slug locales i file in
             post_slug built.1 = slug
             /\ post_tags built.1
                = List.filter
                    (fun tag => bool_decide (is_Some (env_tags E !! tag)))
                    (raw_tags frontmatter)
             /\ built.2
                = map (fun tag => slug +:+ ": Tag '" +:+ tag
                         +:+ "' is not specified in content/data/tags.json! Filtering...")
                      (List.filter
                         (fun tag =>
                            negb (bool_decide (is_Some (env_tags E !! tag))))
                         (raw_tags frontmatter))).
  { intros slug locales i file frontmatter built. subst built.
    unfold postOfFile. rewrite filterTags_spec. simpl.
    split; [done|]. split.
    + apply filter_ext. intros tag. apply Hhas.
    + f_equal. apply filter_ext. intros tag. by rewrite Hhas. }
  assert (Hperm : Permutation
                    (map clearBanner (getPosts E unicorns heap collections).1)
                    (map fst (builtPosts E unicorns heap collections))).
  { rewrite getPosts_clearBanner. apply Array_sort_Permutation. }
  split; [|split; [exact Hfile|split; [exact Hperm|split]]].
  - intros slug i file Hslug Hi frontmatter.
    set (locales := localesOf (indexFiles E (env_join E [postsDirectory E; slug]))).
    set (built := postOfFile E unicorns heap collections slug locales i file).
    assert (Hbuilt : built ∈ builtPosts E unicorns heap collections).
    { apply builtPosts_elem. by exists slug, i, file. }
    assert (Hemitted : built.1
                       ∈ map clearBanner (getPosts E unicorns heap collections).1).
    { rewrite Hperm. apply list_elem_of_In, in_map. by apply list_elem_of_In. }
    apply list_elem_of_In, in_map_iff in Hemitted as (post & Hpost & Hin).
    destruct (Hfile slug locales i file) as (Hs & Ht & Hw).
    fold built in Hs, Ht, Hw. fold frontmatter in Ht, Hw.
    exists post. split; [by apply list_elem_of_In|]. split; [done|].
    split; [by rewrite <- Hs, <- Hpost|]. split; [by rewrite <- Ht, <- Hpost|].
    intros tag Htag Hnone.
    change ((getPosts E unicorns heap collections).2)
      with (concat (map snd (builtPosts E unicorns heap collections))).
    apply list_elem_of_In, in_concat. exists built.2. split.
    + apply in_map. by apply list_elem_of_In.
    + rewrite Hw.
      apply (in_map (fun tag => slug +:+ ": Tag '" +:+ tag
               +:+ "' is not specified in content/data/tags.json! Filtering...")).
      apply filter_In. split; [by apply list_elem_of_In|].
      rewrite bool_decide_eq_false_2; [done|]. rewrite Hnone. by intros [? ?].
  - reflexivity.
  - intros slug [v Hv] Hb. simpl. unfold tagsHas. by rewrite Hv, Hb.
Qed.

Lemma tags_filtered_with_warning_witness :
  (exists post,
      post ∈ (getPosts Demo.env Demo.unicorns [] []).1
      /\ post_slug post = "a"
      /\ post_locale post = Some "en"
      /\ post_tags post = ["valid-tag"]
      /\ "a: Tag 'bogus-tag' is not specified in content/data/tags.json! Filtering..."
         ∈ (getPosts Demo.env Demo.unicorns [] []).2)
  /\ filterTags Demo.env "a" ["valid-tag"; "bogus-tag"]
     = (["valid-tag"],
        ["a: Tag 'bogus-tag' is not specified in content/data/tags.json! Filtering..."]).
Proof.
  destruct (tags_filtered_with_warning Demo.env Demo.unicorns [] [])
    as (Hemitted & _ & _ & _ & Hexample).
  split.
  - destruct (Hemitted "a" 0 "index.md") as (post & Hin & Hbuilt & Hslug & Htags & Hwarn).
    { apply (bool_decide_unpack _). vm_compute. exact I. }
    { vm_compute. reflexivity. }
    exists post. split; [exact Hin|]. split; [exact Hslug|].
    split; [|split].
    + change (post_locale post) with (post_locale (clearBanner post)).
      rewrite Hbuilt. vm_compute. reflexivity.
    + rewrite Htags. vm_compute. reflexivity.
    + apply (Hwarn "bogus-tag"); [|vm_compute; reflexivity].
      apply (bool_decide_unpack _). vm_compute. exact I.
  - apply Hexample.
    + eexists. vm_compute. reflexivity.
    + vm_compute. reflexivity.
Defined.



Lemma tokens_length text :
  length (Words.tokens text) = length (Words.tokensL (JS.chars text)).
Proof. apply length_map. Qed.

(** C9, as the code has it. [wordCount] is the number of pieces into which
    [split(/\s+/)] cuts the raw contents of the file, front matter and body
    together: the whitespace-separated tokens, and one empty piece more
    where the text starts with whitespace, and one more where it ends with
    whitespace; the empty text gives one piece. It is the number of tokens
    exactly when the text is not empty and neither starts nor ends with
    whitespace. *)
Theorem wordCount_counts_pieces (E : Env) unicorns heap collections :
  (forall slug locales i file,
     post_wordCount (postOfFile E unicorns heap collections slug locales i file).1
     = wordCount (env_readFileSync E (env_join E [postsDirectory E; slug; file])))
  /\ wordCount "" = 1
  /\ (forall text,
        text <> "" ->
        wordCount text
        = (if Words.startsWithWhitespace text then 1 else 0)
          + length (Words.tokens text)
          + (if Words.endsWithWhitespace text then 1 else 0))
  /\ (forall text,
        text <> "" ->
        Words.startsWithWhitespace text = false ->
        Words.endsWithWhitespace text = false ->
        wordCount text = length (Words.tokens text)).
Proof.
  assert (Hshape : forall text,
             text <> "" ->
             wordCount text
             = (if Words.startsWithWhitespace text then 1 else 0)
               + length (Words.tokens text)
               + (if Words.endsWithWhitespace text then 1 else 0)).
  { intros text Hne. unfold wordCount, JS.splitWhitespace.
    rewrite length_map, splitWsL_shape by by apply chars_nonempty.
    rewrite !length_app, tokens_length.
    unfold Words.startsWithWhitespace, Words.endsWithWhitespace.
    destruct (Words.startsWsL _), (Words.endsWsL _); simpl; lia. }
  split; [|split; [reflexivity|split; [exact Hshape|]]].
  - intros slug locales i file. unfold postOfFile.
    by rewrite filterTags_spec.
  - intros text Hne Hs He. rewrite (Hshape text Hne), Hs, He. lia.
Qed.

Lemma wordCount_counts_pieces_witness :
  wordCount "An ode to words" = 4
  /\ wordCount ("hello world" +:+ JS.newline) = 3.
Proof.
  destruct (wordCount_counts_pieces Demo.env [] [] []) as (_ & _ & Hany & Hclean).
  split.
  - rewrite Hclean; [reflexivity | discriminate | reflexivity | reflexivity].
  - rewrite Hany; [reflexivity | discriminate].
Defined.

(** C9 as the specification has it fails on a text that ends with a line
    feed: two tokens, three pieces. *)
Lemma wordCount_is_not_the_token_count :
  ~ (forall text, wordCount text = length (Words.tokens text)).
Proof.
  intros H. specialize (H ("hello world" +:+ JS.newline)).
  vm_compute in H. discriminate.
Qed.

(** ** Cross-linking *)

Lemma omap_cons_Some {A B} (f : A -> option B) a l y :
  f a = Some y -> omap f (a :: l) = y :: omap f l.
Proof. intros H. simpl. by rewrite H. Qed.

Lemma deref_allocated pre objects :
  deref (pre ++ objects) (seq (length pre) (length objects)) = objects.
Proof.
  unfold deref. revert pre.
  induction objects as [|x objects IH]; intros pre; [done|].
  change (seq (length pre) (length (x :: objects)))
    with (length pre :: seq (S (length pre)) (length objects)).
  rewrite (omap_cons_Some _ _ _ x) by by apply list_lookup_middle.
  f_equal.
  replace (pre ++ x :: objects) with ((pre ++ [x]) ++ objects)
    by (by rewrite <- app_assoc).
  replace (S (length pre)) with (length (pre ++ [x]))
    by (rewrite length_app; simpl; lia).
  apply IH.
Qed.

Lemma collectionsStage_unfold E unicorns :
  collectionsStage E unicorns
  = (getCollections E unicorns, seq 0 (length (getCollections E unicorns))).
Proof. reflexivity. Qed.

Lemma postsStage_unfold E unicorns :
  postsStage E unicorns
  = getPosts E unicorns (getCollections E unicorns)
      (seq 0 (length (getCollections E unicorns))).
Proof. reflexivity. Qed.

(** The heap after the linking: the collections of [getCollections],
    untouched, and behind them one new object for each. *)
Lemma linkStage_unfold E unicorns :
  linkStage E unicorns
  = (getCollections E unicorns
       ++ map (fun collection =>
                 withPosts collection
                   (List.filter (inCollection collection) (postsStage E unicorns).1))
              (getCollections E unicorns),
     seq (length (getCollections E unicorns))
         (length (getCollections E unicorns))).
Proof.
  unfold linkStage. rewrite collectionsStage_unfold. cbv beta iota.
  unfold linkCollections, allocate.
  pose proof (deref_allocated [] (getCollections E unicorns)) as Hderef.
  change (deref (getCollections E unicorns)
            (seq 0 (length (getCollections E unicorns)))
          = getCollections E unicorns) in Hderef.
  by rewrite Hderef, length_map.
Qed.

Lemma inCollection_spec collection post :
  inCollection collection post
  = bool_decide (post_collection post = Some (coll_slug collection)).
Proof.
  unfold inCollection. destruct (post_collection post) as [c|].
  - destruct (String.eqb_spec c (coll_slug collection)) as [->|Hne].
    + by rewrite bool_decide_eq_true_2.
    + rewrite bool_decide_eq_false_2; [done | congruence].
  - by rewrite bool_decide_eq_false_2.
Qed.

Lemma List_filter_sublist {A} (f : A -> bool) l : List.filter f l `sublist_of` l.
Proof.
  induction l as [|x l IH]; simpl; [constructor|].
  destruct (f x); by constructor.
Qed.

Lemma getCollections_unlinked E unicorns collection :
  collection ∈ getCollections E unicorns -> coll_posts collection = None.
Proof.
  unfold getCollections. rewrite Array_sort_Permutation.
  unfold allCollections. rewrite elem_of_app. intros [H|H].
  - apply list_elem_of_In, in_flat_map in H as (slug & _ & H).
    apply list_elem_of_In, list_elem_of_lookup in H as [i H].
    unfold collectionsOfSlug in H. rewrite list_lookup_imap in H.
    destruct (indexFiles E _ !! i); [|done]. by injection H as <-.
  - apply list_elem_of_In, in_map_iff in H as ([slug fm] & <- & _). done.
Qed.

Lemma lookup_map {A B} (f : A -> B) l i : map f l !! i = f <$> l !! i.
Proof. revert i. induction l as [|x l IH]; intros [|i]; simpl; auto. Qed.

(** C8. After the linking every exported collection is the collection
    [getCollections] returned at the same position with a [posts] field
    added, and that field holds the posts of the exported post list whose
    [collection] is the slug of the collection: a subsequence of the post
    list with exactly those posts, the empty list when there is none. *)
Theorem collections_hold_their_posts (E : Env) exports :
  loadModule E = Normal exports ->
  let before := getCollections E (exp_unicorns exports) in
  length (exp_collections exports) = length before
  /\ forall i collection,
       before !! i = Some collection ->
       exists a linked posts,
         exp_collections exports !! i = Some a
         /\ exp_heap exports !! a = Some linked
         /\ linked = withPosts collection posts
         /\ coll_posts linked = Some posts
         /\ posts
            = List.filter
                (fun post =>
                   bool_decide (post_collection post = Some (coll_slug collection)))
                (exp_posts exports)
         /\ posts `sublist_of` exp_posts exports
         /\ (forall post,
               post ∈ posts <->
               post ∈ exp_posts exports
               /\ post_collection post = Some (coll_slug collection))
         /\ ((forall post,
                post ∈ exp_posts exports ->
                post_collection post <> Some (coll_slug collection)) ->
             coll_posts linked = Some []).
Proof.
  intros Hload before.
  apply loadModule_Normal in Hload as (unicorns & _ & ->).
  subst before. cbn [exp_heap exp_collections exp_posts exp_unicorns].
  rewrite linkStage_unfold. cbn [fst snd].
  set (before := getCollections E unicorns).
  set (posts := (postsStage E unicorns).1).
  split; [apply length_seq|].
  intros i collection Hi.
  pose proof (lookup_lt_Some _ _ _ Hi) as Hlt.
  set (mine := List.filter
                 (fun post =>
                    bool_decide (post_collection post = Some (coll_slug collection)))
                 posts).
  assert (Hmine : List.filter (inCollection collection) posts = mine).
  { apply filter_ext. intros post. apply inCollection_spec. }
  assert (Hin : forall post,
             post ∈ mine <->
             post ∈ posts /\ post_collection post = Some (coll_slug collection)).
  { intros post. unfold mine.
    rewrite !list_elem_of_In, filter_In, bool_decide_eq_true. tauto. }
  exists (length before + i), (withPosts collection mine), mine.
  split; [by apply lookup_seq_lt|].
  split.
  { rewrite lookup_app_r by lia.
    replace (length before + i - length before) with i by lia.
    by rewrite lookup_map, Hi, <- Hmine. }
  split; [done|]. split; [done|]. split; [done|].
  split; [apply List_filter_sublist|]. split; [exact Hin|].
  intros Hnone. simpl. f_equal.
  destruct mine as [|post rest] eqn:Hm; [done|].
  destruct (proj1 (Hin post) ltac:(left)) as [Hp Hc].
  by destruct (Hnone post Hp).
Qed.

Lemma collections_hold_their_posts_witness :
  exists exports a linked,
    loadModule Demo.env = Normal exports
    /\ exp_collections exports !! 2 = Some a
    /\ exp_heap exports !! a = Some linked
    /\ coll_slug linked = "old-series"
    /\ coll_posts linked = Some [].
Proof.
  destruct (loadModule Demo.env) as [exports|msg] eqn:Hload;
    [|by vm_compute in Hload].
  destruct (collections_hold_their_posts Demo.env exports Hload) as [_ Hlink].
  assert (Hus : exp_unicorns exports = Demo.unicorns).
  { vm_compute in Hload. injection Hload as <-. reflexivity. }
  rewrite Hus in Hlink.
  destruct (getCollections Demo.env Demo.unicorns !! 2) as [collection|] eqn:Hc;
    [|by vm_compute in Hc].
  destruct (Hlink 2 collection Hc)
    as (a & linked & posts & Ha & Hlinked & -> & _ & Hposts & _).
  exists exports, a, (withPosts collection posts).
  split; [done|]. split; [done|]. split; [done|].
  assert (Hslug : coll_slug collection = "old-series").
  { vm_compute in Hc. injection Hc as <-. reflexivity. }
  split; [done|]. simpl. f_equal. rewrite Hposts, Hslug.
  vm_compute in Hload. injection Hload as <-. reflexivity.
Defined.

(** Where the posts of [getPosts] come from *)
Lemma getPosts_elem_built E unicorns heap collections post :
  post ∈ (getPosts E unicorns heap collections).1 ->
  clearBanner post ∈ map fst (builtPosts E unicorns heap collections).
Proof.
  intros Hp. rewrite <- (Array_sort_Permutation (comparePosts E)).
  rewrite <- getPosts_clearBanner. apply list_elem_of_In, in_map.
  by apply list_elem_of_In.
Qed.

(** C10. The collection a post refers to through [collectionMeta] is an
    object [getCollections] created: the linking leaves it as it was,
    without a [posts] field, and exports none of these objects; the
    exported collections are other objects, and they have the field. *)
Theorem embedded_collection_without_posts (E : Env) exports :
  loadModule E = Normal exports ->
  let heap0 := (collectionsStage E (exp_unicorns exports)).1 in
  (forall a collection,
     heap0 !! a = Some collection ->
     exp_heap exports !! a = Some collection
     /\ coll_posts collection = None
     /\ a ∉ exp_collections exports)
  /\ (forall post a,
        post ∈ exp_posts exports ->
        post_collectionMeta post = Some a ->
        exists collection,
          heap0 !! a = Some collection
          /\ exp_heap exports !! a = Some collection
          /\ coll_posts collection = None
          /\ a ∉ exp_collections exports)
  /\ (forall a,
        a ∈ exp_collections exports ->
        exists linked,
          exp_heap exports !! a = Some linked /\ is_Some (coll_posts linked)).
Proof.
  intros Hload heap0.
  apply loadModule_Normal in Hload as (unicorns & _ & ->).
  subst heap0. cbn [exp_heap exp_collections exp_posts exp_unicorns].
  rewrite collectionsStage_unfold, linkStage_unfold. cbn [fst snd].
  set (before := getCollections E unicorns).
  assert (Hframe : forall a collection,
             before !! a = Some collection ->
             (before ++ map (fun collection =>
                               withPosts collection
                                 (List.filter (inCollection collection)
                                    (postsStage E unicorns).1)) before) !! a
             = Some collection
             /\ coll_posts collection = None
             /\ a ∉ seq (length before) (length before)).
  { intros a collection Ha.
    pose proof (lookup_lt_Some _ _ _ Ha) as Hlt.
    split; [by rewrite lookup_app_l|].
    split; [eapply getCollections_unlinked, list_elem_of_lookup_2, Ha|].
    rewrite elem_of_seq. lia. }
  split; [exact Hframe|]. split.
  - intros post a Hpost Hmeta.
    rewrite postsStage_unfold in Hpost.
    apply getPosts_elem_built in Hpost.
    apply list_elem_of_In, in_map_iff in Hpost as ([p console] & Hp & Hbuilt).
    simpl in Hp.
    apply list_elem_of_In, builtPosts_elem in Hbuilt
      as (slug & i & file & _ & _ & Hbuilt).
    assert (Hfound : post_collectionMeta p = Some a).
    { rewrite Hp. exact Hmeta. }
    unfold postOfFile in Hbuilt. rewrite filterTags_spec in Hbuilt.
    injection Hbuilt as Hbuilt _. rewrite Hbuilt in Hfound. simpl in Hfound.
    destruct (raw_collection _) as [c|]; [|done].
    destruct (truthy c); [|done].
    apply find_some in Hfound as [_ Hfound]. fold before in Hfound.
    destruct (before !! a) as [collection|] eqn:Ha; [|done].
    exists collection. split; [done|]. by apply Hframe.
  - intros a Ha. apply elem_of_seq in Ha.
    destruct (lookup_lt_is_Some_2 before (a - length before)) as [c Hc]; [lia|].
    eexists. split.
    + rewrite lookup_app_r by lia. by rewrite lookup_map, Hc.
    + simpl. by eexists.
Qed.

Lemma embedded_collection_without_posts_witness :
  exists exports post a collection,
    loadModule Demo.env = Normal exports
    /\ exp_posts exports !! 5 = Some post
    /\ post_collectionMeta post = Some a
    /\ exp_heap exports !! a = Some collection
    /\ coll_posts collection = None.
Proof.
  destruct (loadModule Demo.env) as [exports|msg] eqn:Hload;
    [|by vm_compute in Hload].
  destruct (embedded_collection_without_posts Demo.env exports Hload)
    as (_ & Hmeta & _).
  assert (Hpost : exists post,
             exp_posts exports !! 5 = Some post
             /\ post_collectionMeta post = Some 0).
  { vm_compute in Hload. injection Hload as <-. eexists.
    split; vm_compute; reflexivity. }
  destruct Hpost as (post & Hpost & Ha).
  destruct (Hmeta post 0 (list_elem_of_lookup_2 _ _ _ Hpost) Ha)
    as (collection & _ & Hheap & Hnone & _).
  by exists exports, post, 0, collection.
Defined.

(** * Further properties of the loader *)

(** ** Trimming *)

Lemma trimStartL_suffix s : exists a, s = a ++ JS.trimStartL s.
Proof.
  induction s as [|c s [a IH]]; [by exists []|]. simpl.
  destruct (JS.isWhiteSpace c); [|by exists []].
  exists (c :: a). simpl. by f_equal.
Qed.

Lemma trimEndL_prefix s : exists b, s = JS.trimEndL s ++ b.
Proof.
  unfold JS.trimEndL. destruct (trimStartL_suffix (rev s)) as [a Ha].
  exists (rev a). rewrite <- rev_app_distr, <- Ha. by rewrite rev_involutive.
Qed.

Lemma trimL_infix s : exists a b, s = a ++ JS.trimL s ++ b.
Proof.
  unfold JS.trimL. destruct (trimStartL_suffix s) as [a Ha].
  destruct (trimEndL_prefix (JS.trimStartL s)) as [b Hb].
  exists a, b. by rewrite <- Hb.
Qed.

Lemma trimStartL_start s : Words.startsWsL (JS.trimStartL s) = false.
Proof.
  induction s as [|c s IH]; [done|]. simpl.
  destruct (JS.isWhiteSpace c) eqn:Hc; [done | by simpl].
Qed.

Lemma trimStartL_id s : Words.startsWsL s = false -> JS.trimStartL s = s.
Proof. destruct s as [|c s]; simpl; [done | by intros ->]. Qed.

Lemma startsWsL_app l r : l <> [] -> Words.startsWsL (l ++ r) = Words.startsWsL l.
Proof. by destruct l. Qed.

Lemma endsWsL_app l r : r <> [] -> Words.endsWsL (l ++ r) = Words.endsWsL r.
Proof.
  intros Hr. induction l as [|c l IH]; [done|].
  change ((c :: l) ++ r) with (c :: (l ++ r)).
  destruct (l ++ r) as [|c' lr] eqn:Hlr.
  - by destruct l, r.
  - rewrite <- IH. reflexivity.
Qed.

Lemma endsWsL_rev s : Words.endsWsL s = Words.startsWsL (rev s).
Proof.
  induction s as [|c s IH]; [done|].
  destruct s as [|c' s]; [done|].
  change (Words.endsWsL (c :: c' :: s)) with (Words.endsWsL (c' :: s)).
  rewrite IH. simpl rev at 2. rewrite startsWsL_app; [done|].
  simpl. by destruct (rev s).
Qed.

Lemma trimEndL_id s : Words.endsWsL s = false -> JS.trimEndL s = s.
Proof.
  intros H. unfold JS.trimEndL. rewrite trimStartL_id.
  - apply rev_involutive.
  - by rewrite <- endsWsL_rev.
Qed.

Lemma trimL_id s :
  Words.startsWsL s = false -> Words.endsWsL s = false -> JS.trimL s = s.
Proof.
  intros Hs He. unfold JS.trimL. rewrite trimStartL_id by done.
  by apply trimEndL_id.
Qed.

Lemma trimL_end s : Words.endsWsL (JS.trimL s) = false.
Proof.
  unfold JS.trimL, JS.trimEndL. rewrite endsWsL_rev, rev_involutive.
  apply trimStartL_start.
Qed.

Lemma trimL_start s : Words.startsWsL (JS.trimL s) = false.
Proof.
  unfold JS.trimL.
  pose proof (trimStartL_start s) as Hs.
  destruct (trimEndL_prefix (JS.trimStartL s)) as [b Hb].
  destruct (JS.trimEndL (JS.trimStartL s)) as [|c t] eqn:Ht; [done|].
  rewrite Hb in Hs. exact Hs.
Qed.

(** ** The handle pattern in general *)

Lemma matchUrlPrefix_Some s k e :
  JS.matchUrlPrefix s k = Some e ->
  exists j,
    e = S j /\ j <= k /\ JS.separatorAt s j = true
    /\ forall i, j < i <= k -> JS.separatorAt s i = false.
Proof.
  induction k as [|k IH]; simpl.
  - destruct (JS.separatorAt s 0) eqn:H0; [|done].
    intros [= <-]. exists 0. repeat split; [lia | done | lia].
  - destruct (JS.separatorAt s (S k)) eqn:Hk.
    + intros [= <-]. exists (S k). repeat split; [lia | done | lia].
    + intros H. destruct (IH H) as (j & -> & Hj & Hat & Hafter).
      exists j. repeat split; [lia | done |].
      intros i Hi. destruct (decide (i = S k)) as [->|]; [done|].
      apply Hafter. lia.
Qed.

Lemma matchUrlPrefix_None s k :
  JS.matchUrlPrefix s k = None ->
  forall i, i <= k -> JS.separatorAt s i = false.
Proof.
  induction k as [|k IH]; simpl.
  - destruct (JS.separatorAt s 0) eqn:H0; [done|].
    intros _ i Hi. by replace i with 0 by lia.
  - destruct (JS.separatorAt s (S k)) eqn:Hk; [done|].
    intros H i Hi. destruct (decide (i = S k)) as [->|]; [done|].
    apply (IH H). lia.
Qed.

Lemma separatorAt_true s j :
  JS.separatorAt s j = true ->
  exists c, s !! j = Some c /\ JS.isSeparator c = true /\ S j < length s.
Proof.
  unfold JS.separatorAt. destruct (s !! j) as [c|] eqn:Hc; [|done].
  destruct (s !! S j) as [c'|] eqn:Hc'; [|done].
  intros H. exists c. repeat split; [done|]. by eapply lookup_lt_Some.
Qed.

Lemma separatorsOnlyLast_no_match s j :
  separatorsOnlyLast s -> JS.separatorAt s j = false.
Proof.
  intros Hs. destruct (JS.separatorAt s j) eqn:H; [|done].
  apply separatorAt_true in H as (c & Hc & Hsep & Hlt).
  specialize (Hs j c Hc Hsep). lia.
Qed.

Lemma separatorsOnlyLast_infix a s b :
  separatorsOnlyLast (a ++ s ++ b) -> separatorsOnlyLast s.
Proof.
  intros H i c Hi Hsep.
  pose proof (lookup_lt_Some _ _ _ Hi) as Hlt.
  specialize (H (length a + i) c).
  rewrite lookup_app_r, Nat.add_comm, Nat.add_sub, lookup_app_l in H by lia.
  specialize (H Hi Hsep). rewrite !length_app in H. lia.
Qed.

Lemma dotStarMax_le s : JS.dotStarMax s <= length s.
Proof.
  induction s as [|c s IH]; simpl; [done|].
  destruct (JS.isLineTerminator c); simpl; lia.
Qed.

Lemma dotStarMax_take s :
  Forall (fun c => JS.isLineTerminator c = false) (take (JS.dotStarMax s) s).
Proof.
  induction s as [|c s IH]; simpl; [constructor|].
  destruct (JS.isLineTerminator c) eqn:Hc; simpl; by constructor.
Qed.

Lemma dotStarMax_one_line s :
  Forall (fun c => JS.isLineTerminator c = false) s -> JS.dotStarMax s = length s.
Proof.
  intros H. rewrite <- (app_nil_r s) at 1. rewrite dotStarMax_app by done.
  simpl. lia.
Qed.

(** What the replacement does to a text: nothing, where the pattern finds
    no separator to stop at; otherwise it removes a prefix on one line and
    the separator behind it, and at least one character stays. *)
Lemma stripUrlPrefixL_spec s :
  (JS.stripUrlPrefixL s = s
   /\ forall i, i <= JS.dotStarMax s -> JS.separatorAt s i = false)
  \/ (exists p sep r,
        s = p ++ sep :: r
        /\ JS.stripUrlPrefixL s = r
        /\ Forall (fun c => JS.isLineTerminator c = false) p
        /\ JS.isSeparator sep = true
        /\ r <> []
        /\ forall i, length p < i <= JS.dotStarMax s ->
                     JS.separatorAt s i = false).
Proof.
  unfold JS.stripUrlPrefixL.
  destruct (JS.matchUrlPrefix s (JS.dotStarMax s)) as [e|] eqn:Hm.
  - right. apply matchUrlPrefix_Some in Hm as (j & -> & Hj & Hat & Hafter).
    destruct (separatorAt_true _ _ Hat) as (sep & Hsep & His & Hlt).
    exists (take j s), sep, (drop (S j) s).
    assert (Hlen : length (take j s) = j) by (rewrite length_take; lia).
    split; [by rewrite <- (take_drop_middle s j sep Hsep) at 1|].
    split; [done|]. split.
    { pose proof (dotStarMax_take s) as Hone.
      replace (JS.dotStarMax s) with (j + (JS.dotStarMax s - j)) in Hone by lia.
      rewrite <- take_take_drop in Hone.
      by apply Forall_app in Hone as [Hone _]. }
    split; [done|]. split.
    { intros Hnil. apply (f_equal length) in Hnil.
      rewrite length_drop in Hnil. simpl in Hnil. lia. }
    rewrite Hlen. exact Hafter.
  - left. split; [done|]. by apply matchUrlPrefix_None.
Qed.

Lemma str_app a b : JS.str (a ++ b) = JS.str a +:+ JS.str b.
Proof. induction a as [|c a IH]; simpl; [done | by rewrite IH]. Qed.

Lemma str_nonempty l : l <> [] -> JS.str l <> "".
Proof. destruct l; [done | discriminate]. Qed.

Lemma Forall_noLineTerminator s :
  Forall (fun c => JS.isLineTerminator c = false) (JS.chars s) ->
  noLineTerminator s = true.
Proof.
  intros H. unfold noLineTerminator. apply forallb_forall. intros c Hc.
  rewrite Forall_forall in H. by rewrite (H c) by by apply list_elem_of_In.
Qed.

Lemma matchUrlPrefix_no_match s k :
  (forall j, JS.separatorAt s j = false) -> JS.matchUrlPrefix s k = None.
Proof. intros H. induction k as [|k IH]; simpl; by rewrite H. Qed.

Lemma stripUrlPrefixL_onlyLast s :
  separatorsOnlyLast s -> JS.stripUrlPrefixL s = s.
Proof.
  intros H. unfold JS.stripUrlPrefixL. rewrite matchUrlPrefix_no_match; [done|].
  intros j. by apply separatorsOnlyLast_no_match.
Qed.

(** On one line the replacement leaves separators in last position only. *)
Lemma stripUrlPrefixL_result_onlyLast t :
  Forall (fun c => JS.isLineTerminator c = false) t ->
  separatorsOnlyLast (JS.stripUrlPrefixL t).
Proof.
  intros Hone. pose proof (dotStarMax_one_line t Hone) as Hmax.
  destruct (stripUrlPrefixL_spec t)
    as [[-> Hno]|(p & sep & r & Ht & -> & _ & _ & _ & Hno)];
    intros i c Hi Hsep; pose proof (lookup_lt_Some _ _ _ Hi) as Hlt.
  - destruct (decide (S i = length t)) as [|Hne]; [done|].
    specialize (Hno i ltac:(lia)). unfold JS.separatorAt in Hno.
    rewrite Hi, Hsep in Hno.
    destruct (lookup_lt_is_Some_2 t (S i)) as [c' Hc']; [lia|].
    by rewrite Hc' in Hno.
  - destruct (decide (S i = length r)) as [|Hne]; [done|].
    assert (Hlen : length t = length p + S (length r))
      by (rewrite Ht, length_app; simpl; lia).
    specialize (Hno (S (length p + i)) ltac:(lia)).
    unfold JS.separatorAt in Hno. rewrite Ht in Hno.
    rewrite !lookup_app_r in Hno by lia.
    replace (S (length p + i) - length p) with (S i) in Hno by lia.
    replace (S (S (length p + i)) - length p) with (S (S i)) in Hno by lia.
    simpl in Hno. rewrite Hi, Hsep in Hno.
    destruct (lookup_lt_is_Some_2 r (S i)) as [c' Hc']; [lia|].
    by rewrite Hc' in Hno.
Qed.

Lemma stripUrlPrefixL_end t :
  Words.endsWsL t = false -> Words.endsWsL (JS.stripUrlPrefixL t) = false.
Proof.
  intros He.
  destruct (stripUrlPrefixL_spec t)
    as [[-> _]|(p & sep & r & Ht & -> & _ & _ & Hr & _)]; [done|].
  rewrite Ht in He.
  replace (p ++ sep :: r) with ((p ++ [sep]) ++ r) in He
    by (by rewrite <- app_assoc).
  by rewrite endsWsL_app in He.
Qed.

(** X1. Normalizing a handle removes from the trimmed text nothing or a
    prefix that lies on one line and ends with [/] or [@]; what is left is
    never empty unless the trimmed text was. *)
Theorem normalizeUsername_strips_a_prefix (u : string) :
  exists prefix r,
    normalizeUsername (Some u) = Some r
    /\ JS.trim u = prefix +:+ r
    /\ (JS.trim u <> "" -> r <> "")
    /\ (prefix = ""
        \/ exists p sep,
             prefix = p +:+ String sep ""
             /\ noLineTerminator p = true
             /\ JS.isSeparator sep = true).
Proof.
  unfold normalizeUsername, JS.stripUrlPrefix, JS.trim.
  rewrite chars_str. set (t := JS.trimL (JS.chars u)).
  destruct (stripUrlPrefixL_spec t)
    as [[Hr _]|(p & sep & r & Ht & Hr & Hone & Hsep & Hne & _)].
  - exists "", (JS.str t). rewrite Hr. repeat split; auto.
  - exists (JS.str (p ++ [sep])), (JS.str r). rewrite Hr.
    split; [done|]. split.
    { rewrite <- str_app, <- app_assoc. by rewrite Ht. }
    split; [intros _; by apply str_nonempty|].
    right. exists (JS.str p), sep. split; [by rewrite str_app|].
    split; [|done]. apply Forall_noLineTerminator. by rewrite chars_str.
Qed.

Lemma normalizeUsername_strips_a_prefix_witness :
  exists prefix r,
    normalizeUsername (Some "  https://twitter.com/crutchcorn ") = Some r
    /\ "https://twitter.com/crutchcorn" = prefix +:+ r
    /\ r <> "".
Proof.
  destruct (normalizeUsername_strips_a_prefix "  https://twitter.com/crutchcorn ")
    as (prefix & r & Hr & Htrim & Hne & _).
  exists prefix, r. split; [done|]. split; [exact Htrim|].
  apply Hne. discriminate.
Defined.

(** X2. For a text on one line the normalized handle has no [/] and no [@]
    except possibly as its last character, and it ends without whitespace:
    normalizing it again only trims it, and changes nothing when it does
    not start with whitespace. *)
Theorem normalizeUsername_second_pass (u : string) :
  noLineTerminator u = true ->
  exists r,
    normalizeUsername (Some u) = Some r
    /\ separatorsOnlyLast (JS.chars r)
    /\ Words.endsWithWhitespace r = false
    /\ normalizeUsername (Some r) = Some (JS.trim r)
    /\ (Words.startsWithWhitespace r = false ->
        normalizeUsername (Some r) = Some r).
Proof.
  intros Hone.
  unfold normalizeUsername, JS.stripUrlPrefix, JS.trim.
  rewrite chars_str. set (t := JS.trimL (JS.chars u)).
  assert (Ht : Forall (fun c => JS.isLineTerminator c = false) t).
  { destruct (trimL_infix (JS.chars u)) as (a & b & Hab).
    apply noLineTerminator_Forall in Hone. rewrite Hab in Hone.
    apply Forall_app in Hone as [_ Hone].
    by apply Forall_app in Hone as [Hone _]. }
  pose proof (stripUrlPrefixL_result_onlyLast t Ht) as Hlast.
  pose proof (stripUrlPrefixL_end t (trimL_end _)) as Hend.
  set (r := JS.stripUrlPrefixL t) in *.
  assert (Hagain : JS.stripUrlPrefixL (JS.trimL r) = JS.trimL r).
  { apply stripUrlPrefixL_onlyLast.
    destruct (trimL_infix r) as (a & b & Hab). rewrite Hab in Hlast.
    by apply separatorsOnlyLast_infix in Hlast. }
  exists (JS.str r). rewrite !chars_str.
  split; [done|]. split; [done|].
  split; [unfold Words.endsWithWhitespace; by rewrite chars_str|].
  split; [by rewrite Hagain|].
  unfold Words.startsWithWhitespace. rewrite chars_str. intros Hstart.
  by rewrite Hagain, trimL_id.
Qed.

Lemma normalizeUsername_second_pass_witness :
  exists r,
    normalizeUsername (Some "linkedin.com/in/crutchcorn/") = Some r
    /\ normalizeUsername (Some r) = Some r.
Proof.
  destruct (normalizeUsername_second_pass "linkedin.com/in/crutchcorn/" eq_refl)
    as (r & Hr & _ & _ & _ & Hsame).
  exists r. split; [done|]. apply Hsame.
  vm_compute in Hr. injection Hr as <-. reflexivity.
Defined.

(** ** The canonical youtube address *)

Lemma stripUrlPrefixL_before_handle p sep h :
  Forall (fun c => JS.isLineTerminator c = false) p ->
  JS.isSeparator sep = true ->
  h <> [] ->
  separatorsOnlyLast h ->
  JS.stripUrlPrefixL (p ++ sep :: h) = h.
Proof.
  intros Hp Hsep Hh Hlast. unfold JS.stripUrlPrefixL.
  rewrite (matchUrlPrefix_found _ _ (length p)).
  - replace (p ++ sep :: h) with ((p ++ [sep]) ++ h)
      by (by rewrite <- app_assoc).
    rewrite drop_app_length'; [done|]. rewrite length_app. simpl. lia.
  - rewrite dotStarMax_app by done. lia.
  - unfold JS.separatorAt. rewrite list_lookup_middle by done.
    rewrite lookup_app_r by lia.
    replace (S (length p) - length p) with 1 by lia. simpl.
    by destruct h.
  - intros i Hi. unfold JS.separatorAt.
    rewrite !lookup_app_r by lia.
    replace (i - length p) with (S (i - S (length p))) by lia.
    replace (S i - length p) with (S (S (i - S (length p)))) by lia.
    simpl. set (m := i - S (length p)).
    destruct (h !! m) as [c|] eqn:Hc; [|done].
    destruct (h !! S m) as [c'|] eqn:Hc'; [|done].
    destruct (JS.isSeparator c) eqn:Hs; [|done].
    pose proof (Hlast m c Hc Hs). apply lookup_lt_Some in Hc'. lia.
Qed.

(** The replacement returns a piece of its argument. *)
Lemma stripUrlPrefixL_suffix t : exists a, t = a ++ JS.stripUrlPrefixL t.
Proof.
  destruct (stripUrlPrefixL_spec t)
    as [[-> _]|(p & sep & r & Ht & -> & _)]; [by exists []|].
  exists (p ++ [sep]). by rewrite <- app_assoc.
Qed.

Lemma stripUrlPrefixL_nonempty t : t <> [] -> JS.stripUrlPrefixL t <> [].
Proof.
  intros Ht.
  by destruct (stripUrlPrefixL_spec t)
    as [[-> _]|(p & sep & r & _ & -> & _ & _ & Hr & _)].
Qed.

(** X3. An address that [canonicalYoutube] produced is left as it is when
    the step runs on it again, for an entry on one line that is not blank. *)
Theorem canonicalYoutube_idempotent (y : string) :
  noLineTerminator y = true ->
  JS.trim y <> "" ->
  canonicalYoutube (canonicalYoutube (Some y)) = canonicalYoutube (Some y).
Proof.
  intros Hone Htrim.
  assert (Hy : truthy y = true).
  { unfold truthy. destruct (String.eqb_spec y "") as [->|]; [|done].
    by destruct Htrim. }
  set (t := JS.trimL (JS.chars y)).
  set (h := JS.stripUrlPrefixL t).
  assert (Ht : t <> []).
  { intros Hnil. apply Htrim. unfold JS.trim. fold t. by rewrite Hnil. }
  assert (Hh : h <> []) by by apply stripUrlPrefixL_nonempty.
  destruct (trimL_infix (JS.chars y)) as (a & b & Hab). fold t in Hab.
  destruct (stripUrlPrefixL_suffix t) as [a' Ha']. fold h in Ha'.
  assert (Htone : Forall (fun c => JS.isLineTerminator c = false) t).
  { apply noLineTerminator_Forall in Hone. rewrite Hab in Hone.
    apply Forall_app in Hone as [_ Hone].
    by apply Forall_app in Hone as [Hone _]. }
  pose proof (stripUrlPrefixL_result_onlyLast t Htone) as Hlast. fold h in Hlast.
  assert (Hend : Words.endsWsL h = false)
    by (apply stripUrlPrefixL_end, trimL_end).
  assert (Hat : JS.includesChar y "@" = false ->
                existsb (Ascii.eqb "@"%char) h = false).
  { unfold JS.includesChar. rewrite Hab, Ha', !existsb_app.
    intros H. repeat (apply orb_false_elim in H as [? H]).
    by repeat match goal with H' : _ || _ = false |- _ =>
                apply orb_false_elim in H' as [? ?] end. }
  assert (Hnorm : normalizeUsername (Some y) = Some (JS.str h))
    by (unfold normalizeUsername, JS.stripUrlPrefix, JS.trim;
        by rewrite chars_str).
  unfold canonicalYoutube at 2 3. rewrite Hy, Hnorm. simpl interpolate.
  assert (Hagain : forall p sep,
             Forall (fun c => JS.isLineTerminator c = false) (JS.chars p) ->
             JS.isSeparator sep = true ->
             Words.startsWsL (JS.chars p ++ sep :: h) = false ->
             normalizeUsername (Some (p +:+ String sep (JS.str h)))
             = Some (JS.str h)).
  { intros p sep Hp Hsep Hstart.
    unfold normalizeUsername, JS.stripUrlPrefix, JS.trim.
    rewrite chars_str, chars_append.
    change (JS.chars (String sep (JS.str h))) with (sep :: JS.chars (JS.str h)).
    rewrite chars_str, trimL_id; [| done |].
    - by rewrite stripUrlPrefixL_before_handle.
    - replace (JS.chars p ++ sep :: h) with ((JS.chars p ++ [sep]) ++ h)
        by (by rewrite <- app_assoc).
      by rewrite endsWsL_app. }
  destruct (JS.includesChar y "@") eqn:Hinc.
  - change ("https://www.youtube.com/@" +:+ JS.str h)
      with ("https://www.youtube.com/" +:+ String "@" (JS.str h)).
    unfold canonicalYoutube.
    replace (truthy ("https://www.youtube.com/" +:+ String "@" (JS.str h)))
      with true by reflexivity.
    rewrite Hagain; [| by repeat constructor | done | done].
    replace (JS.includesChar ("https://www.youtube.com/" +:+ String "@" (JS.str h)) "@")
      with true; [done|].
    unfold JS.includesChar. rewrite chars_append, existsb_app.
    symmetry. apply orb_true_intro. right. reflexivity.
  - change ("https://www.youtube.com/channel/" +:+ JS.str h)
      with ("https://www.youtube.com/channel" +:+ String "/" (JS.str h)).
    unfold canonicalYoutube.
    replace (truthy ("https://www.youtube.com/channel" +:+ String "/" (JS.str h)))
      with true by reflexivity.
    rewrite Hagain; [| by repeat constructor | done | done].
    replace (JS.includesChar
               ("https://www.youtube.com/channel" +:+ String "/" (JS.str h)) "@")
      with false; [done|].
    unfold JS.includesChar. rewrite chars_append, existsb_app.
    change (JS.chars (String "/" (JS.str h))) with ("/"%char :: JS.chars (JS.str h)).
    rewrite chars_str.
    change (existsb (Ascii.eqb "@"%char) ("/"%char :: h))
      with (existsb (Ascii.eqb "@"%char) h).
    rewrite (Hat eq_refl). reflexivity.
Qed.

Lemma canonicalYoutube_idempotent_witness :
  canonicalYoutube (Some "https://www.youtube.com/@crutchcorn")
  = Some "https://www.youtube.com/@crutchcorn".
Proof.
  change (Some "https://www.youtube.com/@crutchcorn")
    with (canonicalYoutube (Some "@crutchcorn")) at 1.
  rewrite (canonicalYoutube_idempotent "@crutchcorn");
    [reflexivity | reflexivity | discriminate].
Defined.

(** ** The authors *)

Lemma mapC_Normal_inv {A B} (f : A -> Completion B) l bs :
  mapC f l = Normal bs <-> Forall2 (fun a b => f a = Normal b) l bs.
Proof.
  revert bs. induction l as [|a l IH]; intros bs; simpl.
  - split; [intros [= <-]; constructor | by inversion 1].
  - destruct (f a) as [b|m] eqn:Ha; simpl.
    + destruct (mapC f l) as [bs'|m] eqn:Hl; simpl.
      * split.
        -- intros [= <-]. constructor; [done | by apply IH].
        -- inversion 1 as [|? b' ? bs'' Hb Hbs]; subst.
           apply IH in Hbs. congruence.
      * split; [done|]. inversion 1 as [|? b' ? bs'' Hb Hbs]; subst.
        by apply IH in Hbs.
    + split; [done|]. inversion 1; congruence.
Qed.

Lemma mapC_Throws_inv {A B} (f : A -> Completion B) l msg :
  mapC f l = Throws msg <->
  exists l1 x l2,
    l = l1 ++ x :: l2
    /\ Forall (fun a => exists b, f a = Normal b) l1
    /\ f x = Throws msg.
Proof.
  induction l as [|a l IH]; simpl.
  - split; [done|]. intros (l1 & x & l2 & H & _). by destruct l1.
  - destruct (f a) as [b|m] eqn:Ha; simpl.
    + assert (Htail : (exists l1 x l2,
                          a :: l = l1 ++ x :: l2
                          /\ Forall (fun a => exists b, f a = Normal b) l1
                          /\ f x = Throws msg)
                      <-> mapC f l = Throws msg).
      { rewrite IH. split.
        - intros (l1 & x & l2 & H & Hl1 & Hx).
          destruct l1 as [|a' l1]; simpl in H; injection H as -> ->;
            [congruence|].
          apply Forall_cons in Hl1 as [_ Hl1]. by exists l1, x, l2.
        - intros (l1 & x & l2 & -> & Hl1 & Hx).
          exists (a :: l1), x, l2. repeat split; [|done].
          constructor; [by exists b | done]. }
      rewrite Htail. destruct (mapC f l); simpl; split; congruence.
    + split.
      * intros [= ->]. exists [], a, l. repeat split; [constructor | done].
      * intros (l1 & x & l2 & H & Hl1 & Hx).
        destruct l1 as [|a' l1]; simpl in H; injection H as -> ->.
        -- congruence.
        -- apply Forall_cons in Hl1 as [[b Hb] _]. congruence.
Qed.

Lemma enrichUnicorn_accepted E unicorn :
  mastodonAccepted E unicorn = true <->
  exists enriched, enrichUnicorn E unicorn = Normal enriched.
Proof.
  unfold mastodonAccepted, enrichUnicorn, checkMastodon.
  destruct (mastodon (rawu_socials unicorn)) as [m|]; [|split; by eauto].
  destruct (truthy m); simpl; [|split; by eauto].
  destruct (env_URL_new E m) as [href|]; simpl; split; intros H;
    first [done | by eexists | by destruct H].
Qed.

Lemma enrichUnicorn_Throws E unicorn msg :
  enrichUnicorn E unicorn = Throws msg <->
  exists m,
    mastodon (rawu_socials unicorn) = Some m
    /\ m <> ""
    /\ env_URL_new E m = None
    /\ msg = "'" +:+ rawu_id unicorn
                 +:+ "' socials.mastodon is not a valid URL: '" +:+ m +:+ "'".
Proof.
  unfold enrichUnicorn, checkMastodon.
  destruct (mastodon (rawu_socials unicorn)) as [m|]; simpl.
  - unfold truthy. destruct (String.eqb_spec m "") as [->|Hne]; simpl.
    + split; [done|]. by intros (m' & [= <-] & Hm & _).
    + destruct (env_URL_new E m) as [href|] eqn:Hurl; simpl.
      * split; [done|]. intros (m' & [= <-] & _ & Hm & _). congruence.
      * split.
        -- intros [= <-]. by exists m.
        -- by intros (m' & [= <-] & _ & _ & ->).
  - split; [done|]. by intros (m' & Hm & _).
Qed.

(** X4. The [mastodon] check stops the enrichment at the first author, in
    the order of [unicorns.json], whose entry is not empty and is no URL.
    With collaborators that answer, the enrichment throws there and with
    it the evaluation of the module; the line on the console quotes the
    id and the entry of that author, and the authors after it are not
    reported, whatever their entries. *)
Theorem loadModule_first_offender (E : Env) before unicorn after (m : string) :
  env_unicornsRaw E = before ++ unicorn :: after ->
  Forall (fun u => mastodonAccepted E u = true) before ->
  mastodon (rawu_socials unicorn) = Some m ->
  m <> "" ->
  env_URL_new E m = None ->
  let line := "'" +:+ rawu_id unicorn
                  +:+ "' socials.mastodon is not a valid URL: '" +:+ m +:+ "'" in
  fullUnicorns E = Throws line /\ loadModule E = Throws line.
Proof.
  intros Hraw Hbefore Hm Hne Hurl line.
  assert (Hfull : fullUnicorns E = Throws line).
  { unfold fullUnicorns. apply mapC_Throws_inv.
    exists before, unicorn, after. split; [done|]. split.
    - eapply Forall_impl; [exact Hbefore|]. intros u Hu.
      by apply enrichUnicorn_accepted.
    - apply enrichUnicorn_Throws. by exists m. }
  split; [done|]. unfold loadModule. by rewrite Hfull.
Qed.

Lemma loadModule_first_offender_witness :
  loadModule
    (Demo.envOf [Demo.crutchcorn; Demo.strayAuthor; Demo.strayAuthor])
  = Throws "'stray' socials.mastodon is not a valid URL: 'not a url'".
Proof.
  apply (loadModule_first_offender
           (Demo.envOf [Demo.crutchcorn; Demo.strayAuthor; Demo.strayAuthor])
           [Demo.crutchcorn] Demo.strayAuthor [Demo.strayAuthor] "not a url");
    [reflexivity | by repeat constructor | reflexivity | discriminate
    | reflexivity].
Defined.

Lemma enrichUnicorn_fields E raw enriched :
  enrichUnicorn E raw = Normal enriched ->
  unicorn_id enriched = rawu_id raw
  /\ unicorn_name enriched = rawu_name raw
  /\ unicorn_roles enriched = rawu_roles raw
  /\ unicorn_profileImg enriched = rawu_profileImg raw
  /\ unicorn_achievements enriched = default [] (rawu_achievements raw)
  /\ unicorn_rolesMeta enriched
     = map (fun role =>
              find (fun rRole => String.eqb (role_id rRole) role) (env_rolesRaw E))
           (rawu_roles raw).
Proof.
  unfold enrichUnicorn.
  destruct (checkMastodon E _ _) as [m|msg]; simpl; [|done].
  by intros [= <-].
Qed.

(** X5. A module that is loaded exports one author per entry of
    [unicorns.json], in the same order, with the id, name, roles and
    profile image of the entry; [achievements] is the list of the entry,
    empty where the entry has none; and every entry has passed the
    [mastodon] check. *)
Theorem loadModule_authors (E : Env) (exports : Exports) :
  loadModule E = Normal exports ->
  Forall (fun u => mastodonAccepted E u = true) (env_unicornsRaw E)
  /\ Forall2
       (fun raw enriched =>
          unicorn_id enriched = rawu_id raw
          /\ unicorn_name enriched = rawu_name raw
          /\ unicorn_roles enriched = rawu_roles raw
          /\ unicorn_profileImg enriched = rawu_profileImg raw
          /\ unicorn_achievements enriched
             = default [] (rawu_achievements raw))
       (env_unicornsRaw E) (exp_unicorns exports).
Proof.
  intros Hload.
  apply loadModule_Normal in Hload as (unicorns & Hfull & ->). simpl.
  apply mapC_Normal_inv in Hfull. split.
  - induction Hfull as [|raw e raws es He _ IH]; constructor; [|done].
    apply enrichUnicorn_accepted. by exists e.
  - eapply Forall2_impl; [exact Hfull|]. intros raw e He.
    apply enrichUnicorn_fields in He. tauto.
Qed.

Lemma loadModule_authors_witness :
  exists exports,
    loadModule Demo.env = Normal exports
    /\ map unicorn_id (exp_unicorns exports) = ["crutchcorn"].
Proof.
  destruct (loadModule Demo.env) as [exports|msg] eqn:Hload;
    [|by vm_compute in Hload].
  exists exports. split; [done|].
  destruct (loadModule_authors Demo.env exports Hload) as [_ Hsame].
  inversion Hsame as [|raw e raws es (Hid & _) Hrest Hraw Hes]; subst.
  inversion Hrest; subst. simpl. by rewrite Hid.
Defined.

(** ** Lookups by id *)

Lemma find_resolvedBy {A} (id : A -> string) (table : list A) (key : string) :
  resolvedBy id table key (find (fun x => String.eqb (id x) key) table).
Proof.
  unfold resolvedBy. destruct (find _ table) as [x|] eqn:Hfind.
  - apply find_some in Hfind as [Hin Heq].
    apply String.eqb_eq in Heq. split; [done | by apply list_elem_of_In].
  - intros x Hx Hid.
    apply list_elem_of_In in Hx.
    pose proof (find_none _ _ Hfind x Hx) as Hne. simpl in Hne.
    rewrite Hid, String.eqb_refl in Hne. done.
Qed.

Lemma map_find_resolvedBy {A} (id : A -> string) (table : list A) keys :
  Forall2 (resolvedBy id table) keys
          (map (fun key => find (fun x => String.eqb (id x) key) table) keys).
Proof.
  induction keys as [|key keys IH]; simpl; constructor; [|done].
  apply find_resolvedBy.
Qed.

Lemma fullUnicorns_withRoles E roles unicorns :
  fullUnicorns E = Normal unicorns ->
  exists unicorns',
    fullUnicorns (withRoles E roles) = Normal unicorns'
    /\ map unicorn_roles unicorns' = map unicorn_roles unicorns.
Proof.
  unfold fullUnicorns.
  change (env_unicornsRaw (withRoles E roles)) with (env_unicornsRaw E).
  generalize (env_unicornsRaw E). intros raws. revert unicorns.
  induction raws as [|raw raws IH]; intros unicorns; simpl.
  - intros [= <-]. by exists [].
  - destruct (enrichUnicorn E raw) as [e|] eqn:He; simpl; [|done].
    destruct (mapC (enrichUnicorn E) raws) as [es|] eqn:Hes; simpl; [|done].
    intros [= <-].
    destruct (proj1 (enrichUnicorn_accepted (withRoles E roles) raw))
      as [e' He'].
    { change (mastodonAccepted (withRoles E roles) raw)
        with (mastodonAccepted E raw).
      apply enrichUnicorn_accepted. by exists e. }
    destruct (IH es eq_refl) as (es' & Hes' & Hroles).
    rewrite He', Hes'. simpl. exists (e' :: es'). split; [done|].
    simpl. rewrite Hroles. f_equal.
    apply enrichUnicorn_fields in He as (_ & _ & -> & _).
    by apply enrichUnicorn_fields in He' as (_ & _ & -> & _).
Qed.

Lemma fullUnicorns_rolesMeta E unicorns :
  fullUnicorns E = Normal unicorns ->
  Forall (fun enriched =>
            Forall2 (resolvedBy role_id (env_rolesRaw E))
                    (unicorn_roles enriched) (unicorn_rolesMeta enriched))
         unicorns.
Proof.
  intros Hfull. apply mapC_Normal_inv in Hfull.
  induction Hfull as [|raw e raws es He _ IH]; constructor; [|done].
  apply enrichUnicorn_fields in He as (_ & _ & -> & _ & _ & ->).
  apply map_find_resolvedBy.
Qed.

(** X6. The roles of an exported author are resolved one by one against
    [roles.json]: [rolesMeta] has an entry per role id, the role with that
    id where the table has one, and a hole where it has none. An unknown
    role id does not stop the load: a module that is loaded is loaded as
    well with any other table of roles, an empty one too, the authors
    keeping their role ids and the ids the table lacks leaving holes. *)
Theorem rolesMeta_resolved (E : Env) (exports : Exports) :
  loadModule E = Normal exports ->
  Forall (fun enriched =>
            Forall2 (resolvedBy role_id (env_rolesRaw E))
                    (unicorn_roles enriched) (unicorn_rolesMeta enriched))
         (exp_unicorns exports)
  /\ forall roles : list RolesEnum,
       exists exports',
         loadModule (withRoles E roles) = Normal exports'
         /\ map unicorn_roles (exp_unicorns exports')
            = map unicorn_roles (exp_unicorns exports)
         /\ Forall (fun enriched =>
                      Forall2 (resolvedBy role_id roles)
                              (unicorn_roles enriched)
                              (unicorn_rolesMeta enriched))
                   (exp_unicorns exports').
Proof.
  intros Hload.
  apply loadModule_Normal in Hload as (unicorns & Hfull & ->). simpl.
  split; [by apply fullUnicorns_rolesMeta|].
  intros roles.
  destruct (fullUnicorns_withRoles E roles unicorns Hfull)
    as (unicorns' & Hfull' & Hroles).
  unfold loadModule. rewrite Hfull'. simpl. eexists. split; [done|]. simpl.
  split; [done|].
  by apply (fullUnicorns_rolesMeta (withRoles E roles)).
Qed.

Lemma rolesMeta_resolved_witness :
  exists exports exports',
    loadModule Demo.env = Normal exports
    /\ loadModule (withRoles Demo.env []) = Normal exports'
    /\ map unicorn_roles (exp_unicorns exports') = [["author"]]
    /\ map unicorn_rolesMeta (exp_unicorns exports') = [[None]].
Proof.
  destruct (loadModule Demo.env) as [exports|msg] eqn:Hload;
    [|by vm_compute in Hload].
  destruct (rolesMeta_resolved Demo.env exports Hload) as [_ Hany].
  destruct (Hany []) as (exports' & Hload' & Hroles & Hresolved).
  exists exports, exports'. split; [done|]. split; [done|].
  assert (Hauthors : map unicorn_roles (exp_unicorns exports) = [["author"]]).
  { vm_compute in Hload. by injection Hload as <-. }
  rewrite Hauthors in Hroles. split; [done|].
  destruct (exp_unicorns exports') as [|e [|e' es]]; try done.
  injection Hroles as Hroles. simpl.
  apply Forall_cons in Hresolved as [Hresolved _].
  rewrite Hroles in Hresolved.
  inversion Hresolved as [|role meta roles metas Hmeta Hrest]; subst.
  inversion Hrest; subst.
  destruct meta as [role'|]; [|done].
  destruct Hmeta as [_ Hin]. by apply elem_of_nil in Hin.
Defined.

(** ** Where the records come from *)

Lemma getPosts_elem_origin E unicorns heap collections p :
  p ∈ (getPosts E unicorns heap collections).1 ->
  exists slug i file,
    slug ∈ List.filter (env_isNotJunk E) (env_readdirSync E (postsDirectory E))
    /\ indexFiles E (env_join E [postsDirectory E; slug]) !! i = Some file
    /\ clearBanner p
       = (postOfFile E unicorns heap collections slug
            (localesOf (indexFiles E (env_join E [postsDirectory E; slug])))
            i file).1.
Proof.
  intros Hp. apply getPosts_elem_built in Hp.
  apply list_elem_of_In, in_map_iff in Hp as (x & Hx & Hbuilt).
  apply list_elem_of_In, builtPosts_elem in Hbuilt
    as (slug & i & file & Hslug & Hfile & ->).
  by exists slug, i, file.
Qed.

Lemma getCollections_elem_origin E unicorns c :
  c ∈ getCollections E unicorns ->
  (exists slug i file,
      slug ∈ List.filter (env_isNotJunk E)
               (env_readdirSync E (collectionsDirectory E))
      /\ indexFiles E (env_join E [collectionsDirectory E; slug]) !! i = Some file
      /\ c = collectionOfFile E unicorns slug
               (localesOf (indexFiles E (env_join E [collectionsDirectory E; slug])))
               i file)
  \/ (exists entry,
         entry ∈ env_collectionMapping E
         /\ c = collectionOfMapping E unicorns entry).
Proof.
  unfold getCollections. rewrite Array_sort_Permutation.
  unfold allCollections. rewrite elem_of_app. intros [H|H].
  - left. apply list_elem_of_In, in_flat_map in H as (slug & Hslug & H).
    apply list_elem_of_In, list_elem_of_lookup in H as [i H].
    unfold collectionsOfSlug in H. rewrite list_lookup_imap in H.
    destruct (indexFiles E _ !! i) as [file|] eqn:Hfile; [|done].
    injection H as <-. exists slug, i, file.
    by rewrite list_elem_of_In.
  - right. apply list_elem_of_In, in_map_iff in H as (entry & <- & Hin).
    exists entry. by rewrite list_elem_of_In.
Qed.

(** The fields of a post as [postOfFile] sets them *)
Lemma postOfFile_fields E unicorns heap collections slug locales i file :
  let contents :=
    env_readFileSync E (env_join E [postsDirectory E; slug; file]) in
  let frontmatter := env_matterPost E contents in
  let post := (postOfFile E unicorns heap collections slug locales i file).1 in
  post_slug post = slug
  /\ post_locales post = locales
  /\ post_locale post = localeAt locales i
  /\ post_published post = raw_published frontmatter
  /\ post_authors post = raw_authors frontmatter
  /\ post_authorsMeta post
     = map (fun key => find (fun u => String.eqb (unicorn_id u) key) unicorns)
           (raw_authors frontmatter)
  /\ post_license post = raw_license frontmatter
  /\ post_licenseMeta post
     = (if truthy (raw_license frontmatter)
        then find (fun l => String.eqb (license_id l) (raw_license frontmatter))
                  (env_licensesRaw E)
        else None)
  /\ post_collection post = raw_collection frontmatter
  /\ post_collectionMeta post
     = match raw_collection frontmatter with
       | Some c => if truthy c then findCollection heap collections c else None
       | None => None
       end
  /\ post_socialImg post = "/generated/" +:+ slug +:+ ".twitter-preview.jpg"
  /\ post_wordCount post = wordCount contents.
Proof.
  intros contents frontmatter post. subst post.
  unfold postOfFile. rewrite filterTags_spec. simpl. by repeat split.
Qed.

(** X7. In every post of [getPosts] and in every collection of
    [getCollections], [authorsMeta] has an entry per author id: the author
    with that id where the author list has one, a hole where it has none. *)
Theorem authorsMeta_resolved (E : Env) unicorns heap collections :
  (forall post,
     post ∈ (getPosts E unicorns heap collections).1 ->
     Forall2 (resolvedBy unicorn_id unicorns)
             (post_authors post) (post_authorsMeta post))
  /\ (forall collection,
        collection ∈ getCollections E unicorns ->
        Forall2 (resolvedBy unicorn_id unicorns)
                (coll_authors collection) (coll_authorsMeta collection)).
Proof.
  split.
  - intros post Hpost.
    apply getPosts_elem_origin in Hpost as (slug & i & file & _ & _ & Hbuilt).
    change (post_authors post) with (post_authors (clearBanner post)).
    change (post_authorsMeta post) with (post_authorsMeta (clearBanner post)).
    rewrite Hbuilt.
    destruct (postOfFile_fields E unicorns heap collections slug
                (localesOf (indexFiles E (env_join E [postsDirectory E; slug])))
                i file) as (_ & _ & _ & _ & -> & -> & _).
    apply map_find_resolvedBy.
  - intros collection Hc.
    apply getCollections_elem_origin in Hc
      as [(slug & i & file & _ & _ & ->)|([slug fm] & _ & ->)];
      apply (map_find_resolvedBy unicorn_id unicorns).
Qed.

Lemma authorsMeta_resolved_witness :
  Forall (fun post =>
            Forall2 (resolvedBy unicorn_id Demo.unicorns)
                    (post_authors post) (post_authorsMeta post))
         (postsStage Demo.env Demo.unicorns).1.
Proof.
  apply Forall_forall. intros post Hpost.
  by apply (proj1 (authorsMeta_resolved Demo.env Demo.unicorns
                     (collectionsStage Demo.env Demo.unicorns).1
                     (collectionsStage Demo.env Demo.unicorns).2)).
Defined.

(** X8. The [licenseMeta] of a post of [getPosts] is the license of
    [licenses.json] with the id the post names; it is absent exactly when
    the post names no license or the table has none of that id. *)
Theorem licenseMeta_resolved (E : Env) unicorns heap collections post :
  post ∈ (getPosts E unicorns heap collections).1 ->
  match post_licenseMeta post with
  | Some license =>
      license_id license = post_license post
      /\ license ∈ env_licensesRaw E
      /\ post_license post <> ""
  | None =>
      post_license post = ""
      \/ forall license,
           license ∈ env_licensesRaw E ->
           license_id license <> post_license post
  end.
Proof.
  intros Hpost.
  apply getPosts_elem_origin in Hpost as (slug & i & file & _ & _ & Hbuilt).
  change (post_licenseMeta post) with (post_licenseMeta (clearBanner post)).
  change (post_license post) with (post_license (clearBanner post)).
  rewrite Hbuilt.
  destruct (postOfFile_fields E unicorns heap collections slug
              (localesOf (indexFiles E (env_join E [postsDirectory E; slug])))
              i file) as (_ & _ & _ & _ & _ & _ & -> & -> & _).
  set (license := raw_license _).
  unfold truthy. destruct (String.eqb_spec license "") as [->|Hne]; simpl.
  - by left.
  - pose proof (find_resolvedBy license_id (env_licensesRaw E) license) as H.
    unfold resolvedBy in H. destruct (find _ _) as [l|]; [|by right].
    destruct H as [Hid Hin]. by rewrite Hid.
Qed.

Lemma licenseMeta_resolved_witness :
  exists post license,
    (postsStage Demo.env Demo.unicorns).1 !! 0 = Some post
    /\ post_licenseMeta post = Some license
    /\ license_id license = post_license post.
Proof.
  eexists _, _. split; [vm_compute; reflexivity|].
  split; [vm_compute; reflexivity|].
  match goal with
  | |- license_id ?l = post_license ?p =>
      pose proof (licenseMeta_resolved Demo.env Demo.unicorns
                    (collectionsStage Demo.env Demo.unicorns).1
                    (collectionsStage Demo.env Demo.unicorns).2 p) as H
  end.
  apply H. apply (list_elem_of_lookup_2 _ 0). vm_compute. reflexivity.
Defined.

Lemma find_first {A} (f : A -> bool) l x :
  find f l = Some x ->
  exists l1 l2,
    l = l1 ++ x :: l2 /\ f x = true /\ Forall (fun y => f y = false) l1.
Proof.
  induction l as [|y l IH]; simpl; [done|].
  destruct (f y) eqn:Hy.
  - intros [= ->]. exists [], l. by repeat split.
  - intros H. destruct (IH H) as (l1 & l2 & -> & Hx & Hl1).
    exists (y :: l1), l2. repeat split; [done|]. by constructor.
Qed.

Lemma find_None_Forall {A} (f : A -> bool) l :
  find f l = None -> Forall (fun y => f y = false) l.
Proof.
  intros H. apply Forall_forall. intros y Hy.
  apply (find_none _ _ H). by apply list_elem_of_In.
Qed.

(** The references the collection search passes over: none of them leads to
    a collection with the slug. *)
Lemma findCollection_skipped (heap : list CollectionInfo) slug (refs : list nat) :
  Forall (fun a =>
            match heap !! a with
            | Some collection => String.eqb (coll_slug collection) slug
            | None => false
            end = false) refs ->
  Forall (fun a =>
            forall collection,
              heap !! a = Some collection -> coll_slug collection <> slug) refs.
Proof.
  intros H. eapply Forall_impl; [exact H|]. intros a Ha c Hc Hslug.
  simpl in Ha. rewrite Hc, Hslug, String.eqb_refl in Ha. done.
Qed.

(** X9. The [collectionMeta] of a post of [getPosts] refers to the first
    collection of the collection list, whatever its locale, whose slug is
    the [collection] of the post; it is absent exactly when the post names
    no collection or no collection of the list has that slug. *)
Theorem collectionMeta_first_by_slug (E : Env) unicorns heap collections post :
  post ∈ (getPosts E unicorns heap collections).1 ->
  match post_collectionMeta post with
  | Some a =>
      exists collection earlier later,
        heap !! a = Some collection
        /\ post_collection post = Some (coll_slug collection)
        /\ collections = earlier ++ a :: later
        /\ Forall (fun a' =>
                     forall collection',
                       heap !! a' = Some collection' ->
                       coll_slug collection' <> coll_slug collection)
                  earlier
  | None =>
      post_collection post = None
      \/ post_collection post = Some ""
      \/ exists slug,
           post_collection post = Some slug
           /\ Forall (fun a' =>
                        forall collection',
                          heap !! a' = Some collection' ->
                          coll_slug collection' <> slug)
                     collections
  end.
Proof.
  intros Hpost.
  apply getPosts_elem_origin in Hpost as (slug & i & file & _ & _ & Hbuilt).
  change (post_collectionMeta post) with (post_collectionMeta (clearBanner post)).
  change (post_collection post) with (post_collection (clearBanner post)).
  rewrite Hbuilt.
  destruct (postOfFile_fields E unicorns heap collections slug
              (localesOf (indexFiles E (env_join E [postsDirectory E; slug])))
              i file) as (_ & _ & _ & _ & _ & _ & _ & _ & -> & -> & _).
  destruct (raw_collection _) as [c|]; [|by left].
  unfold truthy. destruct (String.eqb_spec c "") as [->|Hne]; simpl;
    [by right; left|].
  unfold findCollection. destruct (find _ collections) as [a|] eqn:Hfind.
  - apply find_first in Hfind as (earlier & later & -> & Ha & Hearlier).
    destruct (heap !! a) as [collection|] eqn:Hheap; [|done].
    apply String.eqb_eq in Ha. subst c.
    exists collection, earlier, later. repeat split; try done.
    by apply findCollection_skipped.
  - right. right. exists c. split; [done|].
    by apply findCollection_skipped, find_None_Forall.
Qed.

Lemma collectionMeta_first_by_slug_witness :
  exists post collection,
    (postsStage Demo.env Demo.unicorns).1 !! 5 = Some post
    /\ post_locale post = Some "en"
    /\ post_collectionMeta post = Some 0
    /\ (collectionsStage Demo.env Demo.unicorns).1 !! 0 = Some collection
    /\ coll_locale collection = Some "es"
    /\ post_collection post = Some (coll_slug collection).
Proof.
  assert (Hpost : exists post,
             (postsStage Demo.env Demo.unicorns).1 !! 5 = Some post
             /\ post_locale post = Some "en"
             /\ post_collectionMeta post = Some 0).
  { eexists.
    split; [vm_compute; reflexivity|]. split; vm_compute; reflexivity. }
  destruct Hpost as (post & Hpost & Hlocale & Hmeta).
  pose proof (collectionMeta_first_by_slug Demo.env Demo.unicorns
                (collectionsStage Demo.env Demo.unicorns).1
                (collectionsStage Demo.env Demo.unicorns).2 post
                (list_elem_of_lookup_2 _ _ _ Hpost)) as H.
  rewrite Hmeta in H.
  destruct H as (collection & _ & _ & Hheap & Hslug & _).
  exists post, collection.
  split; [exact Hpost|]. split; [exact Hlocale|]. split; [exact Hmeta|].
  split; [exact Hheap|]. split; [|exact Hslug].
  vm_compute in Hheap. injection Hheap as <-. reflexivity.
Defined.

(** ** What every record carries *)

Lemma flat_map_imap_length {A B C} (h : A -> list B) (g : A -> nat -> B -> C) l :
  length (flat_map (fun a => imap (g a) (h a)) l) = length (flat_map h l).
Proof.
  induction l as [|a l IH]; simpl; [done|].
  by rewrite !length_app, length_imap, IH.
Qed.

Lemma getPosts_elem_of_file E unicorns heap collections slug i file :
  slug ∈ List.filter (env_isNotJunk E) (env_readdirSync E (postsDirectory E)) ->
  indexFiles E (env_join E [postsDirectory E; slug]) !! i = Some file ->
  exists post,
    post ∈ (getPosts E unicorns heap collections).1
    /\ clearBanner post
       = (postOfFile E unicorns heap collections slug
            (localesOf (indexFiles E (env_join E [postsDirectory E; slug])))
            i file).1.
Proof.
  intros Hslug Hfile.
  set (built := postOfFile E unicorns heap collections slug _ i file).
  assert (Hbuilt : built ∈ builtPosts E unicorns heap collections).
  { apply builtPosts_elem. by exists slug, i, file. }
  assert (Hemitted : built.1
                     ∈ map clearBanner (getPosts E unicorns heap collections).1).
  { rewrite getPosts_clearBanner, Array_sort_Permutation.
    apply list_elem_of_In, in_map. by apply list_elem_of_In. }
  apply list_elem_of_In, in_map_iff in Hemitted as (post & Hpost & Hin).
  exists post. split; [by apply list_elem_of_In | done].
Qed.

(** X10. The records are those of the files, one for each. Every post of
    [getPosts] is, its banner apart, the record built from an index file
    of a directory of [content/blog] that is not junk, and every such file
    has its record among the posts; every collection of [getCollections]
    is the record of an index file of such a directory of
    [content/collections] or of an entry of the collection mapping, and
    every such file and entry has its record among the collections. There
    are as many posts as index files, and as many collections as index
    files and entries: nothing else produces a record and no file is left
    out. *)
Theorem record_counts (E : Env) unicorns heap collections :
  (forall post,
     post ∈ (getPosts E unicorns heap collections).1 ->
     exists slug i file,
       slug ∈ List.filter (env_isNotJunk E)
                (env_readdirSync E (postsDirectory E))
       /\ indexFiles E (env_join E [postsDirectory E; slug]) !! i = Some file
       /\ clearBanner post
          = (postOfFile E unicorns heap collections slug
               (localesOf (indexFiles E (env_join E [postsDirectory E; slug])))
               i file).1)
  /\ (forall slug i file,
        slug ∈ List.filter (env_isNotJunk E)
                 (env_readdirSync E (postsDirectory E)) ->
        indexFiles E (env_join E [postsDirectory E; slug]) !! i = Some file ->
        exists post,
          post ∈ (getPosts E unicorns heap collections).1
          /\ clearBanner post
             = (postOfFile E unicorns heap collections slug
                  (localesOf
                     (indexFiles E (env_join E [postsDirectory E; slug])))
                  i file).1)
  /\ length (getPosts E unicorns heap collections).1
     = length (flat_map
                 (fun slug => indexFiles E (env_join E [postsDirectory E; slug]))
                 (List.filter (env_isNotJunk E)
                    (env_readdirSync E (postsDirectory E))))
  /\ (forall collection,
        collection ∈ getCollections E unicorns ->
        (exists slug i file,
            slug ∈ List.filter (env_isNotJunk E)
                     (env_readdirSync E (collectionsDirectory E))
            /\ indexFiles E (env_join E [collectionsDirectory E; slug]) !! i
               = Some file
            /\ collection
               = collectionOfFile E unicorns slug
                   (localesOf
                      (indexFiles E (env_join E [collectionsDirectory E; slug])))
                   i file)
        \/ (exists entry,
               entry ∈ env_collectionMapping E
               /\ collection = collectionOfMapping E unicorns entry))
  /\ (forall slug i file,
        slug ∈ List.filter (env_isNotJunk E)
                 (env_readdirSync E (collectionsDirectory E)) ->
        indexFiles E (env_join E [collectionsDirectory E; slug]) !! i = Some file ->
        collectionOfFile E unicorns slug
          (localesOf (indexFiles E (env_join E [collectionsDirectory E; slug])))
          i file
        ∈ getCollections E unicorns)
  /\ (forall entry,
        entry ∈ env_collectionMapping E ->
        collectionOfMapping E unicorns entry ∈ getCollections E unicorns)
  /\ length (getCollections E unicorns)
     = length (flat_map
                 (fun slug =>
                    indexFiles E (env_join E [collectionsDirectory E; slug]))
                 (List.filter (env_isNotJunk E)
                    (env_readdirSync E (collectionsDirectory E))))
       + length (env_collectionMapping E).
Proof.
  split; [by apply getPosts_elem_origin|].
  split; [by apply getPosts_elem_of_file|].
  split; [|split; [by apply getCollections_elem_origin|split; [|split]]].
  - rewrite getPosts_unfold, bannerLoop_length.
    rewrite (Permutation_length (Array_sort_Permutation _ _)), length_map.
    unfold builtPosts.
    apply (flat_map_imap_length
             (fun slug => indexFiles E (env_join E [postsDirectory E; slug]))
             (fun slug =>
                postOfFile E unicorns heap collections slug
                  (localesOf
                     (indexFiles E (env_join E [postsDirectory E; slug]))))).
  - intros slug i file Hslug Hfile.
    unfold getCollections. rewrite Array_sort_Permutation.
    unfold allCollections. apply elem_of_app. left.
    apply list_elem_of_In, in_flat_map. exists slug.
    split; [by apply list_elem_of_In|].
    apply list_elem_of_In, list_elem_of_lookup. exists i.
    unfold collectionsOfSlug. by rewrite list_lookup_imap, Hfile.
  - intros entry Hentry.
    unfold getCollections. rewrite Array_sort_Permutation.
    unfold allCollections. apply elem_of_app. right.
    apply list_elem_of_In, in_map. by apply list_elem_of_In.
  - unfold getCollections.
    rewrite (Permutation_length (Array_sort_Permutation _ _)).
    unfold allCollections. rewrite length_app, length_map. f_equal.
    apply (flat_map_imap_length
             (fun slug =>
                indexFiles E (env_join E [collectionsDirectory E; slug]))
             (fun slug =>
                collectionOfFile E unicorns slug
                  (localesOf
                     (indexFiles E (env_join E [collectionsDirectory E; slug]))))).
Qed.

Lemma bannerLoop_elem m ps q :
  q ∈ bannerLoop m ps ->
  exists p, p ∈ ps /\ (q = p \/ q = setBannerImg p (bannerPath p)).
Proof.
  revert m. induction ps as [|p ps IH]; intros m Hq; cbn [bannerLoop] in Hq.
  - by apply elem_of_nil in Hq.
  - destruct (nextCount m _) as [count|];
      apply elem_of_cons in Hq as [->|Hq].
    + exists p. split; [by left|]. destruct (_ || _); auto.
    + destruct (IH _ Hq) as (p' & Hp' & H). exists p'. split; [by right | done].
    + exists p. split; [by left | by left].
    + destruct (IH _ Hq) as (p' & Hp' & H). exists p'. split; [by right | done].
Qed.

(** X11. Every post of [getPosts] has the slug of a directory of
    [content/blog] that is not junk; its [socialImg] is the preview path of
    that slug, and its [bannerImg], where it has one, the banner path of
    that slug. *)
Theorem image_paths_follow_slug (E : Env) unicorns heap collections post :
  post ∈ (getPosts E unicorns heap collections).1 ->
  post_slug post
    ∈ List.filter (env_isNotJunk E) (env_readdirSync E (postsDirectory E))
  /\ post_socialImg post
     = "/generated/" +:+ post_slug post +:+ ".twitter-preview.jpg"
  /\ (post_bannerImg post = None
      \/ post_bannerImg post
         = Some ("/generated/" +:+ post_slug post +:+ ".banner.jpg")).
Proof.
  intros Hpost.
  pose proof (getPosts_elem_origin _ _ _ _ _ Hpost)
    as (slug & i & file & Hslug & _ & Hbuilt).
  destruct (postOfFile_fields E unicorns heap collections slug
              (localesOf (indexFiles E (env_join E [postsDirectory E; slug])))
              i file) as (Hs & _ & _ & _ & _ & _ & _ & _ & _ & _ & Himg & _).
  rewrite <- Hbuilt in Hs, Himg. simpl in Hs, Himg.
  split; [by rewrite Hs|]. split; [by rewrite Himg, Hs|].
  rewrite getPosts_unfold in Hpost.
  apply bannerLoop_elem in Hpost as (p & Hp & [->| ->]).
  - left. pose proof (sortedPosts_fresh E unicorns heap collections) as Hf.
    rewrite Forall_forall in Hf. by destruct (Hf p Hp).
  - by right.
Qed.

Lemma image_paths_follow_slug_witness :
  exists post,
    (postsStage Demo.env Demo.unicorns).1 !! 0 = Some post
    /\ post_socialImg post = "/generated/b.twitter-preview.jpg".
Proof.
  eexists. split; [vm_compute; reflexivity|].
  match goal with
  | |- post_socialImg ?p = _ =>
      destruct (image_paths_follow_slug Demo.env Demo.unicorns
                  (collectionsStage Demo.env Demo.unicorns).1
                  (collectionsStage Demo.env Demo.unicorns).2 p)
        as (_ & Himg & _)
  end.
  - apply (list_elem_of_lookup_2 _ 0). vm_compute. reflexivity.
  - rewrite Himg. reflexivity.
Defined.

(** X12. The [locales] of a post of [getPosts] are the locales of all the
    index files of the directory of the post, in the order of the files,
    every one of them defined; the post is the record of one of these
    files, and its locale is the entry of [locales] at the position of
    that very file among the index files. *)
Theorem locales_list_the_directory (E : Env) unicorns heap collections post :
  post ∈ (getPosts E unicorns heap collections).1 ->
  let files := indexFiles E (env_join E [postsDirectory E; post_slug post]) in
  post_locales post = localesOf files
  /\ length (post_locales post) = length files
  /\ Forall (fun locale => is_Some locale) (post_locales post)
  /\ exists i file l,
       files !! i = Some file
       /\ clearBanner post
          = (postOfFile E unicorns heap collections (post_slug post)
               (localesOf files) i file).1
       /\ post_locales post !! i = Some (Some l)
       /\ post_locale post = Some l.
Proof.
  intros Hpost files.
  apply getPosts_elem_origin in Hpost as (slug & i & file & _ & Hfile & Hbuilt).
  destruct (postOfFile_fields E unicorns heap collections slug
              (localesOf (indexFiles E (env_join E [postsDirectory E; slug])))
              i file) as (Hs & Hls & Hl & _).
  rewrite <- Hbuilt in Hs, Hls, Hl. simpl in Hs, Hls, Hl.
  subst files. rewrite Hs.
  set (files := indexFiles E (env_join E [postsDirectory E; slug])) in *.
  split; [done|]. split; [by rewrite Hls, localesOf_length|]. split.
  - rewrite Hls. apply Forall_forall. intros locale Hlocale.
    apply list_elem_of_lookup in Hlocale as [j Hj].
    destruct (lookup_lt_is_Some_2 files j) as [f Hf].
    { rewrite <- (localesOf_length files). by eapply lookup_lt_Some. }
    destruct (localesOf_index files j f Hf) as [l Hlj].
    { eapply indexFiles_isIndexFile, list_elem_of_lookup_2, Hf. }
    rewrite Hlj in Hj. injection Hj as <-. by eexists.
  - destruct (localesOf_index files i file Hfile) as [l Hli].
    { eapply indexFiles_isIndexFile, list_elem_of_lookup_2, Hfile. }
    exists i, file, l. split; [done|]. split; [done|].
    rewrite Hls. split; [done|].
    rewrite Hl. unfold localeAt. by rewrite Hli.
Qed.

Lemma locales_list_the_directory_witness :
  exists post,
    (postsStage Demo.env Demo.unicorns).1 !! 6 = Some post
    /\ post_locale post = Some "es"
    /\ post_locales post = [Some "en"; Some "es"].
Proof.
  eexists. split; [vm_compute; reflexivity|].
  split; [vm_compute; reflexivity|].
  match goal with
  | |- post_locales ?p = _ =>
      destruct (locales_list_the_directory Demo.env Demo.unicorns
                  (collectionsStage Demo.env Demo.unicorns).1
                  (collectionsStage Demo.env Demo.unicorns).2 p)
        as (Hls & _)
  end.
  - apply (list_elem_of_lookup_2 _ 6). vm_compute. reflexivity.
  - rewrite Hls. vm_compute. reflexivity.
Defined.

Lemma cons_head_length c ps : ps <> [] -> length (JS.cons_head c ps) = length ps.
Proof. by destruct ps. Qed.

Lemma splitWsL_nonempty b s : JS.splitWsL b s <> [].
Proof.
  revert b. induction s as [|c s IH]; intros b; simpl; [done|].
  destruct (JS.isWhiteSpace c).
  - destruct b; [apply IH | done].
  - specialize (IH false). by destruct (JS.splitWsL false s).
Qed.

Lemma splitWsL_length_bounds b s :
  1 <= length (JS.splitWsL b s) <= length s + 1.
Proof.
  revert b. induction s as [|c s IH]; intros b; simpl; [lia|].
  destruct (JS.isWhiteSpace c).
  - destruct b; simpl; [specialize (IH true) | specialize (IH true)]; lia.
  - rewrite cons_head_length by apply splitWsL_nonempty.
    specialize (IH false). lia.
Qed.

Lemma splitWsL_one_piece b s :
  existsb JS.isWhiteSpace s = false -> length (JS.splitWsL b s) = 1.
Proof.
  revert b. induction s as [|c s IH]; intros b; simpl; [done|].
  destruct (JS.isWhiteSpace c); simpl; [done|]. intros H.
  rewrite cons_head_length by apply splitWsL_nonempty. by apply IH.
Qed.

Lemma splitWsL_more_pieces s :
  existsb JS.isWhiteSpace s = true -> 2 <= length (JS.splitWsL false s).
Proof.
  induction s as [|c s IH]; simpl; [done|].
  destruct (JS.isWhiteSpace c); simpl.
  - intros _. pose proof (splitWsL_length_bounds true s). lia.
  - intros H. rewrite cons_head_length by apply splitWsL_nonempty. by apply IH.
Qed.

(** X13. The word count is never 0: it is 1 exactly for a text without
    any whitespace, the empty text included, and it is at most the length
    of the text plus 1. *)
Theorem wordCount_bounds (text : string) :
  1 <= wordCount text <= String.length text + 1
  /\ (wordCount text = 1 <-> existsb JS.isWhiteSpace (JS.chars text) = false).
Proof.
  unfold wordCount, JS.splitWhitespace. rewrite length_map. split.
  - rewrite <- chars_length. apply splitWsL_length_bounds.
  - split.
    + intros H. destruct (existsb _ _) eqn:Hws; [|done].
      apply splitWsL_more_pieces in Hws. lia.
    + apply splitWsL_one_piece.
Qed.

(** ** The banner pass, locale by locale *)

Lemma bannerLoop_filter_key k (m m' : gmap string Z) ps :
  m !! k = m' !! k ->
  List.filter (underKey k) (bannerLoop m ps)
  = bannerLoop m' (List.filter (underKey k) ps).
Proof.
  revert m m'. induction ps as [|p ps IH]; intros m m' Hk; [done|].
  cbn [bannerLoop]. set (kp := propertyKey (post_locale p)).
  destruct (underKey k p) eqn:Hp.
  - assert (Hkp : kp = k) by (by apply String.eqb_eq in Hp).
    assert (Hcount : nextCount m' kp = nextCount m kp).
    { unfold nextCount. by rewrite Hkp, Hk. }
    cbn [List.filter]. rewrite Hp. cbn [bannerLoop]. fold kp. rewrite Hcount.
    destruct (nextCount m kp) as [count|].
    + set (post' := if (Z.rem count 8 =? 0)%Z || (Z.rem count 8 =? 4)%Z
                    then setBannerImg p
                           ("/generated/" +:+ post_slug p +:+ ".banner.jpg")
                    else p).
      assert (Hunder : underKey k post' = true)
        by (subst post'; by destruct (_ || _)).
      cbn [List.filter]. rewrite Hunder. f_equal.
      apply IH. by rewrite Hkp, !lookup_insert_eq.
    + cbn [List.filter]. rewrite Hp. f_equal. by apply IH.
  - assert (Hne : kp <> k).
    { intros Heq. unfold underKey in Hp. fold kp in Hp.
      by rewrite Heq, String.eqb_refl in Hp. }
    cbn [List.filter]. rewrite Hp.
    destruct (nextCount m kp) as [count|].
    + set (post' := if (Z.rem count 8 =? 0)%Z || (Z.rem count 8 =? 4)%Z
                    then setBannerImg p
                           ("/generated/" +:+ post_slug p +:+ ".banner.jpg")
                    else p).
      assert (Hunder : underKey k post' = false)
        by (subst post'; by destruct (_ || _)).
      cbn [List.filter]. rewrite Hunder.
      apply IH. by rewrite lookup_insert_ne.
    + cbn [List.filter]. rewrite Hp. by apply IH.
Qed.

Lemma hasLocale_underKey l ps :
  Forall (fun p => is_Some (post_locale p)) ps ->
  List.filter (hasLocale l) ps = List.filter (underKey l) ps.
Proof.
  intros Hall. apply filter_ext_in. intros p Hp.
  rewrite Forall_forall in Hall.
  destruct (Hall p) as [l' Hl']; [by apply list_elem_of_In|].
  unfold hasLocale, underKey. rewrite Hl'. simpl.
  destruct (String.eqb_spec l' l) as [->|Hne].
  - by rewrite bool_decide_eq_true_2.
  - rewrite bool_decide_eq_false_2; [done | congruence].
Qed.

Lemma bannerLoop_locales m ps :
  Forall (fun p => is_Some (post_locale p)) ps ->
  Forall (fun p => is_Some (post_locale p)) (bannerLoop m ps).
Proof.
  intros Hall. apply Forall_forall. intros q Hq.
  rewrite Forall_forall in Hall.
  apply bannerLoop_elem in Hq as (p & Hp & [->| ->]); exact (Hall p Hp).
Qed.

(** ** Records of equal date *)

Section StableSort.

Context {A : Type} (comparefn : A -> A -> Z) (key : A -> Z).

Lemma filter_cons_app (f : A -> bool) a l :
  List.filter f (a :: l) = (if f a then [a] else []) ++ List.filter f l.
Proof. simpl. by destruct (f a). Qed.

Lemma filter_key_above x l v :
  StronglySorted (keyDescending key) l ->
  (forall y, y ∈ l -> (key y < key x)%Z) ->
  key x = v ->
  List.filter (fun a => (key a =? v)%Z) l = [].
Proof.
  intros _ Hbelow Hv. induction l as [|y l IH]; [done|]. simpl.
  destruct (Z.eqb_spec (key y) v) as [Hy|_].
  - specialize (Hbelow y ltac:(left)). lia.
  - apply IH. intros z Hz. apply Hbelow. by right.
Qed.

Lemma insertSorted_stable x l v :
  StronglySorted (keyDescending key) l ->
  (forall y, y ∈ l -> (comparefn x y < 0 <-> key y < key x)%Z) ->
  List.filter (fun a => (key a =? v)%Z) (insertSorted comparefn x l)
  = List.filter (fun a => (key a =? v)%Z) l
      ++ List.filter (fun a => (key a =? v)%Z) [x].
Proof.
  intros Hs Hcmp. induction l as [|y l IH]; [done|].
  apply StronglySorted_inv in Hs as [Hs Hy].
  pose proof (Hcmp y ltac:(left)) as Hxy.
  simpl insertSorted. destruct (Z.ltb_spec (comparefn x y) 0) as [Hlt|Hge].
  - rewrite (filter_cons_app _ x (y :: l)), (filter_cons_app _ x []).
    rewrite app_nil_r.
    destruct (Z.eqb_spec (key x) v) as [Hv|Hv]; [|by rewrite app_nil_r].
    rewrite (filter_key_above x (y :: l) v); [done| | |done].
    + by constructor.
    + intros z Hz. apply elem_of_cons in Hz as [->|Hz]; [lia|].
      rewrite Forall_forall in Hy. specialize (Hy z Hz).
      unfold keyDescending in Hy. lia.
  - rewrite (filter_cons_app _ y (insertSorted comparefn x l)).
    rewrite (filter_cons_app _ y l), IH; [by rewrite app_assoc|done|].
    intros z Hz. apply Hcmp. by right.
Qed.

Lemma fold_insertSorted_stable l acc v :
  agreesOn comparefn key (acc ++ l) ->
  StronglySorted (keyDescending key) acc ->
  List.filter (fun a => (key a =? v)%Z)
    (fold_left (fun acc x => insertSorted comparefn x acc) l acc)
  = List.filter (fun a => (key a =? v)%Z) acc
      ++ List.filter (fun a => (key a =? v)%Z) l.
Proof.
  revert acc. induction l as [|x l IH]; intros acc Hag Hs; simpl fold_left.
  - by rewrite app_nil_r.
  - assert (Hx : forall y, y ∈ acc -> (comparefn x y < 0 <-> key y < key x)%Z).
    { intros y Hy. apply Hag; rewrite elem_of_app, elem_of_cons; auto. }
    rewrite IH.
    + rewrite insertSorted_stable by done.
      rewrite <- app_assoc. f_equal.
      rewrite (filter_cons_app _ x l), (filter_cons_app _ x []).
      by rewrite app_nil_r.
    + intros a b Ha Hb.
      apply Hag; rewrite elem_of_app, elem_of_cons;
        [clear Hb; rename Ha into H | clear Ha; rename Hb into H];
        rewrite elem_of_app, insertSorted_Permutation, elem_of_cons in H; tauto.
    + by apply insertSorted_descending.
Qed.

Lemma Array_sort_stable l v :
  agreesOn comparefn key l ->
  List.filter (fun a => (key a =? v)%Z) (Array_sort comparefn l)
  = List.filter (fun a => (key a =? v)%Z) l.
Proof.
  intros Hag. unfold Array_sort.
  rewrite fold_insertSorted_stable; [done | done | constructor].
Qed.

End StableSort.

Section StableByDate.

Variable E : Env.
Context {A : Type} (published : A -> string) (comparefn : A -> A -> Z).

Hypothesis comparefn_def :
  forall x y,
    comparefn x y
    = if Date_gt (env_Date_new E (published x)) (env_Date_new E (published y))
      then (-1)%Z else 1%Z.

Lemma publishedAt_key l t :
  allDated E published l ->
  List.filter (publishedAt E published t) l
  = List.filter
      (fun a => (default 0%Z (env_Date_new E (published a)) =? t)%Z) l.
Proof.
  intros Hall. apply filter_ext_in. intros a Ha.
  unfold allDated in Hall. rewrite Forall_forall in Hall.
  destruct (Hall a) as [ta Hta]; [by apply list_elem_of_In|].
  unfold publishedAt. rewrite Hta. simpl.
  destruct (Z.eqb_spec ta t) as [->|Hne].
  - by rewrite bool_decide_eq_true_2.
  - rewrite bool_decide_eq_false_2; [done | congruence].
Qed.

Lemma Array_sort_keeps_ties l t :
  allDated E published l ->
  List.filter (publishedAt E published t) (Array_sort comparefn l)
  = List.filter (publishedAt E published t) l.
Proof.
  intros Hall.
  rewrite publishedAt_key
    by (unfold allDated in *; by rewrite Array_sort_Permutation).
  rewrite (publishedAt_key l) by done.
  apply Array_sort_stable. intros x y Hx Hy.
  unfold allDated in Hall. rewrite Forall_forall in Hall.
  destruct (Hall x Hx) as [tx Htx], (Hall y Hy) as [ty Hty].
  rewrite comparefn_def, Htx, Hty. simpl.
  destruct (Z.ltb_spec ty tx); lia.
Qed.

End StableByDate.

Lemma filter_map_clearBanner (f : PostInfo -> bool) ps :
  (forall p, f (clearBanner p) = f p) ->
  List.filter f (map clearBanner ps) = map clearBanner (List.filter f ps).
Proof.
  intros Hf. induction ps as [|p ps IH]; simpl; [done|].
  rewrite Hf, IH. by destruct (f p).
Qed.

(** X15. Records published at the same time keep the order in which they
    were built, in both sorts: the collections of one date stand in
    [getCollections] as the directories, their files and then the mapping
    gave them, the posts of one date in [getPosts] as the directories and
    their files gave them. This holds where every published string is a
    date; the sort is the engine's, which moves a record only on a
    negative answer of the comparison function. *)
Theorem equal_dates_keep_arrival_order (E : Env) unicorns heap collections
    (t : Z) :
  (allDated E coll_published (allCollections E unicorns) ->
   List.filter (publishedAt E coll_published t) (getCollections E unicorns)
   = List.filter (publishedAt E coll_published t) (allCollections E unicorns))
  /\ (allDated E post_published
               (map fst (builtPosts E unicorns heap collections)) ->
      map clearBanner
        (List.filter (publishedAt E post_published t)
           (getPosts E unicorns heap collections).1)
      = List.filter (publishedAt E post_published t)
          (map fst (builtPosts E unicorns heap collections))).
Proof.
  split.
  - intros Hall. by apply (Array_sort_keeps_ties E coll_published).
  - intros Hall. rewrite <- filter_map_clearBanner by done.
    rewrite getPosts_clearBanner.
    by apply (Array_sort_keeps_ties E post_published).
Qed.

Lemma equal_dates_keep_arrival_order_witness :
  map clearBanner
    (List.filter (publishedAt Demo.env post_published 1609632000000)
       (getPosts Demo.env Demo.unicorns
          (collectionsStage Demo.env Demo.unicorns).1
          (collectionsStage Demo.env Demo.unicorns).2).1)
  = List.filter (publishedAt Demo.env post_published 1609632000000)
      (map fst (builtPosts Demo.env Demo.unicorns
                  (collectionsStage Demo.env Demo.unicorns).1
                  (collectionsStage Demo.env Demo.unicorns).2)).
Proof.
  apply (equal_dates_keep_arrival_order Demo.env Demo.unicorns
           (collectionsStage Demo.env Demo.unicorns).1
           (collectionsStage Demo.env Demo.unicorns).2 1609632000000).
  unfold allDated. apply (bool_decide_unpack _). vm_compute. exact I.
Defined.

(** ** The linked collections *)

(** The object behind an exported reference: the collection of
    [getCollections] at the same position, with its posts. *)
Lemma exported_collection E exports a linked :
  loadModule E = Normal exports ->
  a ∈ exp_collections exports ->
  exp_heap exports !! a = Some linked ->
  exists i collection,
    a = length (getCollections E (exp_unicorns exports)) + i
    /\ getCollections E (exp_unicorns exports) !! i = Some collection
    /\ linked = withPosts collection
                  (List.filter (inCollection collection) (exp_posts exports)).
Proof.
  intros Hload Ha Hlinked.
  apply loadModule_Normal in Hload as (unicorns & _ & ->).
  cbn [exp_heap exp_collections exp_posts exp_unicorns] in *.
  rewrite linkStage_unfold in Ha, Hlinked. cbn [fst snd] in *.
  set (before := getCollections E unicorns) in *.
  apply elem_of_seq in Ha.
  exists (a - length before).
  rewrite lookup_app_r, lookup_map in Hlinked by lia.
  destruct (before !! (a - length before)) as [collection|] eqn:Hc; [|done].
  injection Hlinked as <-. exists collection. split; [lia|]. by split.
Qed.

Lemma inCollection_slug c1 c2 :
  coll_slug c1 = coll_slug c2 -> forall post, inCollection c1 post = inCollection c2 post.
Proof. intros H post. unfold inCollection. by rewrite H. Qed.

(** X16. Exported collections with the same slug hold the same posts: the
    translations of a collection all list the posts of every locale. *)
Theorem same_slug_same_posts (E : Env) exports a b linked_a linked_b :
  loadModule E = Normal exports ->
  a ∈ exp_collections exports ->
  b ∈ exp_collections exports ->
  exp_heap exports !! a = Some linked_a ->
  exp_heap exports !! b = Some linked_b ->
  coll_slug linked_a = coll_slug linked_b ->
  coll_posts linked_a = coll_posts linked_b.
Proof.
  intros Hload Ha Hb Hla Hlb Hslug.
  destruct (exported_collection E exports a linked_a Hload Ha Hla)
    as (i & ca & _ & _ & ->).
  destruct (exported_collection E exports b linked_b Hload Hb Hlb)
    as (j & cb & _ & _ & ->).
  simpl in *. f_equal. apply filter_ext. by apply inCollection_slug.
Qed.

Lemma same_slug_same_posts_witness :
  exists exports linked_a linked_b,
    loadModule Demo.env = Normal exports
    /\ exp_heap exports !! 3 = Some linked_a
    /\ exp_heap exports !! 4 = Some linked_b
    /\ coll_locale linked_a <> coll_locale linked_b
    /\ coll_posts linked_a = coll_posts linked_b.
Proof.
  destruct (loadModule Demo.env) as [exports|msg] eqn:Hload;
    [|by vm_compute in Hload].
  assert (Hexp : exp_collections exports = [3; 4; 5]
                 /\ (exists la lb,
                        exp_heap exports !! 3 = Some la
                        /\ exp_heap exports !! 4 = Some lb
                        /\ coll_slug la = coll_slug lb
                        /\ coll_locale la <> coll_locale lb)).
  { vm_compute in Hload. injection Hload as <-. split; [reflexivity|].
    eexists _, _. split; [reflexivity|]. split; [reflexivity|].
    split; [reflexivity | discriminate]. }
  destruct Hexp as (Hrefs & la & lb & Hla & Hlb & Hslug & Hlocale).
  exists exports, la, lb.
  split; [done|]. split; [done|]. split; [done|]. split; [done|].
  apply (same_slug_same_posts Demo.env exports 3 4 la lb Hload); try done;
    rewrite Hrefs; apply list_elem_of_In; simpl; auto.
Defined.

Lemma find_exists {A} (f : A -> bool) l x :
  x ∈ l -> f x = true -> exists y, find f l = Some y.
Proof.
  intros Hx Hf. destruct (find f l) as [y|] eqn:Hfind; [by exists y|].
  apply list_elem_of_In in Hx. pose proof (find_none _ _ Hfind x Hx). congruence.
Qed.

(** What the collection search of a post of the module returns *)
Lemma module_collectionMeta E unicorns post :
  post ∈ (postsStage E unicorns).1 ->
  post_collectionMeta post
  = match post_collection post with
    | Some c =>
        if truthy c
        then findCollection (getCollections E unicorns)
               (seq 0 (length (getCollections E unicorns))) c
        else None
    | None => None
    end.
Proof.
  rewrite postsStage_unfold. intros Hpost.
  apply getPosts_elem_origin in Hpost as (slug & i & file & _ & _ & Hbuilt).
  change (post_collectionMeta post) with (post_collectionMeta (clearBanner post)).
  change (post_collection post) with (post_collection (clearBanner post)).
  rewrite Hbuilt.
  by destruct (postOfFile_fields E unicorns (getCollections E unicorns)
                 (seq 0 (length (getCollections E unicorns))) slug
                 (localesOf (indexFiles E (env_join E [postsDirectory E; slug])))
                 i file) as (_ & _ & _ & _ & _ & _ & _ & _ & -> & -> & _).
Qed.

Lemma findCollection_Some (heap : list CollectionInfo) (refs : list nat) slug a :
  findCollection heap refs slug = Some a ->
  a ∈ refs /\ exists collection, heap !! a = Some collection /\ coll_slug collection = slug.
Proof.
  unfold findCollection. intros H. apply find_some in H as [Hin H].
  split; [by apply list_elem_of_In|].
  destruct (heap !! a) as [collection|]; [|done].
  exists collection. split; [done|]. by apply String.eqb_eq.
Qed.

(** X17. A post and its collection find each other. When the
    [collectionMeta] of an exported post refers to a collection, the
    exported collection at the same position is that collection with its
    posts, and the post is among them. Conversely every post among the
    posts of an exported collection names the slug of the collection and,
    the slug not being empty, has a [collectionMeta] that refers to a
    collection of that slug. *)
Theorem post_and_collection_agree (E : Env) exports :
  loadModule E = Normal exports ->
  (forall post a,
     post ∈ exp_posts exports ->
     post_collectionMeta post = Some a ->
     exists collection b posts,
       exp_heap exports !! a = Some collection
       /\ exp_collections exports !! a = Some b
       /\ exp_heap exports !! b = Some (withPosts collection posts)
       /\ post ∈ posts)
  /\ (forall b linked posts post,
        b ∈ exp_collections exports ->
        exp_heap exports !! b = Some linked ->
        coll_posts linked = Some posts ->
        post ∈ posts ->
        post ∈ exp_posts exports
        /\ post_collection post = Some (coll_slug linked)
        /\ (coll_slug linked <> "" ->
            exists a collection,
              post_collectionMeta post = Some a
              /\ exp_heap exports !! a = Some collection
              /\ coll_slug collection = coll_slug linked)).
Proof.
  intros Hload. split.
  - intros post a Hpost Hmeta.
    pose proof Hload as Hload'.
    apply loadModule_Normal in Hload' as (unicorns & _ & ->).
    cbn [exp_heap exp_collections exp_posts exp_unicorns] in *.
    rewrite (module_collectionMeta E unicorns post Hpost) in Hmeta.
    destruct (post_collection post) as [c|] eqn:Hc; [|done].
    destruct (truthy c); [|done].
    apply findCollection_Some in Hmeta as (Ha & collection & Hheap & Hslug).
    apply elem_of_seq in Ha.
    rewrite linkStage_unfold. cbn [fst snd].
    set (before := getCollections E unicorns) in *.
    exists collection, (length before + a),
      (List.filter (inCollection collection) (postsStage E unicorns).1).
    split; [by rewrite lookup_app_l by lia|].
    split; [apply lookup_seq_lt; lia|].
    split.
    + rewrite lookup_app_r by lia.
      replace (length before + a - length before) with a by lia.
      by rewrite lookup_map, Hheap.
    + apply list_elem_of_In, filter_In. split; [by apply list_elem_of_In|].
      unfold inCollection. rewrite Hc, Hslug. apply String.eqb_refl.
  - intros b linked posts post Hb Hlinked Hposts Hpost.
    destruct (exported_collection E exports b linked Hload Hb Hlinked)
      as (i & collection & _ & Hi & ->).
    simpl in Hposts. injection Hposts as <-.
    apply list_elem_of_In, filter_In in Hpost as [Hpost Hin].
    apply list_elem_of_In in Hpost.
    rewrite inCollection_spec, bool_decide_eq_true in Hin.
    split; [done|]. split; [done|]. simpl. intros Hne.
    apply loadModule_Normal in Hload as (unicorns & _ & ->).
    cbn [exp_heap exp_collections exp_posts exp_unicorns] in *.
    rewrite (module_collectionMeta E unicorns post Hpost), Hin.
    assert (Htruthy : truthy (coll_slug collection) = true).
    { unfold truthy. by destruct (String.eqb_spec (coll_slug collection) ""). }
    rewrite Htruthy.
    set (before := getCollections E unicorns) in *.
    pose proof (lookup_lt_Some _ _ _ Hi) as Hlt.
    destruct (find_exists
                (fun c => match before !! c with
                          | Some collection' =>
                              String.eqb (coll_slug collection') (coll_slug collection)
                          | None => false
                          end)
                (seq 0 (length before)) i) as [a Ha].
    { apply elem_of_seq. lia. }
    { by rewrite Hi, String.eqb_refl. }
    unfold findCollection. rewrite Ha.
    apply findCollection_Some in Ha as (Hin' & c' & Hc' & Hslug').
    apply elem_of_seq in Hin'.
    exists a, c'. split; [done|]. split; [|done].
    rewrite linkStage_unfold. cbn [fst snd]. fold before.
    by rewrite lookup_app_l by lia.
Qed.

Lemma post_and_collection_agree_witness :
  exists exports post collection b posts,
    loadModule Demo.env = Normal exports
    /\ exp_posts exports !! 5 = Some post
    /\ exp_heap exports !! 0 = Some collection
    /\ exp_collections exports !! 0 = Some b
    /\ exp_heap exports !! b = Some (withPosts collection posts)
    /\ post ∈ posts.
Proof.
  destruct (loadModule Demo.env) as [exports|msg] eqn:Hload;
    [|by vm_compute in Hload].
  destruct (post_and_collection_agree Demo.env exports Hload) as [Hthere _].
  assert (Hpost : exists post,
             exp_posts exports !! 5 = Some post
             /\ post_collectionMeta post = Some 0).
  { vm_compute in Hload. injection Hload as <-. eexists.
    split; vm_compute; reflexivity. }
  destruct Hpost as (post & Hpost & Hmeta).
  destruct (Hthere post 0 (list_elem_of_lookup_2 _ _ _ Hpost) Hmeta)
    as (collection & b & posts & H1 & H2 & H3 & H4).
  by exists exports, post, collection, b, posts.
Defined.

Lemma StronglySorted_filter {A} (R : A -> A -> Prop) (f : A -> bool) l :
  StronglySorted R l -> StronglySorted R (List.filter f l).
Proof.
  induction 1 as [|a l Hs IH Ha]; simpl; [constructor|].
  destruct (f a); [|done]. constructor; [done|].
  rewrite Forall_forall in *. intros b Hb.
  apply list_elem_of_In, filter_In in Hb as [Hb _]. by apply Ha, list_elem_of_In.
Qed.

(** The posts of [getPosts] in date order, the dates read off the posts
    themselves *)
Lemma getPosts_descending E unicorns heap collections :
  allDated E post_published (getPosts E unicorns heap collections).1 ->
  descendingByPublished E post_published (getPosts E unicorns heap collections).1.
Proof.
  intros Hall. unfold descendingByPublished.
  apply (StronglySorted_map clearBanner
           (fun a b => notEarlier E (post_published a) (post_published b))).
  rewrite getPosts_clearBanner.
  apply (Array_sort_descendingByPublished E post_published (comparePosts E));
    [reflexivity|].
  unfold allDated in *.
  rewrite <- (Array_sort_Permutation (comparePosts E)), <- getPosts_clearBanner.
  rewrite Forall_forall in *. intros p Hp.
  apply list_elem_of_In, in_map_iff in Hp as (p' & <- & Hp').
  by apply (Hall p'), list_elem_of_In.
Qed.

(** X18. The posts of an exported collection stand latest first: where
    every exported post has a published date, the [posts] of every
    exported collection are in non-increasing order of published date. *)
Theorem collection_posts_latest_first (E : Env) exports a linked posts :
  loadModule E = Normal exports ->
  allDated E post_published (exp_posts exports) ->
  a ∈ exp_collections exports ->
  exp_heap exports !! a = Some linked ->
  coll_posts linked = Some posts ->
  descendingByPublished E post_published posts.
Proof.
  intros Hload Hall Ha Hlinked Hposts.
  destruct (exported_collection E exports a linked Hload Ha Hlinked)
    as (i & collection & _ & _ & ->).
  simpl in Hposts. injection Hposts as <-.
  apply StronglySorted_filter.
  apply loadModule_Normal in Hload as (unicorns & _ & ->).
  cbn [exp_posts] in *. rewrite postsStage_unfold in *.
  by apply getPosts_descending.
Qed.

Lemma collection_posts_latest_first_witness :
  exists exports linked posts,
    loadModule Demo.env = Normal exports
    /\ exp_heap exports !! 4 = Some linked
    /\ coll_posts linked = Some posts
    /\ length posts = 4
    /\ descendingByPublished Demo.env post_published posts.
Proof.
  destruct (loadModule Demo.env) as [exports|msg] eqn:Hload;
    [|by vm_compute in Hload].
  assert (Hexp : allDated Demo.env post_published (exp_posts exports)
                 /\ 4 ∈ exp_collections exports
                 /\ exists linked posts,
                      exp_heap exports !! 4 = Some linked
                      /\ coll_posts linked = Some posts
                      /\ length posts = 4).
  { vm_compute in Hload. injection Hload as <-.
    split; [unfold allDated; apply (bool_decide_unpack _); vm_compute; exact I|].
    split; [apply (list_elem_of_lookup_2 _ 1); vm_compute; reflexivity|].
    eexists _, _. split; [vm_compute; reflexivity|].
    split; vm_compute; reflexivity. }
  destruct Hexp as (Hall & Hin & linked & posts & Hlinked & Hposts & Hlen).
  exists exports, linked, posts.
  split; [done|]. split; [done|]. split; [done|]. split; [done|].
  exact (collection_posts_latest_first Demo.env exports 4 linked posts
           Hload Hall Hin Hlinked Hposts).
Defined.

(** ** The names of the index files *)

Lemma startsWithL_prefix p rest : JS.startsWithL p (p ++ rest) = true.
Proof. induction p as [|a p IH]; simpl; [done|]. by rewrite Ascii.eqb_refl. Qed.

(** X19. The names the file filter of both aggregators accepts are
    [index.md], where the prefix and the suffix share the dot, and
    [index.] followed by any text, the empty one too, and [.md]. *)
Theorem isIndexFile_names (name : string) :
  isIndexFile name = true
  <-> name = "index.md" \/ exists l, name = "index." +:+ l +:+ ".md".
Proof.
  split.
  - intros H. apply andb_prop in H as [Hstart Hend].
    apply startsWithL_app in Hstart as [rest Hname].
    unfold JS.endsWith in Hend. rewrite Hname in Hend.
    rewrite rev_app_distr in Hend.
    assert (Hn : name = JS.str (JS.chars "index." ++ rest))
      by (by rewrite <- Hname, str_chars).
    destruct (rev rest) as [|c1 [|c2 [|c3 r]]] eqn:Hrest;
      apply (f_equal (@rev ascii)) in Hrest; rewrite rev_involutive in Hrest;
      simpl in Hrest; subst rest.
    + discriminate.
    + cbn -[Ascii.eqb] in Hend.
      apply andb_prop in Hend as [_ Hend]. apply andb_prop in Hend as [Hend _].
      discriminate.
    + left. cbn -[Ascii.eqb] in Hend.
      apply andb_prop in Hend as [H1 Hend]. apply andb_prop in Hend as [H2 _].
      apply Ascii.eqb_eq in H1 as <-. apply Ascii.eqb_eq in H2 as <-.
      by rewrite Hn.
    + right. exists (JS.str (rev r)). cbn -[Ascii.eqb] in Hend.
      apply andb_prop in Hend as [H1 Hend]. apply andb_prop in Hend as [H2 Hend].
      apply andb_prop in Hend as [H3 _].
      apply Ascii.eqb_eq in H1 as <-. apply Ascii.eqb_eq in H2 as <-.
      apply Ascii.eqb_eq in H3 as <-.
      rewrite Hn. rewrite <- (str_chars "index.") at 2.
      rewrite <- (str_chars ".md"), <- !str_app. f_equal.
      simpl. by rewrite <- !app_assoc.
  - intros [->|[l ->]]; [done|].
    unfold isIndexFile. apply andb_true_intro. split.
    + unfold JS.startsWith. rewrite chars_append. apply startsWithL_prefix.
    + unfold JS.endsWith. rewrite !chars_append, !rev_app_distr, <- app_assoc.
      apply startsWithL_prefix.
Qed.

(** ** The collections of [getCollections] *)

(** X20. Every collection of [getCollections], read from a directory or
    taken from the mapping, has a locale, which stands in its [locales];
    all its [locales] are defined; and its cover image metadata names the
    cover image of its front matter. *)
Theorem collections_have_their_locale (E : Env) unicorns collection :
  collection ∈ getCollections E unicorns ->
  (exists l, coll_locale collection = Some l
             /\ Some l ∈ coll_locales collection)
  /\ Forall (fun locale => is_Some locale) (coll_locales collection)
  /\ img_relativePath (coll_coverImgMeta collection) = coll_coverImg collection.
Proof.
  intros Hc.
  apply getCollections_elem_origin in Hc
    as [(slug & i & file & _ & Hfile & ->)|((slug & frontmatter) & _ & ->)].
  - set (files := indexFiles E (env_join E [collectionsDirectory E; slug])) in *.
    cbn [collectionOfFile coll_locale coll_locales coll_coverImgMeta
         coll_coverImg img_relativePath].
    split; [|split; [|done]].
    + destruct (localesOf_index files i file Hfile) as [l Hl].
      { eapply indexFiles_isIndexFile, list_elem_of_lookup_2, Hfile. }
      exists l. unfold localeAt. rewrite Hl. split; [done|].
      by eapply list_elem_of_lookup_2.
    + apply Forall_forall. intros locale Hlocale.
      apply list_elem_of_lookup in Hlocale as [j Hj].
      destruct (lookup_lt_is_Some_2 files j) as [f Hf].
      { rewrite <- (localesOf_length files). by eapply lookup_lt_Some. }
      destruct (localesOf_index files j f Hf) as [l Hlj].
      { eapply indexFiles_isIndexFile, list_elem_of_lookup_2, Hf. }
      rewrite Hlj in Hj. injection Hj as <-. by eexists.
  - simpl. split; [|split; [|done]].
    + exists "en". split; [done|]. apply list_elem_of_here.
    + by repeat constructor.
Qed.

Lemma collections_have_their_locale_witness :
  exists collection,
    getCollections Demo.env Demo.unicorns !! 0 = Some collection
    /\ coll_locale collection = Some "es"
    /\ Some "es" ∈ coll_locales collection.
Proof.
  eexists. split; [vm_compute; reflexivity|].
  match goal with
  | |- coll_locale ?c = _ /\ _ =>
      destruct (collections_have_their_locale Demo.env Demo.unicorns c)
        as ((l & Hl & Hin) & _)
  end.
  - apply (list_elem_of_lookup_2 _ 0). vm_compute. reflexivity.
  - assert (Hes : l = "es") by (vm_compute in Hl; congruence).
    subst l. by split.
Defined.

(** ** The tag table *)

Lemma replaceL_first pattern replacement before after :
  (forall k, (k < length before)%nat ->
             JS.startsWithL pattern (drop k (before ++ pattern ++ after)) = false) ->
  replaceL pattern replacement (before ++ pattern ++ after)
  = before ++ replacement ++ after.
Proof.
  induction before as [|c before IH]; intros Hno.
  - simpl app. destruct (pattern ++ after) as [|c s] eqn:Hs.
    + destruct pattern; [|done]. simpl in *. by subst.
    + cbn [replaceL]. rewrite <- Hs, startsWithL_prefix.
      by rewrite drop_app_length.
  - cbn [app replaceL].
    change (c :: before ++ pattern ++ after)
      with (drop 0 ((c :: before) ++ pattern ++ after)).
    rewrite (Hno 0%nat) by (simpl; lia). simpl drop.
    f_equal. apply IH. intros k Hk. apply (Hno (S k)). simpl. lia.
Qed.

Lemma svg_starts_inside (c : ascii) before after :
  JS.startsWithL (JS.chars ".svg") ((c :: before) ++ JS.chars ".svg" ++ after) = true ->
  exists rest, c :: before = JS.chars ".svg" ++ rest.
Proof.
  intros H. cbn -[Ascii.eqb] in H.
  apply andb_prop in H as [H1 H]. apply Ascii.eqb_eq in H1 as <-.
  destruct before as [|c2 before].
  { cbn -[Ascii.eqb] in H. apply andb_prop in H as [H _]. discriminate. }
  cbn -[Ascii.eqb] in H.
  apply andb_prop in H as [H2 H]. apply Ascii.eqb_eq in H2 as <-.
  destruct before as [|c3 before].
  { cbn -[Ascii.eqb] in H. apply andb_prop in H as [H _]. discriminate. }
  cbn -[Ascii.eqb] in H.
  apply andb_prop in H as [H3 H]. apply Ascii.eqb_eq in H3 as <-.
  destruct before as [|c4 before].
  { cbn -[Ascii.eqb] in H. apply andb_prop in H as [H _]. discriminate. }
  cbn -[Ascii.eqb] in H.
  apply andb_prop in H as [H4 _]. apply Ascii.eqb_eq in H4 as <-.
  by exists before.
Qed.

Lemma str_inj_chars s l : JS.chars s = l -> s = JS.str l.
Proof. intros <-. by rewrite str_chars. Qed.

Lemma String_replace_svg stem rest replacement :
  occursNowhere ".svg" stem ->
  String_replace (stem +:+ ".svg" +:+ rest) ".svg" replacement
  = stem +:+ replacement +:+ rest.
Proof.
  intros Hno. unfold String_replace. rewrite !chars_append.
  rewrite replaceL_first.
  - by rewrite !str_app, !str_chars.
  - intros k Hk.
    destruct (JS.startsWithL (JS.chars ".svg")
                (drop k (JS.chars stem ++ JS.chars ".svg" ++ JS.chars rest)))
      eqn:Hstart; [exfalso | done].
    rewrite drop_app_le in Hstart by lia.
    destruct (drop k (JS.chars stem)) as [|c tail] eqn:Hdrop.
    { apply (f_equal length) in Hdrop. rewrite length_drop in Hdrop.
      simpl in Hdrop. lia. }
    apply svg_starts_inside in Hstart as [after Hafter].
    apply (Hno (JS.str (take k (JS.chars stem))) (JS.str after)).
    rewrite <- (str_chars ".svg"), <- !str_app. apply str_inj_chars.
    by rewrite <- Hafter, <- Hdrop, take_drop.
Qed.

Lemma append_empty s : s +:+ "" = s.
Proof.
  induction s as [|c s IH]; [done|].
  change (String c (s +:+ "") = String c s). by rewrite IH.
Qed.

Lemma explainer_paths_plain stem :
  occursNowhere ".svg" stem ->
  licensePath (stem +:+ ".svg") = "public" +:+ stem +:+ "-LICENSE.md"
  /\ attributionPath (stem +:+ ".svg") = "public" +:+ stem +:+ "-ATTRIBUTION.md".
Proof.
  intros Hno. unfold licensePath, attributionPath.
  pose proof (String_replace_svg stem "" "-LICENSE.md" Hno) as Hl.
  pose proof (String_replace_svg stem "" "-ATTRIBUTION.md" Hno) as Ha.
  rewrite !append_empty in Hl, Ha. change (".svg" +:+ "") with ".svg" in Hl, Ha.
  by rewrite Hl, Ha.
Qed.

Lemma endsWith_suffix s suffix : JS.endsWith (s +:+ suffix) suffix = true.
Proof.
  unfold JS.endsWith. rewrite chars_append, rev_app_distr.
  apply startsWithL_prefix.
Qed.

Lemma loadTags_snoc readFile processExplainer tagsRaw key tag :
  loadTags readFile processExplainer (tagsRaw ++ [(key, tag)])
  = <[key := tagEntry readFile processExplainer tag]>
      (loadTags readFile processExplainer tagsRaw).
Proof. unfold loadTags. by rewrite fold_left_app. Qed.

Lemma loadTags_None readFile processExplainer tagsRaw key :
  key ∉ map fst tagsRaw ->
  loadTags readFile processExplainer tagsRaw !! key = None.
Proof.
  induction tagsRaw as [|[k tag] tagsRaw IH] using rev_ind; intros Hkey; [done|].
  rewrite loadTags_snoc. rewrite map_app, elem_of_app in Hkey. simpl in Hkey.
  rewrite lookup_insert_ne.
  - apply IH. tauto.
  - intros ->. apply Hkey. right. apply list_elem_of_here.
Qed.

Lemma loadTags_Some readFile processExplainer tagsRaw key entry :
  loadTags readFile processExplainer tagsRaw !! key = Some entry ->
  exists tag, (key, tag) ∈ tagsRaw
              /\ entry = tagEntry readFile processExplainer tag.
Proof.
  induction tagsRaw as [|[k tag] tagsRaw IH] using rev_ind; [done|].
  rewrite loadTags_snoc. intros H.
  destruct (decide (k = key)) as [->|Hne].
  - rewrite lookup_insert_eq in H. injection H as <-.
    exists tag. split; [|done]. apply elem_of_app. right. apply list_elem_of_here.
  - rewrite lookup_insert_ne in H by done.
    destruct (IH H) as (tag' & Hin & ->). exists tag'. split; [|done].
    apply elem_of_app. by left.
Qed.

Lemma loadTags_NoDup readFile processExplainer tagsRaw key tag :
  NoDup (map fst tagsRaw) ->
  (key, tag) ∈ tagsRaw ->
  loadTags readFile processExplainer tagsRaw !! key
  = Some (tagEntry readFile processExplainer tag).
Proof.
  induction tagsRaw as [|[k t] tagsRaw IH] using rev_ind; intros Hnd Hin.
  - by apply elem_of_nil in Hin.
  - rewrite loadTags_snoc. rewrite map_app in Hnd.
    apply NoDup_app in Hnd as (Hnd & Hdisj & _).
    apply elem_of_app in Hin as [Hin|Hin].
    + rewrite lookup_insert_ne; [by apply IH|].
      intros ->. apply (Hdisj key).
      * apply list_elem_of_In, in_map_iff. exists (key, tag).
        split; [done | by apply list_elem_of_In].
      * apply list_elem_of_here.
    + apply list_elem_of_singleton in Hin. injection Hin as -> ->.
      by rewrite lookup_insert_eq.
Qed.

(** X21. The tag map has the keys of [tags.json] and no other; where the
    keys are all different, as the keys of an object are, the map holds
    under every key the object the loop built from the entry of that key,
    and it has as many entries as the file. *)
Theorem tags_hold_the_entries readFile processExplainer
    (tagsRaw : list (string * RawTagInfo)) :
  NoDup (map fst tagsRaw) ->
  (forall key,
     is_Some (loadTags readFile processExplainer tagsRaw !! key)
     <-> key ∈ map fst tagsRaw)
  /\ (forall key tag,
        (key, tag) ∈ tagsRaw ->
        loadTags readFile processExplainer tagsRaw !! key
        = Some (tagEntry readFile processExplainer tag))
  /\ size (loadTags readFile processExplainer tagsRaw) = length tagsRaw.
Proof.
  intros Hnd. split; [|split].
  - intros key. split.
    + intros [entry Hentry].
      apply loadTags_Some in Hentry as (tag & Hin & _).
      apply list_elem_of_In, in_map_iff. exists (key, tag).
      split; [done | by apply list_elem_of_In].
    + intros Hkey. apply list_elem_of_In, in_map_iff in Hkey as ([k tag] & <- & Hin).
      apply list_elem_of_In in Hin.
      rewrite (loadTags_NoDup _ _ _ _ _ Hnd Hin). by eexists.
  - intros key tag Hin. by apply loadTags_NoDup.
  - induction tagsRaw as [|[k t] tagsRaw IH] using rev_ind; [done|].
    rewrite loadTags_snoc, length_app. simpl.
    rewrite map_app in Hnd. apply NoDup_app in Hnd as (Hnd & Hdisj & _).
    rewrite map_size_insert_None.
    + rewrite IH by done. lia.
    + apply loadTags_None. intros Hk. apply (Hdisj k Hk). apply list_elem_of_here.
Qed.

Lemma tags_hold_the_entries_witness :
  size TagDemo.tags = 4
  /\ is_Some (TagDemo.tags !! "react")
  /\ TagDemo.tags !! "vue" = None.
Proof.
  destruct (tags_hold_the_entries TagDemo.readFile TagDemo.processExplainer
              TagDemo.tagsRaw) as (Hkeys & _ & Hsize).
  { apply (bool_decide_unpack _). vm_compute. exact I. }
  split; [exact Hsize|]. split.
  - apply Hkeys. apply (bool_decide_unpack _). vm_compute. exact I.
  - vm_compute. reflexivity.
Defined.

Lemma tagEntry_invariant readFile processExplainer tag :
  let entry := tagEntry readFile processExplainer tag in
  (entry_explainerHtml entry = None <-> entry_explainerType entry = None)
  /\ (entry_explainerType entry = None
      \/ entry_explainerType entry = Some "license"
      \/ entry_explainerType entry = Some "attribution")
  /\ (is_Some (entry_explainerType entry) ->
      exists image,
        entry_image entry = Some image /\ JS.endsWith image ".svg" = true)
  /\ entry_displayName entry = rawtag_displayName tag
  /\ entry_image entry = rawtag_image tag.
Proof.
  unfold tagEntry, explainerOf.
  destruct (rawtag_image tag) as [image|] eqn:Himage;
    [|simpl; split; [done|]; split; [by left|];
      split; [by intros [? ?] | done]].
  destruct (JS.endsWith image ".svg") eqn:Hsvg;
    [|simpl; split; [done|]; split; [by left|];
      split; [by intros [? ?] | done]].
  cbv zeta.
  destruct (truthyO (readFile (licensePath image))) eqn:Hl.
  - cbn [entry_explainerHtml entry_explainerType entry_displayName entry_image].
    rewrite Hl.
    destruct (readFile (licensePath image)); [|done].
    split; [done|]. split; [by right; left|]. split; [|done].
    intros _. by exists image.
  - destruct (truthyO (readFile (attributionPath image))) eqn:Ha.
    + cbn [entry_explainerHtml entry_explainerType entry_displayName entry_image].
      rewrite Ha.
      destruct (readFile (attributionPath image)); [|done].
      split; [done|]. split; [by right; right|]. split; [|done].
      intros _. by exists image.
    + simpl. split; [done|]. split; [by left|].
      split; [by intros [? ?] | done].
Qed.

(** X22. In every entry of the tag map the rendered explainer and its type
    come together or not at all; the type is [license] or [attribution];
    and a tag has an explainer only when it has an image whose path ends
    in [.svg]. *)
Theorem explainer_comes_with_its_type readFile processExplainer
    (tagsRaw : list (string * RawTagInfo)) key entry :
  loadTags readFile processExplainer tagsRaw !! key = Some entry ->
  (entry_explainerHtml entry = None <-> entry_explainerType entry = None)
  /\ (entry_explainerType entry = None
      \/ entry_explainerType entry = Some "license"
      \/ entry_explainerType entry = Some "attribution")
  /\ (is_Some (entry_explainerType entry) ->
      exists image,
        entry_image entry = Some image /\ JS.endsWith image ".svg" = true).
Proof.
  intros Hentry. apply loadTags_Some in Hentry as (tag & _ & ->).
  destruct (tagEntry_invariant readFile processExplainer tag)
    as (H1 & H2 & H3 & _).
  by split; [|split].
Qed.

Lemma explainer_comes_with_its_type_witness :
  exists entry,
    TagDemo.tags !! "photo" = Some entry
    /\ entry_explainerType entry = None
    /\ entry_explainerHtml entry = None.
Proof.
  eexists. split; [vm_compute; reflexivity|].
  match goal with
  | |- entry_explainerType ?e = None /\ _ =>
      destruct (explainer_comes_with_its_type TagDemo.readFile
                  TagDemo.processExplainer TagDemo.tagsRaw "photo" e)
        as (Hboth & _)
  end.
  - vm_compute. reflexivity.
  - assert (Htype : entry_explainerType
                      {| entry_explainerHtml := None;
                         entry_explainerType := None;
                         entry_displayName := "Photo";
                         entry_image := Some "/stickers/photo.png" |} = None)
      by reflexivity.
    split; [exact Htype | exact (proj2 Hboth Htype)].
Defined.

(** X23. The files of an explainer are looked for at the first [.svg] of
    the image path: for a path that reads [stem], [.svg] and a rest, the
    stem holding no [.svg], the license is read from [public], the stem,
    [-LICENSE.md] and the rest, and the attribution from the like path
    with [-ATTRIBUTION.md]; the rest, empty for a plain image name, is
    carried along. *)
Theorem explainer_files_at_first_svg (stem rest : string) :
  occursNowhere ".svg" stem ->
  licensePath (stem +:+ ".svg" +:+ rest)
  = "public" +:+ stem +:+ "-LICENSE.md" +:+ rest
  /\ attributionPath (stem +:+ ".svg" +:+ rest)
     = "public" +:+ stem +:+ "-ATTRIBUTION.md" +:+ rest.
Proof.
  intros Hno. unfold licensePath, attributionPath.
  by rewrite !String_replace_svg.
Qed.

Lemma occursNowhere_dotless pattern c s :
  JS.includesChar pattern c = true -> JS.includesChar s c = false ->
  occursNowhere pattern s.
Proof.
  unfold JS.includesChar. intros Hc Hs before after ->.
  rewrite !chars_append, !existsb_app, Hc in Hs.
  by rewrite orb_true_r in Hs.
Qed.

Lemma explainer_files_at_first_svg_witness :
  licensePath "/stickers/a.svg/b.svg" = "public/stickers/a-LICENSE.md/b.svg".
Proof.
  apply (explainer_files_at_first_svg "/stickers/a" "/b.svg").
  apply (occursNowhere_dotless ".svg" "."%char); reflexivity.
Defined.

(** X24. The license comes before the attribution, and an empty file
    counts as none. For a tag whose image is a stem without [.svg]
    followed by [.svg]: a license file with text in it makes the
    explainer, whatever the attribution file holds; with the license file
    missing or empty, an attribution file with text in it makes the
    explainer; otherwise the tag has no explainer. The explainer is the
    rendering of the text of the file. *)
Theorem license_before_attribution readFile processExplainer
    (tag : RawTagInfo) (stem : string) :
  rawtag_image tag = Some (stem +:+ ".svg") ->
  occursNowhere ".svg" stem ->
  let license := readFile ("public" +:+ stem +:+ "-LICENSE.md") in
  let attribution := readFile ("public" +:+ stem +:+ "-ATTRIBUTION.md") in
  let entry := tagEntry readFile processExplainer tag in
  (forall text,
     license = Some text -> text <> "" ->
     entry_explainerType entry = Some "license"
     /\ entry_explainerHtml entry = Some (processExplainer text))
  /\ (forall text,
        license = None \/ license = Some "" ->
        attribution = Some text -> text <> "" ->
        entry_explainerType entry = Some "attribution"
        /\ entry_explainerHtml entry = Some (processExplainer text))
  /\ (license = None \/ license = Some "" ->
      attribution = None \/ attribution = Some "" ->
      entry_explainerType entry = None /\ entry_explainerHtml entry = None).
Proof.
  intros Himage Hno license attribution entry.
  destruct (explainer_paths_plain stem Hno) as [Hlp Hap].
  assert (Htruthy : forall text, text <> "" -> truthy text = true).
  { intros text Hne. unfold truthy. by destruct (String.eqb_spec text ""). }
  subst entry. unfold tagEntry, explainerOf.
  rewrite Himage, endsWith_suffix, Hlp, Hap. fold license attribution.
  split; [|split].
  - intros text Hl Hne. rewrite Hl. cbn [truthyO].
    rewrite (Htruthy text Hne). cbn [truthyO]. by rewrite (Htruthy text Hne).
  - intros text Hl Ha Hne. rewrite Ha.
    assert (Hfalsy : truthyO license = false) by (by destruct Hl as [-> | ->]).
    rewrite Hfalsy. cbn [truthyO].
    rewrite (Htruthy text Hne). cbn [truthyO]. by rewrite (Htruthy text Hne).
  - intros Hl Ha.
    assert (Hfl : truthyO license = false) by (by destruct Hl as [-> | ->]).
    assert (Hfa : truthyO attribution = false) by (by destruct Ha as [-> | ->]).
    by rewrite Hfl, Hfa.
Qed.

Lemma license_before_attribution_witness :
  exists entry,
    TagDemo.tags !! "react" = Some entry
    /\ entry_explainerType entry = Some "attribution"
    /\ entry_explainerHtml entry = Some "<p>by the authors</p>".
Proof.
  exists (tagEntry TagDemo.readFile TagDemo.processExplainer
            {| rawtag_displayName := "React";
               rawtag_image := Some "/stickers/react.svg" |}).
  split; [vm_compute; reflexivity|].
  destruct (license_before_attribution TagDemo.readFile TagDemo.processExplainer
              {| rawtag_displayName := "React";
                 rawtag_image := Some "/stickers/react.svg" |}
              "/stickers/react" eq_refl) as (_ & Hattribution & _).
  { apply (occursNowhere_dotless ".svg" "."%char); reflexivity. }
  apply (Hattribution "by the authors"); [by right | reflexivity | discriminate].
Defined.

(** X25. With the tag map the loop builds, the tag filter of the posts
    keeps the tags that are keys of [tags.json], in their order, and sends
    a warning for every other. *)
Theorem posts_keep_the_keys_of_tags_json (E : Env) readFile processExplainer
    (tagsRaw : list (string * RawTagInfo)) slug frontmatterTags :
  env_tags E = tagInfoOf <$> loadTags readFile processExplainer tagsRaw ->
  filterTags E slug frontmatterTags
  = (List.filter (fun tag => bool_decide (tag ∈ map fst tagsRaw)) frontmatterTags,
     map (tagWarning slug)
         (List.filter (fun tag => bool_decide (tag ∉ map fst tagsRaw))
                      frontmatterTags)).
Proof.
  intros Htags.
  assert (Hhas : forall tag,
             tagsHas E tag = bool_decide (tag ∈ map fst tagsRaw)).
  { intros tag. unfold tagsHas. rewrite Htags, lookup_fmap.
    destruct (loadTags readFile processExplainer tagsRaw !! tag)
      as [entry|] eqn:Hentry; simpl.
    - apply loadTags_Some in Hentry as (t & Hin & _).
      rewrite bool_decide_eq_true_2; [done|].
      apply list_elem_of_In, in_map_iff. exists (tag, t).
      split; [done | by apply list_elem_of_In].
    - rewrite bool_decide_eq_false_2; [done|]. intros Hin.
      destruct (decide (tag ∈ map fst tagsRaw)) as [_|Hout]; [|done].
      apply list_elem_of_In, in_map_iff in Hin as ([k t] & <- & Hin).
      apply list_elem_of_In in Hin. revert Hentry.
      clear -Hin. induction tagsRaw as [|[k' t'] tagsRaw IH] using rev_ind.
      + by apply elem_of_nil in Hin.
      + rewrite loadTags_snoc. simpl. destruct (decide (k' = k)) as [->|Hne].
        * by rewrite lookup_insert_eq.
        * rewrite lookup_insert_ne by done.
          apply elem_of_app in Hin as [Hin|Hin]; [by apply IH|].
          apply list_elem_of_singleton in Hin. congruence. }
  rewrite filterTags_spec. f_equal.
  - apply filter_ext. intros tag. apply Hhas.
  - f_equal. apply filter_ext. intros tag. rewrite Hhas.
    destruct (decide (tag ∈ map fst tagsRaw)) as [Hin|Hout].
    + by rewrite bool_decide_eq_true_2, bool_decide_eq_false_2 by tauto.
    + by rewrite bool_decide_eq_false_2, bool_decide_eq_true_2 by tauto.
Qed.

Lemma posts_keep_the_keys_of_tags_json_witness :
  filterTags Demo.env "a" ["valid-tag"; "angular"]
  = (["valid-tag"],
     ["a: Tag 'angular' is not specified in content/data/tags.json! Filtering..."]).
Proof.
  rewrite (posts_keep_the_keys_of_tags_json Demo.env TagDemo.readFile
             TagDemo.processExplainer
             [("valid-tag", {| rawtag_displayName := "Valid";
                               rawtag_image := None |})]
             "a" ["valid-tag"; "angular"]).
  - vm_compute. reflexivity.
  - vm_compute. reflexivity.
Defined.

(** ** The locale of a file with several dots *)

Lemma splitCharL_nonempty sep s : JS.splitCharL sep s <> [].
Proof.
  destruct s as [|c s]; simpl; [done|].
  destruct (Ascii.eqb c sep); [done|]. by destruct (JS.splitCharL sep s).
Qed.

Lemma splitCharL_app sep a b :
  JS.splitCharL sep (a ++ sep :: b) = JS.splitCharL sep a ++ JS.splitCharL sep b.
Proof.
  induction a as [|c a IH]; simpl.
  - by rewrite Ascii.eqb_refl.
  - rewrite IH. destruct (Ascii.eqb c sep); [done|].
    pose proof (splitCharL_nonempty sep a).
    by destruct (JS.splitCharL sep a).
Qed.

Lemma at_last_but_one {A} (l : list A) x y : JS.at_ (l ++ [x; y]) (-2) = Some x.
Proof.
  unfold JS.at_. rewrite length_app. simpl length.
  replace (-2 <? 0)%Z with true by done.
  replace (Z.of_nat (length l + 2) + -2)%Z with (Z.of_nat (length l)) by lia.
  destruct (Z.ltb_spec (Z.of_nat (length l)) 0); [lia|].
  rewrite Nat2Z.id. by rewrite lookup_app_r, Nat.sub_diag by lia.
Qed.

(** X26. The locale of a file is the text between its last two dots. For
    a name that ends in a piece without dots followed by [.md], the piece
    standing at the start of the name or after a dot, the locale is the
    piece, whatever stands before it, and [en] when the piece is [index]:
    [index.index.md] is an English file like [index.md]. *)
Theorem locale_is_the_last_but_one_piece (files : list string) (i : nat)
    (before piece : string) :
  Forall (fun c => c <> "."%char) (JS.chars piece) ->
  (files !! i = Some (piece +:+ ".md")
   \/ files !! i = Some (before +:+ "." +:+ piece +:+ ".md")) ->
  localesOf files !! i
  = Some (Some (if String.eqb piece "index" then "en" else piece)).
Proof.
  intros Hpiece Hfile. rewrite localesOf_lookup.
  assert (Hmd : Forall (fun c => c <> "."%char) (JS.chars "md")).
  { change (JS.chars "md") with ["m"%char; "d"%char].
    repeat constructor; discriminate. }
  assert (Hat : forall name,
             files !! i = Some name ->
             JS.at_ (JS.splitChar name "."%char) (-2) = Some piece).
  { intros name Hname. rewrite Hname in Hfile. unfold JS.splitChar.
    destruct Hfile as [[= ->] | [= ->]].
    - rewrite chars_append.
      change (JS.chars ".md") with ("."%char :: JS.chars "md").
      rewrite splitCharL_piece by done.
      rewrite (splitCharL_last "."%char (JS.chars "md") Hmd).
      change (map JS.str [JS.chars piece; JS.chars "md"])
        with (map JS.str [] ++ [JS.str (JS.chars piece); "md"]).
      by rewrite at_last_but_one, str_chars.
    - rewrite !chars_append.
      change (JS.chars "." ++ JS.chars piece ++ JS.chars ".md")
        with ("."%char :: JS.chars piece ++ "."%char :: JS.chars "md").
      rewrite splitCharL_app, splitCharL_piece by done.
      rewrite (splitCharL_last "."%char (JS.chars "md") Hmd).
      rewrite map_app.
      change (map JS.str [JS.chars piece; JS.chars "md"])
        with [JS.str (JS.chars piece); "md"].
      by rewrite at_last_but_one, str_chars. }
  destruct (files !! i) as [name|] eqn:Hname; [|by destruct Hfile].
  simpl. rewrite (Hat name eq_refl). by destruct (String.eqb piece "index").
Qed.

Lemma locale_is_the_last_but_one_piece_witness :
  localesOf ["index.md"; "index.draft.es.md"; "index.index.md"]
  = [Some "en"; Some "es"; Some "en"]
  /\ localesOf ["index.md"; "index.draft.es.md"; "index.index.md"] !! 1
     = Some (Some "es").
Proof.
  split; [vm_compute; reflexivity|].
  apply (locale_is_the_last_but_one_piece
           ["index.md"; "index.draft.es.md"; "index.index.md"] 1
           "index.draft" "es").
  - repeat constructor; discriminate.
  - right. reflexivity.
Defined.

(** ** The banners of one locale *)

Lemma hasLocale_locale l (ps : list PostInfo) p :
  p ∈ List.filter (hasLocale l) ps -> post_locale p = Some l.
Proof.
  intros Hp. apply list_elem_of_In, filter_In in Hp as [_ Hp].
  by apply bool_decide_eq_true in Hp.
Qed.

(** X14. The banners of a locale are those the loop gives to the posts of
    that locale taken alone, in their order: posts of other locales never
    move a banner. Where every post has a published date, the first post
    of a locale is its most recent one, and it carries a banner, unless
    the locale is the name of a property all objects inherit: then no
    post of the locale has a banner. *)
Theorem banners_locale_by_locale (E : Env) unicorns heap collections
    (l : Languages) :
  allDated E post_published (getPosts E unicorns heap collections).1 ->
  let posts := (getPosts E unicorns heap collections).1 in
  List.filter (hasLocale l) posts
  = bannerLoop ∅ (map clearBanner (List.filter (hasLocale l) posts))
  /\ match List.filter (hasLocale l) posts with
     | first :: rest =>
         Forall (fun other =>
                   notEarlier E (post_published first) (post_published other))
                rest
         /\ (isInherited l = false ->
             post_bannerImg first
             = Some ("/generated/" +:+ post_slug first +:+ ".banner.jpg"))
     | [] => True
     end
  /\ (isInherited l = true ->
      Forall (fun post => post_bannerImg post = None)
             (List.filter (hasLocale l) posts)).
Proof.
  intros Hdated posts.
  set (sorted := Array_sort (comparePosts E)
                   (map fst (builtPosts E unicorns heap collections))).
  pose proof (sortedPosts_fresh E unicorns heap collections) as Hfresh.
  fold sorted in Hfresh.
  assert (Hlocales : Forall (fun p => is_Some (post_locale p)) sorted).
  { eapply Forall_impl; [exact Hfresh|]. by intros p [? _]. }
  assert (Hclear : map clearBanner (List.filter (hasLocale l) posts)
                   = List.filter (hasLocale l) sorted).
  { rewrite <- (filter_map_clearBanner (hasLocale l)) by done.
    unfold posts. by rewrite getPosts_clearBanner. }
  assert (Heq : List.filter (hasLocale l) posts
                = bannerLoop ∅ (List.filter (hasLocale l) sorted)).
  { unfold posts. rewrite getPosts_unfold. fold sorted.
    rewrite hasLocale_underKey by by apply bannerLoop_locales.
    rewrite (hasLocale_underKey l sorted) by done.
    by apply bannerLoop_filter_key. }
  assert (Hmine : forall i q,
             List.filter (hasLocale l) posts !! i = Some q ->
             exists p,
               post_bannerImg p = None
               /\ q = if isInherited l then p
                      else marked (Z.of_nat
                                     (countedBefore
                                        (List.filter (hasLocale l) sorted) i l))
                                  p).
  { intros i q Hq. rewrite Heq in Hq.
    destruct (lookup_lt_is_Some_2 (List.filter (hasLocale l) sorted) i)
      as [p Hp].
    { rewrite <- (bannerLoop_length ∅). by eapply lookup_lt_Some. }
    rewrite (bannerLoop_empty_lookup _ _ p Hp) in Hq.
    assert (Hin : p ∈ List.filter (hasLocale l) sorted)
      by (by eapply list_elem_of_lookup_2).
    rewrite (hasLocale_locale l sorted p Hin) in Hq. simpl in Hq.
    exists p. split; [|congruence].
    apply list_elem_of_In, filter_In in Hin as [Hin _].
    rewrite Forall_forall in Hfresh.
    by destruct (Hfresh p (proj2 (list_elem_of_In _ _) Hin)). }
  split; [by rewrite Hclear|]. split.
  - pose proof (getPosts_descending E unicorns heap collections Hdated) as Hdesc.
    apply (StronglySorted_filter _ (hasLocale l)) in Hdesc. fold posts in Hdesc.
    destruct (List.filter (hasLocale l) posts) as [|first rest] eqn:Hf; [done|].
    apply StronglySorted_inv in Hdesc as [_ Hfirst]. split; [exact Hfirst|].
    intros Hown.
    destruct (Hmine 0 first eq_refl) as (p & Hnone & Hq).
    rewrite Hown in Hq. subst first.
    unfold countedBefore, marked. simpl. reflexivity.
  - intros Hinherited. apply Forall_lookup. intros i q Hq.
    destruct (Hmine i q Hq) as (p & Hnone & Hp).
    rewrite Hinherited in Hp. by subst q.
Qed.

Lemma banners_locale_by_locale_witness :
  List.filter (hasLocale "es")
    (getPosts Demo.env Demo.unicorns
       (collectionsStage Demo.env Demo.unicorns).1
       (collectionsStage Demo.env Demo.unicorns).2).1
  = bannerLoop ∅
      (map clearBanner
         (List.filter (hasLocale "es")
            (getPosts Demo.env Demo.unicorns
               (collectionsStage Demo.env Demo.unicorns).1
               (collectionsStage Demo.env Demo.unicorns).2).1)).
Proof.
  destruct (banners_locale_by_locale Demo.env Demo.unicorns
              (collectionsStage Demo.env Demo.unicorns).1
              (collectionsStage Demo.env Demo.unicorns).2 "es") as [H _].
  - unfold allDated. apply (bool_decide_unpack _). vm_compute. exact I.
  - exact H.
Defined.
